(** * The webview service worker: resource and localhost request broker

    A shallow embedding of
    [src/vs/workbench/contrib/webview/browser/pre/service-worker.js]:
    the [RequestStore] class, the [message] and [fetch] listeners, the two
    request handlers [processResourceRequest] and [processLocalhostRequest],
    and the two peer helpers [getWebviewIdForClient] and
    [getOuterIframeClient].

    Platform objects are modelled as follows.
    - JavaScript strings are [string]s of 8-bit characters (the ASCII
      fragment of UTF-16 is what the worker's patterns inspect; every such
      string is a [ByteString], as header values have to be).
    - A [URL] is the record of its serialisation [href] and of the
      components the worker reads ([origin], [host], [pathname], [search],
      [hash]). The serialisation is data of its own: a URL with credentials
      does not start with its origin.
    - [new Response] normalises and validates the header values it is
      given, and throws on a value it does not accept.
    - A [Promise] is a heap cell: either pending with the reactions
      registered by [then], or fulfilled with a value. Its resolving function
      only acts the first time it is called.
    - [async] functions are tasks with an explicit program point; the event
      loop is a step function over events. *)

From Stdlib Require Import Ascii String ZArith Bool Lia.
From stdpp Require Import base option list gmap strings.

(** ** JavaScript strings and regular expressions *)

Module JS.
Local Open Scope char_scope.

Definition chars (s : string) : list ascii := list_ascii_of_string s.
Definition str (l : list ascii) : string := string_of_list_ascii l.

Definition code (c : ascii) : nat := nat_of_ascii c.

Definition in_range (lo hi c : ascii) : bool :=
  (code lo <=? code c)%nat && (code c <=? code hi)%nat.

Definition is_digit (c : ascii) : bool := in_range "0" "9" c.
Definition is_upper (c : ascii) : bool := in_range "A" "Z" c.
Definition is_lower (c : ascii) : bool := in_range "a" "z" c.

(** [IsWordChar]: the characters of [\w]. *)
Definition is_word (c : ascii) : bool :=
  is_lower c || is_upper c || is_digit c || Ascii.eqb c "_".

Definition to_upper (c : ascii) : ascii :=
  if is_lower c then ascii_of_nat (code c - 32) else c.
Definition to_lower (c : ascii) : ascii :=
  if is_upper c then ascii_of_nat (code c + 32) else c.

(** [String.prototype.startsWith]. *)
Fixpoint starts_with (p s : list ascii) : bool :=
  match p, s with
  | [], _ => true
  | a :: p', b :: s' => Ascii.eqb a b && starts_with p' s'
  | _ :: _, [] => false
  end.

Definition startsWith (s p : string) : bool := starts_with (chars p) (chars s).

(** Truthiness of a string: only the empty string is falsy. *)
Definition truthy (s : string) : bool :=
  match s with EmptyString => false | String _ _ => true end.

End JS.

(** *** The pattern language

    The fragment of ECMAScript patterns the worker's expressions are written
    in: characters, [.], [\d], classes, the assertions [^], [$] and [\b],
    capturing groups, alternation and the greedy quantifiers. *)

Module RegExp.
Import JS.
Local Open Scope char_scope.

Inductive regex : Type :=
| Empty
| Char (c : ascii)
| Dot
| Digit
| Class (neg : bool) (ranges : list (ascii * ascii))
| WordBoundary
| LineStart
| LineEnd
| Seq (r1 r2 : regex)
| Alt (r1 r2 : regex)
| Star (r : regex)
| Plus (r : regex)
| Opt (r : regex)
| Group (n : nat) (r : regex).

(** The characters of [l] in sequence, then [r]. *)
Definition literal (l : list ascii) (r : regex) : regex :=
  foldr (fun c => Seq (Char c)) r l.

(** **** Parsing a pattern text ([new RegExp(text)] and pattern literals) *)

Inductive token : Type :=
| TChar | TBackslash | TCaret | TDollar | TDot | TStar | TPlus | TQuestion
| TLParen | TRParen | TLBracket | TRBracket | TLBrace | TRBrace | TBar.

Definition syntax_class (c : ascii) : token :=
  if Ascii.eqb c "\" then TBackslash
  else if Ascii.eqb c "^" then TCaret
  else if Ascii.eqb c "$" then TDollar
  else if Ascii.eqb c "." then TDot
  else if Ascii.eqb c "*" then TStar
  else if Ascii.eqb c "+" then TPlus
  else if Ascii.eqb c "?" then TQuestion
  else if Ascii.eqb c "(" then TLParen
  else if Ascii.eqb c ")" then TRParen
  else if Ascii.eqb c "[" then TLBracket
  else if Ascii.eqb c "]" then TRBracket
  else if Ascii.eqb c "{" then TLBrace
  else if Ascii.eqb c "}" then TRBrace
  else if Ascii.eqb c "|" then TBar
  else TChar.

Definition is_plain (c : ascii) : bool :=
  match syntax_class c with TChar => true | _ => false end.

(** The members of a character class, up to the closing bracket. *)
Fixpoint parseClassRanges (s : list ascii) (acc : list (ascii * ascii))
  : option (list (ascii * ascii) * list ascii) :=
  match s with
  | [] => None
  | c :: s' =>
    if Ascii.eqb c "]" then Some (rev acc, s')
    else if Ascii.eqb c "\" then None
    else
      match s' with
      | d :: hi :: s'' =>
        if Ascii.eqb d "-" && negb (Ascii.eqb hi "]") then
          if Ascii.eqb hi "\" then None
          else if (code c <=? code hi)%nat
               then parseClassRanges s'' ((c, hi) :: acc)
               else None
        else parseClassRanges s' ((c, c) :: acc)
      | _ => parseClassRanges s' ((c, c) :: acc)
      end
  end.

Definition parseClass (s : list ascii) : option (regex * list ascii) :=
  match s with
  | c :: s' =>
    if Ascii.eqb c "^"
    then '(rs, rest) ← parseClassRanges s' []; Some (Class true rs, rest)
    else '(rs, rest) ← parseClassRanges s []; Some (Class false rs, rest)
  | [] => None
  end.

(** An atom followed by an optional greedy quantifier. Lazy and counted
    quantifiers are outside the fragment. *)
Definition quantified (a : regex) (s : list ascii) : option (regex * list ascii) :=
  match s with
  | q :: s' =>
    match syntax_class q with
    | TStar | TPlus | TQuestion =>
      match s' with
      | l :: _ =>
        match syntax_class l with
        | TStar | TPlus | TQuestion | TLBrace => None
        | _ => Some (match syntax_class q with
                     | TStar => Star a | TPlus => Plus a | _ => Opt a end, s')
        end
      | [] => Some (match syntax_class q with
                    | TStar => Star a | TPlus => Plus a | _ => Opt a end, s')
      end
    | TLBrace => None
    | _ => Some (a, s)
    end
  | [] => Some (a, s)
  end.

(** A disjunction, read up to the end of the text or an unmatched closing
    parenthesis. [n] is the number of groups opened so far; [alts] and [cur]
    build the alternatives read so far and the current alternative. *)
Fixpoint parseDisjunction (fuel : nat) (s : list ascii) (n : nat)
    (alts cur : regex → regex) : option (regex * nat * list ascii) :=
  match fuel with
  | O => None
  | S fuel' =>
    match s with
    | [] => Some (alts (cur Empty), n, [])
    | c :: s' =>
      match syntax_class c with
      | TRParen => Some (alts (cur Empty), n, s)
      | TBar =>
        parseDisjunction fuel' s' n (fun r => alts (Alt (cur Empty) r)) (fun r => r)
      | TCaret => parseDisjunction fuel' s' n alts (fun r => cur (Seq LineStart r))
      | TDollar => parseDisjunction fuel' s' n alts (fun r => cur (Seq LineEnd r))
      | TDot =>
        '(a, rest) ← quantified Dot s';
        parseDisjunction fuel' rest n alts (fun r => cur (Seq a r))
      | TChar =>
        '(a, rest) ← quantified (Char c) s';
        parseDisjunction fuel' rest n alts (fun r => cur (Seq a r))
      | TBackslash =>
        match s' with
        | e :: s'' =>
          if Ascii.eqb e "b"
          then parseDisjunction fuel' s'' n alts (fun r => cur (Seq WordBoundary r))
          else if Ascii.eqb e "d" then
            '(a, rest) ← quantified Digit s'';
            parseDisjunction fuel' rest n alts (fun r => cur (Seq a r))
          else if is_plain e && negb (Ascii.eqb e "/") then None
          else
            '(a, rest) ← quantified (Char e) s'';
            parseDisjunction fuel' rest n alts (fun r => cur (Seq a r))
        | [] => None
        end
      | TLBracket =>
        '(cl, s'') ← parseClass s';
        '(a, rest) ← quantified cl s'';
        parseDisjunction fuel' rest n alts (fun r => cur (Seq a r))
      | TLParen =>
        match parseDisjunction fuel' s' (S n) (fun r => r) (fun r => r) with
        | Some (g, n', rp :: s'') =>
          '(a, rest) ← quantified (Group (S n) g) s'';
          parseDisjunction fuel' rest n' alts (fun r => cur (Seq a r))
        | _ => None
        end
      | TStar | TPlus | TQuestion | TLBrace | TRBrace | TRBracket => None
      end
    end
  end.

(** A compiled expression: the pattern, its number of capturing groups and
    the [i] flag. *)
Record RegExp : Type := mkRegExp {
  pattern : regex;
  ngroups : nat;
  ignoreCase : bool
}.

(** [new RegExp(text, flags)]; [None] stands for the [SyntaxError] thrown on
    a text that is not a pattern of the fragment. *)
Definition compile (text : string) (ci : bool) : option RegExp :=
  match parseDisjunction (S (length (chars text))) (chars text) 0 (fun r => r) (fun r => r) with
  | Some (r, n, []) => Some (mkRegExp r n ci)
  | _ => None
  end.

(** **** Matching

    A backtracking matcher in continuation-passing style, following the
    matcher semantics of the language specification. The state holds the text
    before the start of the attempt ([pre], reversed), the characters the
    attempt has consumed ([taken], reversed), the text still ahead and the
    captures made so far. *)

Record MState : Type := mkMState {
  pre : list ascii;
  taken : list ascii;
  rest : list ascii;
  caps : list (nat * list ascii)
}.

Definition Cont : Type := MState → option MState.

Definition prev_char (st : MState) : option ascii :=
  match taken st with
  | c :: _ => Some c
  | [] => head (pre st)
  end.

Definition word_before (st : MState) : bool :=
  match prev_char st with Some c => is_word c | None => false end.
Definition word_after (st : MState) : bool :=
  match rest st with c :: _ => is_word c | [] => false end.

Definition char_eq (ci : bool) (a b : ascii) : bool :=
  if ci then Ascii.eqb (to_upper a) (to_upper b) else Ascii.eqb a b.

Definition class_member (ci : bool) (ranges : list (ascii * ascii)) (x : ascii) : bool :=
  existsb (fun '(lo, hi) =>
             in_range lo hi x
             || (ci && (in_range lo hi (to_upper x) || in_range lo hi (to_lower x))))
          ranges.

Definition is_line_terminator (c : ascii) : bool :=
  Ascii.eqb c "010" || Ascii.eqb c "013".

(** Consume one character satisfying [p]. *)
Definition single (p : ascii → bool) (k : Cont) (st : MState) : option MState :=
  match rest st with
  | c :: r => if p c then k (mkMState (pre st) (c :: taken st) r (caps st)) else None
  | [] => None
  end.

(** The text consumed between two states of one attempt. *)
Definition consumed_between (st st' : MState) : list ascii :=
  rev (take (length (taken st') - length (taken st)) (taken st')).

Definition capture (n : nat) (st st' : MState) : MState :=
  mkMState (pre st') (taken st') (rest st') ((n, consumed_between st st') :: caps st').

Definition progressed (st st' : MState) : bool :=
  (length (rest st') <? length (rest st))%nat.

(** Greedy repetition; an iteration that consumes nothing is rejected. *)
Fixpoint repeatMatcher (mr : Cont → Cont) (k : Cont) (fuel : nat) (st : MState)
  : option MState :=
  match fuel with
  | O => k st
  | S fuel' =>
    match mr (fun st' => if progressed st st'
                         then repeatMatcher mr k fuel' st' else None) st with
    | Some res => Some res
    | None => k st
    end
  end.

Fixpoint matcher (ci : bool) (r : regex) (k : Cont) (st : MState) : option MState :=
  match r with
  | Empty => k st
  | Char c => single (char_eq ci c) k st
  | Dot => single (fun x => negb (is_line_terminator x)) k st
  | Digit => single is_digit k st
  | Class neg ranges => single (fun x => xorb neg (class_member ci ranges x)) k st
  | WordBoundary => if xorb (word_before st) (word_after st) then k st else None
  | LineStart =>
    match pre st, taken st with
    | [], [] => k st
    | _, _ => None
    end
  | LineEnd =>
    match rest st with
    | [] => k st
    | _ :: _ => None
    end
  | Seq r1 r2 => matcher ci r1 (matcher ci r2 k) st
  | Alt r1 r2 =>
    match matcher ci r1 k st with
    | Some res => Some res
    | None => matcher ci r2 k st
    end
  | Star r' => repeatMatcher (matcher ci r') k (length (rest st)) st
  | Plus r' =>
    matcher ci r'
      (fun st' => repeatMatcher (matcher ci r') k (length (rest st')) st') st
  | Opt r' =>
    match matcher ci r' (fun st' => if progressed st st' then k st' else None) st with
    | Some res => Some res
    | None => k st
    end
  | Group n r' => matcher ci r' (fun st' => k (capture n st st')) st
  end.

(** The result of a successful match: the text before it, the matched text,
    the text after it and the captures (most recent first). *)
Record MatchResult : Type := mkMatchResult {
  before : list ascii;
  matched : list ascii;
  after : list ascii;
  groups : list (nat * list ascii)
}.

(** The leftmost match, trying every start position in turn. *)
Fixpoint search_from (re : RegExp) (pre0 : list ascii) (s : list ascii) : option MatchResult :=
  match matcher (ignoreCase re) (pattern re) Some (mkMState pre0 [] s []) with
  | Some st => Some (mkMatchResult (rev pre0) (rev (taken st)) (rest st) (caps st))
  | None =>
    match s with
    | [] => None
    | c :: s' => search_from re (c :: pre0) s'
    end
  end.

(** [RegExp.prototype.exec] of an expression without [g] or [y] flag. *)
Definition exec (re : RegExp) (s : string) : option MatchResult :=
  search_from re [] (chars s).

(** Element [n] of a match array, for [n >= 1]: the text of group [n], or
    [None] for [undefined] when the group took no part in the match. *)
Fixpoint group_lookup (n : nat) (gs : list (nat * list ascii)) : option (list ascii) :=
  match gs with
  | [] => None
  | (i, t) :: gs' => if (i =? n)%nat then Some t else group_lookup n gs'
  end.

Definition group (n : nat) (res : MatchResult) : option string :=
  str <$> group_lookup n (groups res).

(** [GetSubstitution]: expansion of the [$] patterns of a replacement text,
    for an expression with [m] groups. *)
Definition digit_val (c : ascii) : nat := code c - 48.

Definition group_text (n : nat) (res : MatchResult) : list ascii :=
  default [] (group_lookup n (groups res)).

Fixpoint getSubstitution (res : MatchResult) (m : nat) (t : list ascii) : list ascii :=
  match t with
  | [] => []
  | c :: t1 =>
    if Ascii.eqb c "$" then
      match t1 with
      | [] => [c]
      | d :: t2 =>
        if Ascii.eqb d "$" then d :: getSubstitution res m t2
        else if Ascii.eqb d "&" then matched res ++ getSubstitution res m t2
        else if Ascii.eqb d "`" then before res ++ getSubstitution res m t2
        else if Ascii.eqb d "'" then after res ++ getSubstitution res m t2
        else if is_digit d then
          let one :=
            if (1 <=? digit_val d)%nat && (digit_val d <=? m)%nat
            then group_text (digit_val d) res ++ getSubstitution res m t2
            else c :: getSubstitution res m t1 in
          match t2 with
          | e :: t3 =>
            let nn := 10 * digit_val d + digit_val e in
            if is_digit e && (1 <=? nn)%nat && (nn <=? m)%nat
            then group_text nn res ++ getSubstitution res m t3
            else one
          | [] => one
          end
        else c :: getSubstitution res m t1
      end
    else c :: getSubstitution res m t1
  end.

(** [String.prototype.replace] with an expression without [g] flag. *)
Definition replace (s : string) (re : RegExp) (replacement : string) : string :=
  match exec re s with
  | None => s
  | Some res =>
    str (before res ++ getSubstitution res (ngroups re) (chars replacement) ++ after res)
  end.

(** [String.prototype.replace] with a string pattern: the first occurrence. *)
Fixpoint find_sub (p : list ascii) (pre0 s : list ascii) : option (list ascii * list ascii) :=
  if starts_with p s then Some (pre0, drop (length p) s)
  else match s with
       | [] => None
       | c :: s' => find_sub p (c :: pre0) s'
       end.

Definition replace_string (s pat replacement : string) : string :=
  match find_sub (chars pat) [] (chars s) with
  | None => s
  | Some (pre0, aft) =>
    let res := mkMatchResult (rev pre0) (chars pat) aft [] in
    str (rev pre0 ++ getSubstitution res 0 (chars replacement) ++ aft)
  end.

End RegExp.

(** ** Platform data *)

(** The outcome of an operation that may throw. *)
Inductive Completion (A : Type) : Type :=
| Return (a : A)
| Throw.
Arguments Return {A} a.
Arguments Throw {A}.

(** A parsed URL, [new URL(text)]: its serialisation [href] and the
    components the worker reads. [Request.url] and [Client.url] are
    serialised URLs, so [href] is the text they were parsed from. *)
Record URL : Type := mkURL {
  href : string;
  origin : string;
  host : string;
  pathname : string;
  search : string;
  hash : string
}.

(** A connected peer: a [Client] with its [id] and [url]. *)
Record Client : Type := mkClient {
  client_id : string;
  client_url : URL
}.

(** A [FetchEvent]: the URL of [event.request] and [event.clientId]. *)
Record FetchEvent : Type := mkFetchEvent {
  request_url : URL;
  clientId : string
}.

Definition bytes : Type := list Byte.byte.

Inductive Body : Type :=
| NoBody
| TextBody (text : string)
| DataBody (data : bytes).

(** A [Response]: its body, status and header list. *)
Record Response : Type := mkResponse {
  body : Body;
  status : Z;
  headers : list (string * string)
}.

(** *** Header lists

    Header names are compared without regard to case. A value is normalised
    by removing its leading and trailing HTTP whitespace (tab, LF, CR,
    space); a header value has no tab or space at either end and no NUL, LF
    or CR anywhere; a header name is a non-empty run of token characters. *)

Definition lower (s : string) : string := JS.str (JS.to_lower <$> JS.chars s).

Definition same_name (a b : string) : bool := String.eqb (lower a) (lower b).

Definition is_tab_or_space (c : ascii) : bool :=
  (JS.code c =? 9)%nat || (JS.code c =? 32)%nat.

Definition is_newline (c : ascii) : bool :=
  (JS.code c =? 10)%nat || (JS.code c =? 13)%nat.

Definition is_http_whitespace (c : ascii) : bool :=
  is_tab_or_space c || is_newline c.

Fixpoint strip_leading (v : list ascii) : list ascii :=
  match v with
  | c :: v' => if is_http_whitespace c then strip_leading v' else v
  | [] => []
  end.

Definition normalize_value (v : string) : string :=
  JS.str (rev (strip_leading (rev (strip_leading (JS.chars v))))).

Definition is_header_value (v : string) : bool :=
  negb (from_option is_tab_or_space false (head (JS.chars v)))
  && negb (from_option is_tab_or_space false (last (JS.chars v)))
  && forallb (fun c => negb ((JS.code c =? 0)%nat || is_newline c)) (JS.chars v).

Definition is_token_char (c : ascii) : bool :=
  JS.is_lower c || JS.is_upper c || JS.is_digit c
  || existsb (Ascii.eqb c) (JS.chars "!#$%&'*+-.^_`|~").

Definition is_header_name (n : string) : bool :=
  JS.truthy n && forallb is_token_char (JS.chars n).

(** [headers.get(name)]: the values of the headers of that name, joined. *)
Definition header (name : string) (r : Response) : option string :=
  match List.filter (fun h => same_name (fst h) name) (headers r) with
  | [] => None
  | h :: hs => Some (foldl (fun acc h' => acc +:+ ", " +:+ snd h') (snd h) hs)
  end.

(** Appending to a header list: a name already in the list is written as
    its first occurrence is. *)
Definition append_header (hs : list (string * string)) (name value : string)
  : list (string * string) :=
  let name :=
    match List.find (fun h => same_name (fst h) name) hs with
    | Some h => fst h
    | None => name
    end in
  hs ++ [(name, value)].

(** The names a response's [Headers] drops without an error. *)
Definition is_forbidden_response_header_name (n : string) : bool :=
  same_name n "Set-Cookie" || same_name n "Set-Cookie2".

(** Filling the [Headers] of a response from the [headers] record of the
    constructor's second argument: a [TypeError] for a name or a normalised
    value that is not valid. *)
Fixpoint fill_headers (hs init : list (string * string))
  : Completion (list (string * string)) :=
  match init with
  | [] => Return hs
  | (name, value) :: init' =>
    let value := normalize_value value in
    if negb (is_header_name name && is_header_value value) then Throw
    else if is_forbidden_response_header_name name then fill_headers hs init'
    else fill_headers (append_header hs name value) init'
  end.

(** The type a body brings with it: text has one, bytes and no body do not. *)
Definition body_type (b : Body) : option string :=
  match b with
  | TextBody _ => Some "text/plain;charset=UTF-8"
  | DataBody _ | NoBody => None
  end.

Definition is_null_body_status (st : Z) : bool :=
  existsb (Z.eqb st) [101; 103; 204; 205; 304]%Z.

(** [new Response(body, { status, headers })]: a [RangeError] for a status
    outside 200..599, a [TypeError] for a header that is not valid or a body
    with a status that allows none; a body with a type adds [Content-Type]
    when the headers have none. *)
Definition new_Response (b : Body) (st : Z) (init : list (string * string))
  : Completion Response :=
  if negb ((200 <=? st)%Z && (st <=? 599)%Z) then Throw
  else
    match fill_headers [] init with
    | Throw => Throw
    | Return hs =>
      match b with
      | NoBody => Return (mkResponse NoBody st hs)
      | _ =>
        if is_null_body_status st then Throw
        else
          match body_type b with
          | Some type =>
            if existsb (fun h => same_name (fst h) "Content-Type") hs
            then Return (mkResponse b st hs)
            else Return (mkResponse b st (append_header hs "Content-Type" type))
          | None => Return (mkResponse b st hs)
          end
      end
    end.

Definition clone (r : Response) : Response := r.

(** The value a resource request is resolved with: [{ body, mime }]. *)
Record Resource : Type := mkResource {
  resource_body : bytes;
  resource_mime : string
}.

(** What a request handler hands to [event.respondWith]. *)
Inductive Outcome : Type :=
| Respond (r : Response)
| NetworkFetch (event : FetchEvent)
| Undefined.

(** Messages posted to a peer, and the data of messages received. *)
Inductive Message : Type :=
| LoadResource (path : string)
| LoadLocalhost (origin : string).

Inductive MessageData : Type :=
| DidLoadResource (path : string) (status : Z) (data : bytes) (mime : string)
| DidLoadLocalhost (origin : string) (location : option string)
| OtherChannel (channel : string).

(** ** The request store *)

Module RequestStore.

(** A promise of the store: its value once fulfilled, and the tasks whose
    [then] reaction waits for it. *)
Record Promise (T : Type) : Type := mkPromise {
  settled : option T;
  reactions : list nat
}.
Arguments mkPromise {T} settled reactions.
Arguments settled {T} _.
Arguments reactions {T} _.

(** The store: [map] from keys to entries. An entry [{ resolve, promise }]
    is the address of its promise in [heap]; [resolve] is that promise's
    resolving function. *)
Record t (T : Type) : Type := mk {
  map : gmap string nat;
  heap : list (Promise T)
}.
Arguments mk {T} map heap.
Arguments map {T} _.
Arguments heap {T} _.

Section Operations.
Context {T : Type}.

(** [new RequestStore()] *)
Definition empty : t T := mk ∅ [].

Definition _key (webviewId path : string) : string :=
  webviewId +:+ "@@@" +:+ path.

Definition get (s : t T) (webviewId path : string) : option nat :=
  map s !! _key webviewId path.

(** [create] returns the promise of the entry. *)
Definition create (s : t T) (webviewId path : string) : nat * t T :=
  match get s webviewId path with
  | Some existing => (existing, s)
  | None =>
    let promise := length (heap s) in
    (promise,
     mk (<[_key webviewId path := promise]> (map s))
        (heap s ++ [mkPromise None []]))
  end.

(** The resolving function of promise [p]: the first call fulfils the
    promise and schedules its reactions; later calls do nothing. *)
Definition Promise_resolve (h : list (Promise T)) (p : nat) (x : T)
  : list (Promise T) * list (nat * T) :=
  match h !! p with
  | Some (mkPromise None rs) =>
    (<[p := mkPromise (Some x) []]> h, (fun tid => (tid, x)) <$> rs)
  | _ => (h, [])
  end.

(** [promise.then(reaction)] for the reaction of task [tid]: scheduled at
    once on a fulfilled promise, registered on a pending one. *)
Definition Promise_then (h : list (Promise T)) (p : nat) (tid : nat)
  : list (Promise T) * list (nat * T) :=
  match h !! p with
  | Some (mkPromise (Some x) _) => (h, [(tid, x)])
  | Some (mkPromise None rs) => (<[p := mkPromise None (rs ++ [tid])]> h, [])
  | None => (h, [])
  end.

(** [resolve] returns its boolean, the store and the reactions to run. *)
Definition resolve (s : t T) (webviewId path : string) (result : T)
  : bool * t T * list (nat * T) :=
  match get s webviewId path with
  | None => (false, s, [])
  | Some entry =>
    let '(h, js) := Promise_resolve (heap s) entry result in
    (true, mk (map s) h, js)
  end.

Definition then_ (s : t T) (p : nat) (tid : nat) : t T * list (nat * T) :=
  let '(h, js) := Promise_then (heap s) p tid in (mk (map s) h, js).

End Operations.
End RequestStore.

(** ** The worker *)

Import JS RegExp.

Definition resourceRoot : string := "/vscode-resource".

(** [new Response('Not Found', { status: 404 })], as constructed when the
    script is loaded. *)
Definition notFoundResponse : Response :=
  mkResponse (TextBody "Not Found") 404 [("Content-Type", "text/plain;charset=UTF-8")].

(** The pattern [/\bid=([a-z0-9-]+)/i]. *)
Definition webviewIdPattern : RegExp :=
  mkRegExp
    (Seq WordBoundary
      (literal (chars "id=")
        (Seq (Group 1
               (Seq (Plus (Class false [("a", "z"); ("0", "9"); ("-", "-")]%char)) Empty))
             Empty)))
    1 true.

(** The pattern [/^localhost:(\d+)$/]. *)
Definition localhostPattern : RegExp :=
  mkRegExp
    (Seq LineStart
      (literal (chars "localhost:")
        (Seq (Group 1 (Seq (Plus Digit) Empty)) (Seq LineEnd Empty))))
    1 false.

(** [s.match(re)] used as a condition. *)
Definition matches (s : string) (re : RegExp) : bool :=
  match exec re s with Some _ => true | None => false end.

(** [getWebviewIdForClient]: element 1 of the match; indexing the [null] of
    a failed match throws. Group 1 takes part in every match of the
    pattern. *)
Definition getWebviewIdForClient (client : Client) : Completion string :=
  match exec webviewIdPattern (search (client_url client)) with
  | None => Throw
  | Some res => Return (str (group_text 1 res))
  end.

(** The [find] of [getOuterIframeClient] over [allClients]; the expression
    is built for each client whose path is the root. *)
Fixpoint find_outer (webviewId : string) (allClients : list Client)
  : Completion (option Client) :=
  match allClients with
  | [] => Return None
  | client :: others =>
    let clientUrl := client_url client in
    if String.eqb (pathname clientUrl) "/" then
      match compile ("\bid=" +:+ webviewId) false with
      | None => Throw
      | Some re =>
        if matches (search clientUrl) re then Return (Some client)
        else find_outer webviewId others
      end
    else find_outer webviewId others
  end.

(** [getOuterIframeClient], given the result of [clients.matchAll]. *)
Definition getOuterIframeClient (allClients : list Client) (webviewId : string)
  : Completion (option Client) :=
  find_outer webviewId allClients.

(** [self.clients.get(id)] *)
Definition clients_get (cs : list Client) (cid : string) : option Client :=
  List.find (fun c => String.eqb (client_id c) cid) cs.

(** [resolveResourceEntry] of [processResourceRequest]. *)
Definition resolveResourceEntry (entry : option Resource) : Completion Response :=
  match entry with
  | None => Return (clone notFoundResponse)
  | Some e =>
    new_Response (DataBody (resource_body e)) 200 [("Content-Type", resource_mime e)]
  end.

(** [resolveRedirect] of [processLocalhostRequest]. *)
Definition resolveRedirect (event : FetchEvent) (redirectOrigin : option string)
  : Completion Outcome :=
  let requestUrl := request_url event in
  match redirectOrigin with
  | None => Return (NetworkFetch event)
  | Some redirectOrigin =>
    if negb (truthy redirectOrigin) then Return (NetworkFetch event)
    else
      match compile ("^" +:+ origin requestUrl +:+ "(/|$)") false with
      | None => Throw
      | Some re =>
        let location := replace (href requestUrl) re (redirectOrigin +:+ "$1") in
        match new_Response NoBody 302 [("Location", location)] with
        | Return r => Return (Respond r)
        | Throw => Throw
        end
      end
  end.

(** What the page gets for the value passed to [event.respondWith]: a value
    that is not a [Response] fails the request with a network error. *)
Inductive Served : Type :=
| ServedResponse (r : Response)
| ServedFromNetwork (event : FetchEvent)
| NetworkError.

Definition respondWith (o : Outcome) : Served :=
  match o with
  | Respond r => ServedResponse r
  | NetworkFetch event => ServedFromNetwork event
  | Undefined => NetworkError
  end.

(** *** Tasks and the state of the worker *)

(** A call of a request handler, suspended at one of its [await]s or at the
    [then] on the promise of a store entry, or finished. *)
Inductive Task : Type :=
| ResourceAwaitClient (event : FetchEvent)
| ResourceAwaitParent (event : FetchEvent) (webviewId resourcePath : string)
| ResourceAwaitEntry (event : FetchEvent) (promise : nat)
| LocalhostAwaitClient (event : FetchEvent)
| LocalhostAwaitParent (event : FetchEvent) (webviewId : string)
| LocalhostAwaitEntry (event : FetchEvent) (promise : nat)
| Fulfilled (o : Outcome)
| Rejected
| NotIntercepted.

(** A promise reaction waiting in the microtask queue. *)
Inductive Job : Type :=
| ResourceJob (tid : nat) (entry : option Resource)
| LocalhostJob (tid : nat) (redirectOrigin : option string).

(** The state of the worker: its origin, the connected peers (the events
    below do not connect or disconnect peers), the two stores, the handler
    calls started so far, the reactions waiting to run, the messages posted
    and the lines written to the console. *)
Record World : Type := mkWorld {
  self_origin : string;
  clients : list Client;
  resourceRequestStore : RequestStore.t (option Resource);
  localhostRequestStore : RequestStore.t (option string);
  tasks : list Task;
  jobs : list Job;
  posted : list (Client * Message);
  console : list (list string)
}.

(** The worker as installed: two empty stores. *)
Definition init (self_origin : string) (clients : list Client) : World :=
  mkWorld self_origin clients RequestStore.empty RequestStore.empty [] [] [] [].

Definition set_task (w : World) (tid : nat) (t : Task) : World :=
  mkWorld (self_origin w) (clients w) (resourceRequestStore w)
          (localhostRequestStore w) (<[tid := t]> (tasks w)) (jobs w)
          (posted w) (console w).

Definition spawn (w : World) (t : Task) : World :=
  mkWorld (self_origin w) (clients w) (resourceRequestStore w)
          (localhostRequestStore w) (tasks w ++ [t]) (jobs w)
          (posted w) (console w).

Definition console_log (w : World) (args : list string) : World :=
  mkWorld (self_origin w) (clients w) (resourceRequestStore w)
          (localhostRequestStore w) (tasks w) (jobs w)
          (posted w) (console w ++ [args]).

Definition postMessage (w : World) (target : Client) (m : Message) : World :=
  mkWorld (self_origin w) (clients w) (resourceRequestStore w)
          (localhostRequestStore w) (tasks w) (jobs w)
          (posted w ++ [(target, m)]) (console w).

Definition set_resource (w : World) (s : RequestStore.t (option Resource))
    (js : list (nat * option Resource)) : World :=
  mkWorld (self_origin w) (clients w) s (localhostRequestStore w) (tasks w)
          (jobs w ++ ((fun j => ResourceJob j.1 j.2) <$> js)) (posted w) (console w).

Definition set_localhost (w : World) (s : RequestStore.t (option string))
    (js : list (nat * option string)) : World :=
  mkWorld (self_origin w) (clients w) (resourceRequestStore w) s (tasks w)
          (jobs w ++ ((fun j => LocalhostJob j.1 j.2) <$> js)) (posted w) (console w).

Definition set_jobs (w : World) (js : list Job) : World :=
  mkWorld (self_origin w) (clients w) (resourceRequestStore w)
          (localhostRequestStore w) (tasks w) js (posted w) (console w).

(** *** The request handlers

    Each [async] handler is cut at its [await]s. The segment that follows
    the last [await] looks the entry up, posts the message and creates the
    entry without suspending. *)

(** [processResourceRequest], resumed with the result of
    [self.clients.get(event.clientId)]. *)
Definition processResourceRequest_client (w : World) (tid : nat) (event : FetchEvent)
  : World :=
  match clients_get (clients w) (clientId event) with
  | None =>
    set_task (console_log w ["Could not find inner client for request"])
             tid (Fulfilled (Respond (clone notFoundResponse)))
  | Some client =>
    match getWebviewIdForClient client with
    | Throw => set_task w tid Rejected
    | Return webviewId =>
      let resourcePath := replace_string (pathname (request_url event)) resourceRoot "" in
      set_task w tid (ResourceAwaitParent event webviewId resourcePath)
    end
  end.

(** [processResourceRequest], resumed with the result of
    [getOuterIframeClient(webviewId)]. *)
Definition processResourceRequest_parent (w : World) (tid : nat) (event : FetchEvent)
    (webviewId resourcePath : string) : World :=
  match getOuterIframeClient (clients w) webviewId with
  | Throw => set_task w tid Rejected
  | Return None =>
    set_task (console_log w ["Could not find parent client for request"])
             tid (Fulfilled (Respond (clone notFoundResponse)))
  | Return (Some parentClient) =>
    match RequestStore.get (resourceRequestStore w) webviewId resourcePath with
    | Some existing =>
      let '(s, js) := RequestStore.then_ (resourceRequestStore w) existing tid in
      set_task (set_resource w s js) tid (ResourceAwaitEntry event existing)
    | None =>
      let w1 := postMessage w parentClient (LoadResource resourcePath) in
      let '(promise, s1) :=
        RequestStore.create (resourceRequestStore w1) webviewId resourcePath in
      let '(s2, js) := RequestStore.then_ s1 promise tid in
      set_task (set_resource w1 s2 js) tid (ResourceAwaitEntry event promise)
    end
  end.

(** [processLocalhostRequest], resumed with the result of
    [self.clients.get(event.clientId)]. *)
Definition processLocalhostRequest_client (w : World) (tid : nat) (event : FetchEvent)
  : World :=
  match clients_get (clients w) (clientId event) with
  | None => set_task w tid (Fulfilled Undefined)
  | Some client =>
    match getWebviewIdForClient client with
    | Throw => set_task w tid Rejected
    | Return webviewId => set_task w tid (LocalhostAwaitParent event webviewId)
    end
  end.

(** [processLocalhostRequest], resumed with the result of
    [getOuterIframeClient(webviewId)]. *)
Definition processLocalhostRequest_parent (w : World) (tid : nat) (event : FetchEvent)
    (webviewId : string) : World :=
  let origin := origin (request_url event) in
  match getOuterIframeClient (clients w) webviewId with
  | Throw => set_task w tid Rejected
  | Return None =>
    set_task (console_log w ["Could not find parent client for request"])
             tid (Fulfilled (Respond (clone notFoundResponse)))
  | Return (Some parentClient) =>
    match RequestStore.get (localhostRequestStore w) webviewId origin with
    | Some existing =>
      let '(s, js) := RequestStore.then_ (localhostRequestStore w) existing tid in
      set_task (set_localhost w s js) tid (LocalhostAwaitEntry event existing)
    | None =>
      let w1 := postMessage w parentClient (LoadLocalhost origin) in
      let '(promise, s1) :=
        RequestStore.create (localhostRequestStore w1) webviewId origin in
      let '(s2, js) := RequestStore.then_ s1 promise tid in
      set_task (set_localhost w1 s2 js) tid (LocalhostAwaitEntry event promise)
    end
  end.

(** A reaction registered by [then]: the handler's task finishes with the
    materialised value. *)
Definition run_job (w : World) (j : Job) : World :=
  match j with
  | ResourceJob tid entry =>
    match tasks w !! tid with
    | Some (ResourceAwaitEntry _ _) =>
      match resolveResourceEntry entry with
      | Return r => set_task w tid (Fulfilled (Respond r))
      | Throw => set_task w tid Rejected
      end
    | _ => w
    end
  | LocalhostJob tid redirectOrigin =>
    match tasks w !! tid with
    | Some (LocalhostAwaitEntry event _) =>
      match resolveRedirect event redirectOrigin with
      | Return o => set_task w tid (Fulfilled o)
      | Throw => set_task w tid Rejected
      end
    | _ => w
    end
  end.

(** *** The listeners *)

(** The [message] listener. *)
Definition message_listener (w : World) (source : Client) (data : MessageData) : World :=
  match data with
  | DidLoadResource path status data mime =>
    match getWebviewIdForClient source with
    | Throw => w
    | Return webviewId =>
      let response :=
        if (status =? 200)%Z then Some (mkResource data mime) else None in
      let '(ok, s, js) :=
        RequestStore.resolve (resourceRequestStore w) webviewId path response in
      if ok then set_resource w s js
      else console_log (set_resource w s js) ["Could not resolve unknown resource"; path]
    end
  | DidLoadLocalhost origin location =>
    match getWebviewIdForClient source with
    | Throw => w
    | Return webviewId =>
      let '(ok, s, js) :=
        RequestStore.resolve (localhostRequestStore w) webviewId origin location in
      if ok then set_localhost w s js
      else console_log (set_localhost w s js) ["Could not resolve unknown localhost"; origin]
    end
  | OtherChannel _ => console_log w ["Unknown message"]
  end.

(** The [fetch] listener: the handler it starts runs up to its first
    [await]. *)
Definition fetch_listener (w : World) (event : FetchEvent) : World :=
  let requestUrl := request_url event in
  if String.eqb (origin requestUrl) (self_origin w)
     && startsWith (pathname requestUrl) (resourceRoot +:+ "/")
  then spawn w (ResourceAwaitClient event)
  else if negb (String.eqb (origin requestUrl) (self_origin w))
          && matches (host requestUrl) localhostPattern
  then spawn w (LocalhostAwaitClient event)
  else spawn w NotIntercepted.

(** *** The event loop

    A [fetch] or [message] event runs its listener; [Resume] continues a
    handler at the [await] it is suspended at; [Microtask] runs the oldest
    waiting reaction. A schedule is any list of such events. *)

Inductive Event : Type :=
| Fetch (event : FetchEvent)
| MessageFrom (source : Client) (data : MessageData)
| Resume (tid : nat)
| Microtask.

Definition step (w : World) (e : Event) : World :=
  match e with
  | Fetch event => fetch_listener w event
  | MessageFrom source data => message_listener w source data
  | Resume tid =>
    match tasks w !! tid with
    | Some (ResourceAwaitClient event) => processResourceRequest_client w tid event
    | Some (ResourceAwaitParent event webviewId resourcePath) =>
      processResourceRequest_parent w tid event webviewId resourcePath
    | Some (LocalhostAwaitClient event) => processLocalhostRequest_client w tid event
    | Some (LocalhostAwaitParent event webviewId) =>
      processLocalhostRequest_parent w tid event webviewId
    | _ => w
    end
  | Microtask =>
    match jobs w with
    | j :: js => run_job (set_jobs w js) j
    | [] => w
    end
  end.

Definition run (w : World) (es : list Event) : World := foldl step w es.

(** Run the reactions that are waiting. *)
Definition drain (w : World) : World :=
  run w (replicate (length (jobs w)) Microtask).

(** *** A session

    One inner page and its controller, both of session [s1], a request of
    the page for an image under the resource root, and a request of the page
    to a local server. *)

Definition inner_page : Client :=
  mkClient "page-1"
    (mkURL "https://webview.test/webview/index.html?id=s1"
           "https://webview.test" "webview.test" "/webview/index.html" "?id=s1" "").

Definition controller : Client :=
  mkClient "outer-1"
    (mkURL "https://webview.test/?id=s1" "https://webview.test" "webview.test" "/"
           "?id=s1" "").

Definition image_request : FetchEvent :=
  mkFetchEvent
    (mkURL "https://webview.test/vscode-resource/img.png"
           "https://webview.test" "webview.test" "/vscode-resource/img.png" "" "")
    "page-1".

Definition page_request : FetchEvent :=
  mkFetchEvent
    (mkURL "http://localhost:8080/app/page?x=1"
           "http://localhost:8080" "localhost:8080" "/app/page" "?x=1" "")
    "page-1".

Definition worker : World := init "https://webview.test" [inner_page; controller].


(** The controller of another session, [s12]. *)
Definition other_controller : Client :=
  mkClient "outer-2"
    (mkURL "https://webview.test/?id=s12" "https://webview.test" "webview.test" "/"
           "?id=s12" "").

Definition png : bytes := [Byte.x89; Byte.x50; Byte.x4e; Byte.x47].

(** *** Histories of a store *)

(** The operations the worker performs on a store. *)
Inductive StoreOp (T : Type) : Type :=
| OpCreate (webviewId path : string)
| OpResolve (webviewId path : string) (result : T)
| OpThen (promise : nat) (tid : nat).
Arguments OpCreate {T} webviewId path.
Arguments OpResolve {T} webviewId path result.
Arguments OpThen {T} promise tid.

Definition apply_op {T : Type} (s : RequestStore.t T) (op : StoreOp T) : RequestStore.t T :=
  match op with
  | OpCreate webviewId path => (RequestStore.create s webviewId path).2
  | OpResolve webviewId path result => (RequestStore.resolve s webviewId path result).1.2
  | OpThen promise tid => (RequestStore.then_ s promise tid).1
  end.

(** The store after a history of operations on a new store. *)
Definition store_after {T : Type} (ops : list (StoreOp T)) : RequestStore.t T :=
  foldl apply_op RequestStore.empty ops.

(** Every entry has a promise of the heap, and no two keys share one. *)
Definition store_wf {T : Type} (s : RequestStore.t T) : Prop :=
  (∀ k p, RequestStore.map s !! k = Some p → p < length (RequestStore.heap s))
  ∧ (∀ k1 k2 p, RequestStore.map s !! k1 = Some p →
                RequestStore.map s !! k2 = Some p → k1 = k2).

(** *** Notions used by the properties *)

(** What a reaction of the resource store does to the task it belongs to. *)
Definition deliver (v : option Resource) (t : Task) : Task :=
  match t with
  | ResourceAwaitEntry _ _ =>
    match resolveResourceEntry v with
    | Return r => Fulfilled (Respond r)
    | Throw => Rejected
    end
  | _ => t
  end.

(** The parts of the worker a reaction leaves alone. *)
Definition same_but_tasks (w w' : World) : Prop :=
  self_origin w' = self_origin w ∧ clients w' = clients w
  ∧ resourceRequestStore w' = resourceRequestStore w
  ∧ localhostRequestStore w' = localhostRequestStore w
  ∧ posted w' = posted w ∧ console w' = console w
  ∧ length (tasks w') = length (tasks w).

(** A text that does not start with a quantifier leaves an atom as it is. *)
Definition unquantified (s : list ascii) : Prop :=
  match s with
  | [] => True
  | c :: _ =>
    match syntax_class c with
    | TStar | TPlus | TQuestion | TLBrace => False
    | _ => True
    end
  end.


(** The pattern [new RegExp('\\bid=' + webviewId)] of [getOuterIframeClient]. *)
Definition outerPattern (webviewId : string) : RegExp :=
  mkRegExp (Seq WordBoundary (literal (chars ("id=" +:+ webviewId)) Empty)) 0 false.


(** *** Notions used by the properties of the peer helpers *)

(** The characters of a session identifier: letters, digits and the hyphen,
    the class [[a-z0-9-]] under the [i] flag. *)
Definition is_id_char (c : ascii) : bool :=
  is_lower c || is_upper c || is_digit c || Ascii.eqb c "-"%char.

(** The state [st'] is [st] after the attempt has consumed [l]. *)
Definition advanced (st : MState) (l : list ascii) (st' : MState) : Prop :=
  pre st' = pre st ∧ caps st' = caps st
  ∧ taken st' = rev l ++ taken st ∧ rest st = l ++ rest st'.

(** The condition of the [find] of [getOuterIframeClient], for a session
    identifier without pattern syntax. *)
Definition is_outer_client (webviewId : string) (client : Client) : bool :=
  String.eqb (pathname (client_url client)) "/"
  && matches (search (client_url client)) (outerPattern webviewId).

(** A handler call that has finished: its promise is settled, or the
    listener did not call [respondWith]. *)
Definition finished (t : Task) : bool :=
  match t with
  | Fulfilled _ | Rejected | NotIntercepted => true
  | _ => false
  end.

Definition is_message (e : Event) : bool :=
  match e with MessageFrom _ _ => true | _ => false end.

(** No promise of the store is fulfilled. *)
Definition all_pending {T : Type} (s : RequestStore.t T) : Prop :=
  ∀ p pr, RequestStore.heap s !! p = Some pr → RequestStore.settled pr = None.


(** *** Concurrent requests for one key *)

(** The request [event] is handled by the resource flow and its key is
    [(webviewId, path)], for the clients connected in [w]. *)
Definition requests_key (w : World) (webviewId path : string) (event : FetchEvent)
  : bool :=
  String.eqb (origin (request_url event)) (self_origin w)
  && startsWith (pathname (request_url event)) (resourceRoot +:+ "/")
  && match clients_get (clients w) (clientId event) with
     | Some client =>
       match getWebviewIdForClient client with
       | Return id => String.eqb id webviewId
       | Throw => false
       end
     | None => false
     end
  && String.eqb (replace_string (pathname (request_url event)) resourceRoot "") path.

(** An event of a schedule in which requests for one key arrive and their
    handlers are resumed in any order. *)
Definition concurrent_request (w : World) (webviewId path : string) (e : Event)
  : bool :=
  match e with
  | Fetch event => requests_key w webviewId path event
  | Resume _ | Microtask => true
  | MessageFrom _ _ => false
  end.

Definition is_fetch (e : Event) : bool :=
  match e with Fetch _ => true | _ => false end.

Definition awaits_entry (t : Task) : bool :=
  match t with ResourceAwaitEntry _ _ => true | _ => false end.

(** The program points of a handler of the resource flow working on the key
    [(webviewId, path)], the last one on the entry [p]. *)
Definition at_key (webviewId path : string) (p : nat) (t : Task) : Prop :=
  ∃ event, t = ResourceAwaitClient event
           ∨ t = ResourceAwaitParent event webviewId path
           ∨ t = ResourceAwaitEntry event p.

(** What holds of a task while requests for the key are in flight. *)
Definition task_ok (w0 : World) (webviewId path : string) (p0 : nat) (t : Task) : Prop :=
  match t with
  | ResourceAwaitClient event => requests_key w0 webviewId path event = true
  | ResourceAwaitParent event id pth => id = webviewId ∧ pth = path
  | ResourceAwaitEntry event p => p = p0
  | _ => False
  end.

(** The store of [w0] with the entry of the key added, [rs] waiting on it. *)
Definition store_created (w0 : World) (webviewId path : string) (rs : list nat)
  : RequestStore.t (option Resource) :=
  let store0 := resourceRequestStore w0 in
  RequestStore.mk
    (<[RequestStore._key webviewId path := length (RequestStore.heap store0)]>
       (RequestStore.map store0))
    (RequestStore.heap store0 ++ [RequestStore.mkPromise None rs]).

(** The invariant of such a schedule started in [w0]: either no handler has
    reached the store, which is then as in [w0] and nothing has been posted;
    or the entry has been created once, one message has been posted, and the
    tasks waiting on the entry are exactly its observers. *)
Definition dedup_inv (w0 : World) (webviewId path : string) (parent : Client)
    (w : World) : Prop :=
  let p0 := length (RequestStore.heap (resourceRequestStore w0)) in
  self_origin w = self_origin w0 ∧ clients w = clients w0 ∧ jobs w = []
  ∧ Forall (task_ok w0 webviewId path p0) (tasks w)
  ∧ ((resourceRequestStore w = resourceRequestStore w0 ∧ posted w = posted w0
      ∧ Forall (fun t => awaits_entry t = false) (tasks w))
     ∨ (∃ rs, rs ≠ []
          ∧ resourceRequestStore w = store_created w0 webviewId path rs
          ∧ posted w = posted w0 ++ [(parent, LoadResource path)]
          ∧ ∀ tid, tid ∈ rs ↔ ∃ event, tasks w !! tid = Some (ResourceAwaitEntry event p0))).

(** *** Concurrent requests to one local origin *)

(** What a reaction of the localhost store does to the task it belongs to. *)
Definition deliver_redirect (v : option string) (t : Task) : Task :=
  match t with
  | LocalhostAwaitEntry event _ =>
    match resolveRedirect event v with
    | Return o => Fulfilled o
    | Throw => Rejected
    end
  | _ => t
  end.

(** The request [event] is handled by the localhost flow and its key is
    [(webviewId, origin0)], for the clients connected in [w]. *)
Definition requests_origin (w : World) (webviewId origin0 : string) (event : FetchEvent)
  : bool :=
  negb (String.eqb (origin (request_url event)) (self_origin w))
  && matches (host (request_url event)) localhostPattern
  && match clients_get (clients w) (clientId event) with
     | Some client =>
       match getWebviewIdForClient client with
       | Return id => String.eqb id webviewId
       | Throw => false
       end
     | None => false
     end
  && String.eqb (origin (request_url event)) origin0.

Definition concurrent_localhost_request (w : World) (webviewId origin0 : string)
    (e : Event) : bool :=
  match e with
  | Fetch event => requests_origin w webviewId origin0 event
  | Resume _ | Microtask => true
  | MessageFrom _ _ => false
  end.

Definition awaits_localhost_entry (t : Task) : bool :=
  match t with LocalhostAwaitEntry _ _ => true | _ => false end.

(** The program points of a handler of the localhost flow working on the
    key [(webviewId, origin0)], the last one on the entry [p]. *)
Definition at_origin (webviewId origin0 : string) (p : nat) (t : Task) : Prop :=
  ∃ event, origin (request_url event) = origin0
           ∧ (t = LocalhostAwaitClient event
              ∨ t = LocalhostAwaitParent event webviewId
              ∨ t = LocalhostAwaitEntry event p).

Definition localhost_task_ok (w0 : World) (webviewId origin0 : string) (p0 : nat)
    (t : Task) : Prop :=
  match t with
  | LocalhostAwaitClient event => requests_origin w0 webviewId origin0 event = true
  | LocalhostAwaitParent event id =>
    id = webviewId ∧ origin (request_url event) = origin0
  | LocalhostAwaitEntry event p =>
    p = p0 ∧ origin (request_url event) = origin0
  | _ => False
  end.

Definition localhost_store_created (w0 : World) (webviewId origin0 : string)
    (rs : list nat) : RequestStore.t (option string) :=
  let store0 := localhostRequestStore w0 in
  RequestStore.mk
    (<[RequestStore._key webviewId origin0 := length (RequestStore.heap store0)]>
       (RequestStore.map store0))
    (RequestStore.heap store0 ++ [RequestStore.mkPromise None rs]).

Definition localhost_dedup_inv (w0 : World) (webviewId origin0 : string)
    (parent : Client) (w : World) : Prop :=
  let p0 := length (RequestStore.heap (localhostRequestStore w0)) in
  self_origin w = self_origin w0 ∧ clients w = clients w0 ∧ jobs w = []
  ∧ Forall (localhost_task_ok w0 webviewId origin0 p0) (tasks w)
  ∧ ((localhostRequestStore w = localhostRequestStore w0 ∧ posted w = posted w0
      ∧ Forall (fun t => awaits_localhost_entry t = false) (tasks w))
     ∨ (∃ rs, rs ≠ []
          ∧ localhostRequestStore w = localhost_store_created w0 webviewId origin0 rs
          ∧ posted w = posted w0 ++ [(parent, LoadLocalhost origin0)]
          ∧ ∀ tid, tid ∈ rs ↔ ∃ event, tasks w !! tid = Some (LocalhostAwaitEntry event p0))).

(** ** Properties of the request store *)

Section StoreFacts.
Context {T : Type}.
Implicit Types (s : RequestStore.t T) (h : list (RequestStore.Promise T)).

Lemma Promise_resolve_length h p x :
  length (RequestStore.Promise_resolve h p x).1 = length h.
Proof.
  unfold RequestStore.Promise_resolve.
  destruct (h !! p) as [[[v|] rs]|]; simpl; auto using length_insert.
Qed.

Lemma Promise_then_length h p tid :
  length (RequestStore.Promise_then h p tid).1 = length h.
Proof.
  unfold RequestStore.Promise_then.
  destruct (h !! p) as [[[v|] rs]|]; simpl; auto using length_insert.
Qed.

Lemma Promise_resolve_other h p q x :
  p ≠ q → (RequestStore.Promise_resolve h p x).1 !! q = h !! q.
Proof.
  intros Hne. unfold RequestStore.Promise_resolve.
  destruct (h !! p) as [[[v|] rs]|]; simpl; auto using list_lookup_insert_ne.
Qed.

Lemma resolve_map s webviewId path x :
  RequestStore.map (RequestStore.resolve s webviewId path x).1.2 = RequestStore.map s.
Proof.
  unfold RequestStore.resolve.
  destruct (RequestStore.get s webviewId path); [|done].
  by destruct (RequestStore.Promise_resolve (RequestStore.heap s) n x).
Qed.

Lemma resolve_heap s webviewId path x p :
  RequestStore.get s webviewId path = Some p →
  RequestStore.heap (RequestStore.resolve s webviewId path x).1.2
  = (RequestStore.Promise_resolve (RequestStore.heap s) p x).1.
Proof.
  intros Hg. unfold RequestStore.resolve. rewrite Hg.
  by destruct (RequestStore.Promise_resolve (RequestStore.heap s) p x).
Qed.

Lemma store_wf_empty : store_wf (@RequestStore.empty T).
Proof. split; intros *; simpl; by rewrite lookup_empty. Qed.

Lemma store_wf_create s webviewId path :
  store_wf s → store_wf (RequestStore.create s webviewId path).2.
Proof.
  intros [Hlt Hinj]. unfold RequestStore.create.
  destruct (RequestStore.get s webviewId path) as [e|] eqn:Hg; [done|].
  split; simpl.
  - intros k p. rewrite length_app. simpl.
    destruct (decide (RequestStore._key webviewId path = k)) as [->|Hne].
    + rewrite lookup_insert_eq. intros [= <-]. lia.
    + rewrite lookup_insert_ne by done. intros Hk%Hlt. lia.
  - intros k1 k2 p.
    rewrite !lookup_insert.
    repeat case_decide; subst; try done.
    + intros [= <-] Hk%Hlt. lia.
    + intros Hk%Hlt [= <-]. lia.
    + apply Hinj.
Qed.

Lemma store_wf_resolve s webviewId path x :
  store_wf s → store_wf (RequestStore.resolve s webviewId path x).1.2.
Proof.
  intros [Hlt Hinj]. unfold RequestStore.resolve.
  destruct (RequestStore.get s webviewId path) as [e|]; [|done].
  pose proof (Promise_resolve_length (RequestStore.heap s) e x) as Hlen.
  destruct (RequestStore.Promise_resolve (RequestStore.heap s) e x) as [h js].
  simpl in *. split; simpl; [|done]. intros k p Hk. rewrite Hlen. eauto.
Qed.

Lemma store_wf_then s p tid :
  store_wf s → store_wf (RequestStore.then_ s p tid).1.
Proof.
  intros [Hlt Hinj]. unfold RequestStore.then_.
  pose proof (Promise_then_length (RequestStore.heap s) p tid) as Hlen.
  destruct (RequestStore.Promise_then (RequestStore.heap s) p tid) as [h js].
  simpl in *. split; simpl; [|done]. intros k q Hk. rewrite Hlen. eauto.
Qed.

Lemma store_wf_foldl (ops : list (StoreOp T)) s :
  store_wf s → store_wf (foldl apply_op s ops).
Proof.
  revert s. induction ops as [|op ops IH]; intros s Hs; [done|].
  simpl. apply IH. destruct op; simpl;
    auto using store_wf_create, store_wf_resolve, store_wf_then.
Qed.

Lemma store_after_wf (ops : list (StoreOp T)) : store_wf (store_after ops).
Proof. apply store_wf_foldl, store_wf_empty. Qed.

End StoreFacts.

(** The key of a path determines the session. *)
Lemma string_app_inv_tail (a b c : string) : a +:+ c = b +:+ c → a = b.
Proof.
  intros H.
  assert (Hl : ∀ x y, list_ascii_of_string (x +:+ y)
                      = list_ascii_of_string x ++ list_ascii_of_string y).
  { induction x as [|ch x IH]; intros y; simpl; [done|]. by rewrite IH. }
  apply (f_equal list_ascii_of_string) in H. rewrite !Hl in H.
  apply app_inv_tail in H.
  rewrite <- (string_of_list_ascii_of_string a), <- (string_of_list_ascii_of_string b).
  by rewrite H.
Qed.

Lemma key_session_inj (s1 s2 path : string) :
  RequestStore._key s1 path = RequestStore._key s2 path → s1 = s2.
Proof. unfold RequestStore._key. apply string_app_inv_tail. Qed.

Lemma set_resource_nil (w : World) : set_resource w (resourceRequestStore w) [] = w.
Proof. destruct w. unfold set_resource. simpl. by rewrite app_nil_r. Qed.

Lemma set_localhost_nil (w : World) : set_localhost w (localhostRequestStore w) [] = w.
Proof. destruct w. unfold set_localhost. simpl. by rewrite app_nil_r. Qed.

Lemma resolve_without_entry (T : Type) (s : RequestStore.t T)
    (webviewId path : string) (V : T) :
  RequestStore.get s webviewId path = None →
  RequestStore.resolve s webviewId path V = (false, s, []).
Proof. intros Hg. unfold RequestStore.resolve. by rewrite Hg. Qed.

(** In the [did-load-localhost] channel too, a value for a key without
    entry is dropped and only the console line is written. *)
Lemma orphan_localhost_message (w : World) (source : Client)
    (webviewId origin : string) (location : option string) :
  getWebviewIdForClient source = Return webviewId →
  RequestStore.get (localhostRequestStore w) webviewId origin = None →
  message_listener w source (DidLoadLocalhost origin location)
  = console_log w ["Could not resolve unknown localhost"; origin].
Proof.
  intros Hid Hg. unfold message_listener.
  rewrite Hid, (resolve_without_entry _ _ _ _ _ Hg). by rewrite set_localhost_nil.
Qed.

Lemma orphan_resource_message (w : World) (source : Client)
    (webviewId path : string) (status : Z) (data : bytes) (mime : string) :
  getWebviewIdForClient source = Return webviewId →
  RequestStore.get (resourceRequestStore w) webviewId path = None →
  message_listener w source (DidLoadResource path status data mime)
  = console_log w ["Could not resolve unknown resource"; path].
Proof.
  intros Hid Hg. unfold message_listener.
  rewrite Hid, (resolve_without_entry _ _ _ _ _ Hg). by rewrite set_resource_nil.
Qed.

(** C8: [resolve] for a key without entry returns [false], completes
    normally and leaves the store as it was; in the [message] listener the
    value is dropped and the only effect is the line written to the
    console. *)
Theorem orphan_resolve_is_safe (w : World) (source : Client)
    (webviewId path : string) (V : option Resource)
    (status : Z) (data : bytes) (mime : string) :
  getWebviewIdForClient source = Return webviewId →
  RequestStore.get (resourceRequestStore w) webviewId path = None →
  RequestStore.resolve (resourceRequestStore w) webviewId path V
  = (false, resourceRequestStore w, [])
  ∧ message_listener w source (DidLoadResource path status data mime)
    = console_log w ["Could not resolve unknown resource"; path].
Proof.
  intros Hid Hg. split; [by apply resolve_without_entry|].
  by apply (orphan_resource_message _ _ webviewId).
Qed.

Lemma orphan_resolve_is_safe_witness :
  getWebviewIdForClient controller = Return "s1"
  ∧ RequestStore.get (resourceRequestStore worker) "s1" "/img.png" = None
  ∧ RequestStore.resolve (resourceRequestStore worker) "s1" "/img.png" None
    = (false, resourceRequestStore worker, [])
  ∧ message_listener worker controller (DidLoadResource "/img.png" 200 png "image/png")
    = console_log worker ["Could not resolve unknown resource"; "/img.png"].
Proof.
  split; [reflexivity|]. split; [reflexivity|].
  apply (orphan_resolve_is_safe worker controller "s1" "/img.png"); reflexivity.
Defined.

(** C10: once [resolve] has returned [true] for a key, a later [resolve]
    for that key returns [true] and changes nothing and schedules nothing.
    When the first call found the promise pending, the observers registered
    before it are scheduled with its value, and an observer attached after
    either call is scheduled with that same value. *)
Theorem first_resolve_wins (T : Type) (s s1 : RequestStore.t T)
    (webviewId path : string) (V1 V2 : T) (js1 : list (nat * T)) :
  RequestStore.resolve s webviewId path V1 = (true, s1, js1) →
  RequestStore.resolve s1 webviewId path V2 = (true, s1, [])
  ∧ ∀ p observers,
      RequestStore.get s webviewId path = Some p →
      RequestStore.heap s !! p = Some (RequestStore.mkPromise None observers) →
      js1 = (fun tid => (tid, V1)) <$> observers
      ∧ (RequestStore.heap s1 !! p = Some (RequestStore.mkPromise (Some V1) []))
      ∧ ∀ tid, RequestStore.then_ s1 p tid = (s1, [(tid, V1)]).
Proof.
  unfold RequestStore.resolve at 1.
  destruct (RequestStore.get s webviewId path) as [p|] eqn:Hg; [|done].
  unfold RequestStore.Promise_resolve.
  destruct (RequestStore.heap s !! p) as [[[v|] rs]|] eqn:Hp; intros [= <- <-].
  - split; [|intros ? ? [= <-]; congruence].
    unfold RequestStore.resolve, RequestStore.get in *. simpl. rewrite Hg.
    unfold RequestStore.Promise_resolve. rewrite Hp. by destruct s.
  - assert (Hlt : p < length (RequestStore.heap s)) by (by eapply lookup_lt_Some).
    split.
    + unfold RequestStore.resolve, RequestStore.get in *. simpl. rewrite Hg.
      unfold RequestStore.Promise_resolve.
      by rewrite list_lookup_insert_eq.
    + intros p' observers [= <-] Hobs. rewrite Hp in Hobs.
      injection Hobs as <-. simpl.
      rewrite list_lookup_insert_eq by done. split; [done|]. split; [done|].
      intros tid. unfold RequestStore.then_, RequestStore.Promise_then. simpl.
      by rewrite list_lookup_insert_eq.
  - split; [|intros ? ? [= <-]; congruence].
    unfold RequestStore.resolve, RequestStore.get in *. simpl. rewrite Hg.
    unfold RequestStore.Promise_resolve. rewrite Hp. by destruct s.
Qed.

Lemma first_resolve_wins_witness :
  let s := store_after [OpCreate "s1" "/img.png"; OpThen 0 7] in
  let s1 := store_after [OpCreate "s1" "/img.png"; OpThen 0 7;
                         OpResolve "s1" "/img.png" (Some 1)] in
  RequestStore.resolve s "s1" "/img.png" (Some 1) = (true, s1, [(7, Some 1)])
  ∧ RequestStore.resolve s1 "s1" "/img.png" (Some 2) = (true, s1, [])
  ∧ RequestStore.heap s1 !! 0 = Some (RequestStore.mkPromise (Some (Some 1)) [])
  ∧ RequestStore.then_ s1 0 8 = (s1, [(8, Some 1)]).
Proof.
  intros s s1.
  assert (H1 : RequestStore.resolve s "s1" "/img.png" (Some 1) = (true, s1, [(7, Some 1)]))
    by reflexivity.
  split; [exact H1|].
  destruct (first_resolve_wins _ s s1 "s1" "/img.png" (Some 1) (Some 2) _ H1)
    as [H2 H3].
  split; [exact H2|].
  destruct (H3 0 [7] eq_refl eq_refl) as (_ & H4 & H5).
  split; [exact H4 | exact (H5 8)].
Defined.

(** C7: in a store reached by any history of operations, the entries of
    one path in two different sessions are different promises, and
    resolving the entry of one session changes neither the entry of the
    other session nor any entry under another key: the key still maps to
    the same promise and the promise is as it was. *)
Theorem session_isolation (T : Type) (ops : list (StoreOp T))
    (s1 s2 p : string) (V : T) :
  s1 ≠ s2 →
  let s := store_after ops in
  let s' := (RequestStore.resolve s s1 p V).1.2 in
  (∀ e1 e2, RequestStore.get s s1 p = Some e1 →
            RequestStore.get s s2 p = Some e2 → e1 ≠ e2)
  ∧ RequestStore.get s' s2 p = RequestStore.get s s2 p
  ∧ (∀ e2, RequestStore.get s s2 p = Some e2 →
           RequestStore.heap s' !! e2 = RequestStore.heap s !! e2)
  ∧ (∀ k e, k ≠ RequestStore._key s1 p →
            RequestStore.map s !! k = Some e →
            RequestStore.map s' !! k = Some e
            ∧ RequestStore.heap s' !! e = RequestStore.heap s !! e).
Proof.
  intros Hne s s'.
  destruct (store_after_wf ops) as [Hlt Hinj]. fold s in Hlt, Hinj.
  assert (Hkey : RequestStore._key s2 p ≠ RequestStore._key s1 p).
  { intros Hk. apply Hne. symmetry. by eapply key_session_inj. }
  assert (Hother : ∀ k e, k ≠ RequestStore._key s1 p →
            RequestStore.map s !! k = Some e →
            RequestStore.map s' !! k = Some e
            ∧ RequestStore.heap s' !! e = RequestStore.heap s !! e).
  { intros k e Hk He. subst s'. rewrite resolve_map. split; [done|].
    destruct (RequestStore.get s s1 p) as [e1|] eqn:Hg.
    - rewrite (resolve_heap _ _ _ _ _ Hg). apply Promise_resolve_other.
      intros ->. apply Hk. by eapply Hinj.
    - unfold RequestStore.resolve. by rewrite Hg. }
  split; [|split; [|split]].
  - intros e1 e2 H1 H2 ->. apply Hkey. by eapply Hinj.
  - unfold RequestStore.get. subst s'. by rewrite resolve_map.
  - intros e2 H2. by apply (Hother _ _ Hkey H2).
  - exact Hother.
Qed.

Lemma session_isolation_witness :
  "s1" ≠ "s2"
  ∧ let s := store_after [OpCreate "s1" "/img.png"; OpCreate "s2" "/img.png";
                          OpThen 1 4] in
    let s' := (RequestStore.resolve s "s1" "/img.png" (Some 1)).1.2 in
    RequestStore.get s "s1" "/img.png" = Some 0
    ∧ RequestStore.get s' "s2" "/img.png" = Some 1
    ∧ RequestStore.heap s' !! 1 = Some (RequestStore.mkPromise None [4]).
Proof.
  assert (Hne : "s1" ≠ "s2") by done.
  split; [exact Hne|]. intros s s'.
  destruct (session_isolation _
              [OpCreate "s1" "/img.png"; OpCreate "s2" "/img.png"; OpThen 1 4]
              "s1" "s2" "/img.png" (Some 1) Hne) as (_ & H2 & H3 & _).
  split; [reflexivity|]. split.
  - etrans; [exact H2|reflexivity].
  - etrans; [exact (H3 1 eq_refl)|reflexivity].
Defined.

(** ** Responses and their headers *)

Lemma strip_leading_keep (l : list ascii) :
  from_option is_http_whitespace false (head l) = false → strip_leading l = l.
Proof. destruct l as [|c l]; simpl; [done|]. by intros ->. Qed.

Lemma head_rev {A : Type} (l : list A) : head (rev l) = last l.
Proof.
  induction l as [|x l IH]; [done|]. simpl.
  destruct l as [|y l]; [done|]. simpl in *.
  destruct (rev l ++ [y]) as [|z q] eqn:Hq; [by destruct (rev l)|].
  simpl in *. exact IH.
Qed.

(** A header value is what normalisation leaves as it is. *)
Lemma normalize_header_value (v : string) :
  is_header_value v = true → normalize_value v = v.
Proof.
  unfold is_header_value, normalize_value.
  intros [[Hh Hl]%andb_prop Hall]%andb_prop.
  apply negb_true_iff in Hh, Hl.
  assert (Hnl : ∀ c, c ∈ JS.chars v → is_newline c = false).
  { intros c Hc%list_elem_of_In.
    pose proof (proj1 (forallb_forall _ _) Hall c Hc) as H.
    apply negb_true_iff, orb_false_iff in H. by destruct H. }
  rewrite (strip_leading_keep (JS.chars v)).
  2:{ destruct (head (JS.chars v)) as [c|] eqn:Hc; [|done]. simpl in *.
      unfold is_http_whitespace. rewrite Hh. simpl.
      by apply Hnl, head_Some_elem_of. }
  rewrite (strip_leading_keep (rev (JS.chars v))).
  2:{ rewrite head_rev.
      destruct (last (JS.chars v)) as [c|] eqn:Hc; [|done]. simpl in *.
      unfold is_http_whitespace. rewrite Hl. simpl.
      by apply Hnl, last_Some_elem_of. }
  rewrite rev_involutive. apply string_of_list_ascii_of_string.
Qed.

(** The two constructor calls of the handlers: the header is kept, with its
    value normalised, when that is a header value; otherwise the call
    throws. *)
Lemma new_Response_content_type (b : bytes) (m : string) :
  new_Response (DataBody b) 200 [("Content-Type", m)]
  = if is_header_value (normalize_value m)
    then Return (mkResponse (DataBody b) 200 [("Content-Type", normalize_value m)])
    else Throw.
Proof.
  unfold new_Response. change ((200 <=? 200)%Z && (200 <=? 599)%Z) with true.
  cbn [negb fill_headers]. change (is_header_name "Content-Type") with true.
  cbn [andb]. destruct (is_header_value (normalize_value m)); [|done].
  reflexivity.
Qed.


Lemma notFoundResponse_constructed :
  new_Response (TextBody "Not Found") 404 [] = Return notFoundResponse.
Proof. reflexivity. Qed.

Lemma resolveResourceEntry_valid (b : bytes) (m : string) :
  is_header_value m = true →
  resolveResourceEntry (Some (mkResource b m))
  = Return (mkResponse (DataBody b) 200 [("Content-Type", m)]).
Proof.
  intros Hm. unfold resolveResourceEntry. cbn [resource_body resource_mime].
  by rewrite new_Response_content_type, (normalize_header_value m Hm), Hm.
Qed.

(** The content type of the response is the resolved [mime] exactly when
    [mime] is a header value. *)
Lemma resolveResourceEntry_keeps_mime (b : bytes) (m : string) :
  (∃ r, resolveResourceEntry (Some (mkResource b m)) = Return r
        ∧ header "Content-Type" r = Some m)
  ↔ is_header_value m = true.
Proof.
  split.
  - intros (r & Hr & Hh). unfold resolveResourceEntry in Hr.
    cbn [resource_body resource_mime] in Hr.
    rewrite new_Response_content_type in Hr.
    destruct (is_header_value (normalize_value m)) eqn:Hv; [|done].
    injection Hr as <-.
    change (Some (normalize_value m) = Some m) in Hh.
    injection Hh as Hn. by rewrite Hn in Hv.
  - intros Hm. eexists. split; [by apply resolveResourceEntry_valid|done].
Qed.

(** ** Materialising a resolved value *)

(** C4 (as the worker behaves): a resolved [{ body, mime }] whose [mime] is
    a header value (no tab or space at its ends, no NUL, LF or CR) becomes a
    response with status 200, that body and that content type; [undefined]
    becomes the 404 response, whatever body and type. These are the
    responses a request waiting on the entry is answered with when its
    reaction runs. *)
Theorem resource_materialization (b : bytes) (m : string)
    (w : World) (tid : nat) (event : FetchEvent) (p : nat) :
  tasks w !! tid = Some (ResourceAwaitEntry event p) →
  is_header_value m = true →
  (∃ r, resolveResourceEntry (Some (mkResource b m)) = Return r
        ∧ status r = 200%Z ∧ body r = DataBody b
        ∧ header "Content-Type" r = Some m)
  ∧ resolveResourceEntry None = Return notFoundResponse
  ∧ status notFoundResponse = 404%Z
  ∧ tasks (run_job w (ResourceJob tid (Some (mkResource b m)))) !! tid
    = Some (Fulfilled (Respond (mkResponse (DataBody b) 200 [("Content-Type", m)])))
  ∧ tasks (run_job w (ResourceJob tid None)) !! tid
    = Some (Fulfilled (Respond notFoundResponse)).
Proof.
  intros Ht Hm.
  assert (Hlt : tid < length (tasks w)) by (by eapply lookup_lt_Some).
  pose proof (resolveResourceEntry_valid b m Hm) as Hr.
  split.
  { eexists. split; [exact Hr|]. by repeat split. }
  split; [done|]. split; [done|]. split.
  - cbn [run_job]. rewrite Ht, Hr. simpl. by apply list_lookup_insert_eq.
  - cbn [run_job]. rewrite Ht. simpl. by apply list_lookup_insert_eq.
Qed.

Lemma resource_materialization_witness :
  let w := run worker [Fetch image_request; Resume 0; Resume 0] in
  tasks w !! 0 = Some (ResourceAwaitEntry image_request 0)
  ∧ is_header_value "image/png" = true
  ∧ resolveResourceEntry (Some (mkResource png "image/png"))
    = Return (mkResponse (DataBody png) 200 [("Content-Type", "image/png")])
  ∧ tasks (run_job w (ResourceJob 0 (Some (mkResource png "image/png")))) !! 0
    = Some (Fulfilled (Respond
        (mkResponse (DataBody png) 200 [("Content-Type", "image/png")])))
  ∧ tasks (run_job w (ResourceJob 0 None)) !! 0
    = Some (Fulfilled (Respond notFoundResponse)).
Proof.
  intros w.
  assert (Ht : tasks w !! 0 = Some (ResourceAwaitEntry image_request 0))
    by (vm_compute; reflexivity).
  assert (Hm : is_header_value "image/png" = true) by reflexivity.
  destruct (resource_materialization png "image/png" w 0 image_request 0 Ht Hm)
    as (_ & _ & _ & H4 & H5).
  split; [exact Ht|]. split; [exact Hm|]. split; [reflexivity|].
  split; [exact H4|exact H5].
Defined.

(** C4, as stated for every content type, fails: a content type with a
    leading space reaches the response without it, so the header is not the
    [mime] that was resolved; and for one with a line feed inside, the
    constructor throws, there is no response, and the waiting request is
    rejected. *)
Lemma resource_materialization_not_every_mime :
  let w := run worker [Fetch image_request; Resume 0; Resume 0] in
  let padded := " image/png" in
  let broken := "image/" +:+ String "010"%char "png" in
  resolveResourceEntry (Some (mkResource png padded))
    = Return (mkResponse (DataBody png) 200 [("Content-Type", "image/png")])
  ∧ ¬ (∃ r, resolveResourceEntry (Some (mkResource png padded)) = Return r
            ∧ header "Content-Type" r = Some padded)
  ∧ resolveResourceEntry (Some (mkResource png broken)) = Throw
  ∧ tasks (run_job w (ResourceJob 0 (Some (mkResource png broken)))) !! 0
    = Some Rejected.
Proof.
  intros w padded broken.
  split; [vm_compute; reflexivity|]. split.
  - intros (r & Hr & Hh).
    assert (Hr' : resolveResourceEntry (Some (mkResource png padded))
                  = Return (mkResponse (DataBody png) 200
                              [("Content-Type", "image/png")]))
      by (vm_compute; reflexivity).
    rewrite Hr' in Hr. injection Hr as <-. vm_compute in Hh. discriminate.
  - split; vm_compute; reflexivity.
Qed.

(** ** Reactions and the tasks they finish *)

Lemma deliver_idemp v t : deliver v (deliver v t) = deliver v t.
Proof. destruct t; simpl; try done. by destruct (resolveResourceEntry v). Qed.

Lemma same_but_tasks_trans w1 w2 w3 :
  same_but_tasks w1 w2 → same_but_tasks w2 w3 → same_but_tasks w1 w3.
Proof. unfold same_but_tasks. intuition congruence. Qed.

Lemma run_job_resource (w : World) (r : nat) (v : option Resource) :
  let w' := run_job w (ResourceJob r v) in
  same_but_tasks w w' ∧ jobs w' = jobs w
  ∧ ∀ tid, tasks w' !! tid
           = if decide (tid = r) then deliver v <$> tasks w !! tid
             else tasks w !! tid.
Proof.
  simpl. destruct (tasks w !! r) as [t|] eqn:Ht.
  - assert (Hlt : r < length (tasks w)) by (by eapply lookup_lt_Some).
    assert (Hset : ∀ t', let w' := set_task w r t' in
              same_but_tasks w w' ∧ jobs w' = jobs w
              ∧ ∀ tid, tasks w' !! tid
                       = if decide (tid = r) then Some t' else tasks w !! tid).
    { intros t'. simpl. split; [by repeat split; simpl; rewrite ?length_insert|].
      split; [done|]. intros tid. case_decide; subst.
      - by apply list_lookup_insert_eq.
      - by apply list_lookup_insert_ne. }
    destruct t as [| |event p| | | | | |];
      try (split; [by repeat split|]; split; [done|];
           intros tid; case_decide; subst; by rewrite ?Ht).
    destruct (Hset (deliver v (ResourceAwaitEntry event p))) as (H1 & H2 & H3).
    simpl in H1, H2, H3.
    destruct (resolveResourceEntry v) as [o|] eqn:Hr;
      (split; [done|]; split; [done|]);
      intros tid; rewrite H3; case_decide; subst; rewrite ?Ht; simpl;
      by rewrite ?Hr.
  - split; [by repeat split|]. split; [done|].
    intros tid; case_decide; subst; by rewrite ?Ht.
Qed.

(** Running the reactions scheduled by one [resolve] finishes every task
    among them that waits on an entry, with the materialised value, and
    touches nothing else. *)
Lemma drain_resource_jobs (rs : list nat) (v : option Resource) (w : World) :
  jobs w = (fun tid => ResourceJob tid v) <$> rs →
  same_but_tasks w (drain w) ∧ jobs (drain w) = []
  ∧ ∀ tid, tasks (drain w) !! tid
           = if decide (tid ∈ rs) then deliver v <$> tasks w !! tid
             else tasks w !! tid.
Proof.
  revert w. induction rs as [|r rs IH]; intros w Hj.
  - unfold drain. rewrite Hj. simpl. split; [by repeat split|]. split; [done|].
    intros tid. destruct (decide (tid ∈ [])) as [Hin|]; [|done].
    by apply elem_of_nil in Hin.
  - unfold drain. rewrite Hj. simpl. rewrite Hj. simpl.
    set (w0 := set_jobs w ((fun tid => ResourceJob tid v) <$> rs)).
    destruct (run_job_resource w0 r v) as (Hsame & Hjobs & Htasks).
    set (w1 := run_job w0 (ResourceJob r v)) in *.
    assert (Hj1 : jobs w1 = (fun tid => ResourceJob tid v) <$> rs) by done.
    destruct (IH w1 Hj1) as (Hsame' & Hjobs' & Htasks').
    unfold drain in Hsame', Hjobs', Htasks'. rewrite Hj1, length_fmap in *.
    split; [|split; [done|]].
    + apply (same_but_tasks_trans _ w1); [|done].
      apply (same_but_tasks_trans _ w0); [by repeat split|done].
    + intros tid. rewrite Htasks', Htasks. simpl.
      destruct (decide (tid = r)) as [->|Hne].
      * rewrite (decide_True (P := r ∈ r :: rs)) by apply list_elem_of_here.
        case_decide; [|done]. destruct (tasks w !! r); simpl; [|done].
        by rewrite deliver_idemp.
      * destruct (decide (tid ∈ rs)) as [Hin|Hnin].
        -- by rewrite (decide_True (P := tid ∈ r :: rs))
             by (by apply list_elem_of_further).
        -- rewrite (decide_False (P := tid ∈ r :: rs)); [done|].
           by intros [->|?]%elem_of_cons.
Qed.

(** ** Steps of the resource flow *)

Lemma step_fetch_resource (w : World) (event : FetchEvent) :
  origin (request_url event) = self_origin w →
  startsWith (pathname (request_url event)) (resourceRoot +:+ "/") = true →
  step w (Fetch event) = spawn w (ResourceAwaitClient event).
Proof.
  intros Ho Hp. simpl. unfold fetch_listener.
  by rewrite Ho, String.eqb_refl, Hp.
Qed.

Lemma step_resume_client (w : World) (tid : nat) (event : FetchEvent)
    (client : Client) (webviewId : string) :
  tasks w !! tid = Some (ResourceAwaitClient event) →
  clients_get (clients w) (clientId event) = Some client →
  getWebviewIdForClient client = Return webviewId →
  step w (Resume tid)
  = set_task w tid
      (ResourceAwaitParent event webviewId
         (replace_string (pathname (request_url event)) resourceRoot "")).
Proof.
  intros Ht Hc Hid. simpl. rewrite Ht. unfold processResourceRequest_client.
  by rewrite Hc, Hid.
Qed.

Lemma step_resume_join (w : World) (tid : nat) (event : FetchEvent)
    (webviewId path : string) (parent : Client) (p : nat) :
  tasks w !! tid = Some (ResourceAwaitParent event webviewId path) →
  getOuterIframeClient (clients w) webviewId = Return (Some parent) →
  RequestStore.get (resourceRequestStore w) webviewId path = Some p →
  step w (Resume tid)
  = set_task
      (set_resource w (RequestStore.then_ (resourceRequestStore w) p tid).1
                      (RequestStore.then_ (resourceRequestStore w) p tid).2)
      tid (ResourceAwaitEntry event p).
Proof.
  intros Ht Hp Hg. simpl. rewrite Ht. unfold processResourceRequest_parent.
  rewrite Hp, Hg. by destruct (RequestStore.then_ (resourceRequestStore w) p tid).
Qed.

Lemma step_resume_create (w : World) (tid : nat) (event : FetchEvent)
    (webviewId path : string) (parent : Client) :
  tasks w !! tid = Some (ResourceAwaitParent event webviewId path) →
  getOuterIframeClient (clients w) webviewId = Return (Some parent) →
  RequestStore.get (resourceRequestStore w) webviewId path = None →
  let p := length (RequestStore.heap (resourceRequestStore w)) in
  step w (Resume tid)
  = set_task
      (set_resource (postMessage w parent (LoadResource path))
         (RequestStore.mk
            (<[RequestStore._key webviewId path := p]>
               (RequestStore.map (resourceRequestStore w)))
            (RequestStore.heap (resourceRequestStore w)
               ++ [RequestStore.mkPromise None [tid]]))
         [])
      tid (ResourceAwaitEntry event p).
Proof.
  intros Ht Hp Hg. simpl. rewrite Ht. unfold processResourceRequest_parent.
  rewrite Hp, Hg. unfold RequestStore.create. simpl. rewrite Hg.
  unfold RequestStore.then_, RequestStore.Promise_then. simpl.
  rewrite lookup_app_r by done. rewrite Nat.sub_diag. simpl.
  rewrite insert_app_r_alt by done. by rewrite Nat.sub_diag.
Qed.

(** The [did-load-resource] message on a pending entry. *)
Lemma step_message_pending (w : World) (source : Client) (webviewId path : string)
    (status : Z) (data : bytes) (mime : string) (p : nat) (observers : list nat) :
  getWebviewIdForClient source = Return webviewId →
  RequestStore.get (resourceRequestStore w) webviewId path = Some p →
  RequestStore.heap (resourceRequestStore w) !! p
    = Some (RequestStore.mkPromise None observers) →
  let response := if (status =? 200)%Z then Some (mkResource data mime) else None in
  RequestStore.resolve (resourceRequestStore w) webviewId path response
  = (true,
     RequestStore.mk (RequestStore.map (resourceRequestStore w))
       (<[p := RequestStore.mkPromise (Some response) []]>
          (RequestStore.heap (resourceRequestStore w))),
     (fun tid => (tid, response)) <$> observers)
  ∧ step w (MessageFrom source (DidLoadResource path status data mime))
    = mkWorld (self_origin w) (clients w)
        (RequestStore.mk (RequestStore.map (resourceRequestStore w))
           (<[p := RequestStore.mkPromise (Some response) []]>
              (RequestStore.heap (resourceRequestStore w))))
        (localhostRequestStore w) (tasks w)
        (jobs w ++ ((fun tid => ResourceJob tid response) <$> observers))
        (posted w) (console w).
Proof.
  intros Hid Hg Hp response.
  assert (Hres : RequestStore.resolve (resourceRequestStore w) webviewId path response
    = (true,
       RequestStore.mk (RequestStore.map (resourceRequestStore w))
         (<[p := RequestStore.mkPromise (Some response) []]>
            (RequestStore.heap (resourceRequestStore w))),
       (fun tid => (tid, response)) <$> observers)).
  { unfold RequestStore.resolve. rewrite Hg.
    unfold RequestStore.Promise_resolve. by rewrite Hp. }
  split; [exact Hres|].
  simpl. unfold message_listener. rewrite Hid. fold response. rewrite Hres.
  unfold set_resource. simpl. by rewrite <- list_fmap_compose.
Qed.

(** ** The [did-load-resource] message *)

(** C6: a [did-load-resource] message resolves the entry of the sender's
    session and the path with [{ body: data, mime }] when the status is 200
    and with [undefined] otherwise. A request waiting on that entry is then
    answered with what the value materialises to: the 404 response for
    [undefined]; for [{ body, mime }] the response the constructor makes of
    it, which carries the data and the content type when the content type is
    a header value, and a rejection when the constructor throws. *)
Theorem resource_loaded_resolves (w : World) (source : Client)
    (webviewId path : string) (status : Z) (data : bytes) (mime : string)
    (p : nat) (observers : list nat) (tid : nat) (event : FetchEvent) :
  getWebviewIdForClient source = Return webviewId →
  RequestStore.get (resourceRequestStore w) webviewId path = Some p →
  RequestStore.heap (resourceRequestStore w) !! p
    = Some (RequestStore.mkPromise None observers) →
  tid ∈ observers →
  tasks w !! tid = Some (ResourceAwaitEntry event p) →
  jobs w = [] →
  let response := if (status =? 200)%Z then Some (mkResource data mime) else None in
  let w1 := step w (MessageFrom source (DidLoadResource path status data mime)) in
  RequestStore.resolve (resourceRequestStore w) webviewId path response
  = (true, resourceRequestStore w1, (fun tid => (tid, response)) <$> observers)
  ∧ RequestStore.heap (resourceRequestStore w1) !! p
    = Some (RequestStore.mkPromise (Some response) [])
  ∧ tasks (drain w1) !! tid
    = Some (if (status =? 200)%Z
            then match new_Response (DataBody data) 200 [("Content-Type", mime)] with
                 | Return r => Fulfilled (Respond r)
                 | Throw => Rejected
                 end
            else Fulfilled (Respond notFoundResponse))
  ∧ (is_header_value mime = true →
     tasks (drain w1) !! tid
     = Some (Fulfilled (Respond
         (if (status =? 200)%Z
          then mkResponse (DataBody data) 200 [("Content-Type", mime)]
          else notFoundResponse)))).
Proof.
  intros Hid Hg Hp Hin Ht Hj response w1.
  destruct (step_message_pending w source webviewId path status data mime p
              observers Hid Hg Hp) as [Hres Hstep].
  fold response in Hres, Hstep. fold w1 in Hstep.
  assert (Hlt : p < length (RequestStore.heap (resourceRequestStore w)))
    by (by eapply lookup_lt_Some).
  split; [by rewrite Hstep|]. split.
  { rewrite Hstep. simpl. by rewrite list_lookup_insert_eq. }
  assert (Hj1 : jobs w1 = (fun tid => ResourceJob tid response) <$> observers).
  { rewrite Hstep. simpl. by rewrite Hj. }
  destruct (drain_resource_jobs observers response w1 Hj1) as (_ & _ & Hd).
  assert (Hanswer : tasks (drain w1) !! tid
                    = Some (deliver response (ResourceAwaitEntry event p))).
  { rewrite Hd, decide_True by done.
    rewrite Hstep at 1. cbn [tasks]. by rewrite Ht. }
  split.
  - rewrite Hanswer. subst response. cbn [deliver].
    by destruct (status =? 200)%Z.
  - intros Hm. rewrite Hanswer. subst response. cbn [deliver].
    destruct (status =? 200)%Z; [|done].
    by rewrite resolveResourceEntry_valid.
Qed.

Lemma resource_loaded_resolves_witness :
  let w := run worker [Fetch image_request; Resume 0; Resume 0] in
  let w1 := step w (MessageFrom controller (DidLoadResource "/img.png" 200 png "image/png")) in
  getWebviewIdForClient controller = Return "s1"
  ∧ RequestStore.get (resourceRequestStore w) "s1" "/img.png" = Some 0
  ∧ RequestStore.heap (resourceRequestStore w) !! 0 = Some (RequestStore.mkPromise None [0])
  ∧ tasks w !! 0 = Some (ResourceAwaitEntry image_request 0)
  ∧ jobs w = []
  ∧ RequestStore.heap (resourceRequestStore w1) !! 0
    = Some (RequestStore.mkPromise (Some (Some (mkResource png "image/png"))) [])
  ∧ tasks (drain w1) !! 0
    = Some (Fulfilled (Respond
        (mkResponse (DataBody png) 200 [("Content-Type", "image/png")]))).
Proof.
  intros w w1.
  assert (H1 : getWebviewIdForClient controller = Return "s1") by reflexivity.
  assert (H2 : RequestStore.get (resourceRequestStore w) "s1" "/img.png" = Some 0)
    by (vm_compute; reflexivity).
  assert (H3 : RequestStore.heap (resourceRequestStore w) !! 0
               = Some (RequestStore.mkPromise None [0])) by (vm_compute; reflexivity).
  assert (H4 : 0 ∈ [0]) by apply list_elem_of_here.
  assert (H5 : tasks w !! 0 = Some (ResourceAwaitEntry image_request 0))
    by (vm_compute; reflexivity).
  assert (H6 : jobs w = []) by (vm_compute; reflexivity).
  destruct (resource_loaded_resolves w controller "s1" "/img.png" 200 png "image/png"
              0 [0] 0 image_request H1 H2 H3 H4 H5 H6) as (_ & H7 & _ & H8).
  repeat (split; [assumption|]). exact (H8 eq_refl).
Defined.

(** ** Entries after their resolution *)

Lemma spawn_lookup_new (w : World) (t : Task) :
  tasks (spawn w t) !! length (tasks w) = Some t.
Proof. simpl. rewrite lookup_app_r by done. by rewrite Nat.sub_diag. Qed.

(** C3 (as the worker behaves): an entry stays in the store after it is
    resolved. After the [did-load-resource] message has resolved the entry
    of a key and its waiting requests have been answered, a lookup of the key
    still finds that entry; a later request for the key joins it: the store
    is not changed, no message is posted, and the request is answered from
    the value the entry was resolved with. *)
Theorem resolved_entry_is_reused (w : World) (source client parent : Client)
    (webviewId path : string) (status : Z) (data : bytes) (mime : string)
    (p : nat) (observers : list nat) (event : FetchEvent) :
  getWebviewIdForClient source = Return webviewId →
  RequestStore.get (resourceRequestStore w) webviewId path = Some p →
  RequestStore.heap (resourceRequestStore w) !! p
    = Some (RequestStore.mkPromise None observers) →
  jobs w = [] →
  origin (request_url event) = self_origin w →
  startsWith (pathname (request_url event)) (resourceRoot +:+ "/") = true →
  clients_get (clients w) (clientId event) = Some client →
  getWebviewIdForClient client = Return webviewId →
  replace_string (pathname (request_url event)) resourceRoot "" = path →
  getOuterIframeClient (clients w) webviewId = Return (Some parent) →
  let response := if (status =? 200)%Z then Some (mkResource data mime) else None in
  let w1 := drain (step w (MessageFrom source (DidLoadResource path status data mime))) in
  let tid := length (tasks w1) in
  let w2 := drain (run w1 [Fetch event; Resume tid; Resume tid]) in
  RequestStore.get (resourceRequestStore w1) webviewId path = Some p
  ∧ resourceRequestStore w2 = resourceRequestStore w1
  ∧ posted w2 = posted w
  ∧ tasks w2 !! tid
    = Some (match resolveResourceEntry response with
            | Return r => Fulfilled (Respond r)
            | Throw => Rejected
            end)
  ∧ (is_header_value mime = true →
     tasks w2 !! tid
     = Some (Fulfilled (Respond
         (if (status =? 200)%Z
          then mkResponse (DataBody data) 200 [("Content-Type", mime)]
          else notFoundResponse)))).
Proof.
  intros Hid Hg Hp Hj Ho Hsw Hc Hcid Hpath Hparent response w1 tid w2.
  destruct (step_message_pending w source webviewId path status data mime p
              observers Hid Hg Hp) as [_ Hstep].
  fold response in Hstep.
  set (w1a := step w (MessageFrom source (DidLoadResource path status data mime))) in *.
  assert (Hj1a : jobs w1a = (fun tid => ResourceJob tid response) <$> observers).
  { rewrite Hstep. simpl. by rewrite Hj. }
  destruct (drain_resource_jobs observers response w1a Hj1a)
    as ((Hso & Hcl & Hrs & Hls & Hpo & Hco & Hlen) & Hj1 & _).
  fold w1 in Hso, Hcl, Hrs, Hls, Hpo, Hco, Hlen, Hj1.
  assert (Hlt : p < length (RequestStore.heap (resourceRequestStore w)))
    by (by eapply lookup_lt_Some).
  assert (Hg1 : RequestStore.get (resourceRequestStore w1) webviewId path = Some p).
  { rewrite Hrs, Hstep. exact Hg. }
  assert (Hp1 : RequestStore.heap (resourceRequestStore w1) !! p
                = Some (RequestStore.mkPromise (Some response) [])).
  { rewrite Hrs, Hstep. simpl. by rewrite list_lookup_insert_eq. }
  assert (Hcl1 : clients w1 = clients w) by (by rewrite Hcl, Hstep).
  assert (Hso1 : self_origin w1 = self_origin w) by (by rewrite Hso, Hstep).
  split; [exact Hg1|].
  (* the later request *)
  subst w2.
  change (run w1 [Fetch event; Resume tid; Resume tid])
    with (step (step (step w1 (Fetch event)) (Resume tid)) (Resume tid)).
  rewrite (step_fetch_resource w1 event) by (by rewrite ?Hso1).
  set (wa := spawn w1 (ResourceAwaitClient event)).
  assert (Hta : tasks wa !! tid = Some (ResourceAwaitClient event))
    by apply spawn_lookup_new.
  rewrite (step_resume_client wa tid event client webviewId Hta)
    by (by subst wa; simpl; rewrite ?Hcl1).
  rewrite Hpath.
  set (wb := set_task wa tid (ResourceAwaitParent event webviewId path)).
  assert (Htb : tasks wb !! tid = Some (ResourceAwaitParent event webviewId path)).
  { simpl. apply list_lookup_insert_eq. rewrite length_app. simpl. lia. }
  rewrite (step_resume_join wb tid event webviewId path parent p Htb)
    by (by subst wb wa; simpl; rewrite ?Hcl1).
  assert (Hthen : RequestStore.then_ (resourceRequestStore wb) p tid
                  = (resourceRequestStore w1, [(tid, response)])).
  { unfold RequestStore.then_, RequestStore.Promise_then. simpl.
    rewrite Hp1. by destruct (resourceRequestStore w1). }
  rewrite Hthen. simpl fst. simpl snd.
  set (wc := set_task _ tid (ResourceAwaitEntry event p)).
  assert (Hjc : jobs wc = (fun t => ResourceJob t response) <$> [tid]).
  { simpl. by rewrite Hj1. }
  destruct (drain_resource_jobs [tid] response wc Hjc)
    as ((_ & _ & Hrs' & _ & Hpo' & _ & _) & _ & Hd).
  split; [by rewrite Hrs'|]. split.
  { rewrite Hpo'. simpl. by rewrite Hpo, Hstep. }
  assert (Hanswer : tasks (drain wc) !! tid
                    = Some (match resolveResourceEntry response with
                            | Return r => Fulfilled (Respond r)
                            | Throw => Rejected
                            end)).
  { rewrite Hd, decide_True by apply list_elem_of_here.
    simpl. rewrite list_lookup_insert_eq; [done|].
    rewrite length_insert, length_app. simpl. lia. }
  split; [exact Hanswer|].
  intros Hm. rewrite Hanswer. subst response.
  destruct (status =? 200)%Z; [|done]. by rewrite resolveResourceEntry_valid.
Qed.

Lemma resolved_entry_is_reused_witness :
  let w := run worker [Fetch image_request; Resume 0; Resume 0] in
  let w1 := drain (step w (MessageFrom controller
                             (DidLoadResource "/img.png" 200 png "image/png"))) in
  let w2 := drain (run w1 [Fetch image_request; Resume 1; Resume 1]) in
  RequestStore.heap (resourceRequestStore w) !! 0 = Some (RequestStore.mkPromise None [0])
  ∧ RequestStore.get (resourceRequestStore w1) "s1" "/img.png" = Some 0
  ∧ resourceRequestStore w2 = resourceRequestStore w1
  ∧ posted w2 = posted w
  ∧ tasks w2 !! 1
    = Some (Fulfilled (Respond
        (mkResponse (DataBody png) 200 [("Content-Type", "image/png")]))).
Proof.
  intros w w1 w2.
  assert (H3 : RequestStore.heap (resourceRequestStore w) !! 0
               = Some (RequestStore.mkPromise None [0])) by (vm_compute; reflexivity).
  split; [exact H3|].
  destruct (resolved_entry_is_reused w controller inner_page controller "s1" "/img.png"
              200 png "image/png" 0 [0] image_request)
    as (H4 & H5 & H6 & _ & H8); try (vm_compute; reflexivity).
  split; [exact H4|]. split; [exact H5|]. split; [exact H6|].
  exact (H8 eq_refl).
Defined.

(** C3, as stated, fails: after the entry of [s1] and [/img.png] has been
    resolved and the waiting request answered, the lookup still finds the
    entry, and a second request for the key creates no entry, posts no
    message and is answered from the value of the first resolution. *)
Lemma resolved_entry_not_removed :
  let w := drain (run worker
             [Fetch image_request; Resume 0; Resume 0;
              MessageFrom controller (DidLoadResource "/img.png" 200 png "image/png")]) in
  let w' := drain (run w [Fetch image_request; Resume 1; Resume 1]) in
  tasks w !! 0
  = Some (Fulfilled (Respond (mkResponse (DataBody png) 200 [("Content-Type", "image/png")])))
  ∧ RequestStore.get (resourceRequestStore w) "s1" "/img.png" ≠ None
  ∧ length (RequestStore.heap (resourceRequestStore w'))
    = length (RequestStore.heap (resourceRequestStore w))
  ∧ posted w' = posted w
  ∧ posted w' = [(controller, LoadResource "/img.png")]
  ∧ tasks w' !! 1
    = Some (Fulfilled (Respond (mkResponse (DataBody png) 200 [("Content-Type", "image/png")]))).
Proof.
  intros w w'.
  assert (Hg : RequestStore.get (resourceRequestStore w) "s1" "/img.png" = Some 0)
    by (vm_compute; reflexivity).
  split; [vm_compute; reflexivity|]. split; [congruence|].
  repeat split; vm_compute; reflexivity.
Qed.

(** ** The stores of the worker have a history *)

Lemma step_resource_history (w : World) (e : Event) :
  ∃ ops, resourceRequestStore (step w e) = foldl apply_op (resourceRequestStore w) ops.
Proof.
  destruct e as [event|source data|tid|].
  - exists []. simpl. unfold fetch_listener. by repeat case_match.
  - simpl. unfold message_listener.
    destruct data as [path status data mime|origin location|channel];
      [|exists []; by repeat case_match|by exists []].
    destruct (getWebviewIdForClient source) as [webviewId|]; [|by exists []].
    exists [OpResolve webviewId path
              (if (status =? 200)%Z then Some (mkResource data mime) else None)].
    simpl.
    destruct (RequestStore.resolve (resourceRequestStore w) webviewId path
                (if (status =? 200)%Z then Some (mkResource data mime) else None))
      as [[ok s] js].
    by destruct ok.
  - simpl. destruct (tasks w !! tid) as [t|]; [|by exists []].
    destruct t as [event|event webviewId path|event p|event|event webviewId|event p| | |];
      try (by exists []).
    + exists []. unfold processResourceRequest_client. by repeat case_match.
    + unfold processResourceRequest_parent.
      destruct (getOuterIframeClient (clients w) webviewId) as [[parent|]|];
        try (by exists []).
      destruct (RequestStore.get (resourceRequestStore w) webviewId path)
        as [existing|] eqn:Hg.
      * exists [OpThen existing tid]. simpl.
        by destruct (RequestStore.then_ (resourceRequestStore w) existing tid).
      * exists [OpCreate webviewId path;
                OpThen (length (RequestStore.heap (resourceRequestStore w))) tid].
        simpl. unfold RequestStore.create. rewrite Hg. simpl.
        by destruct (RequestStore.then_ _ _ tid).
    + exists []. unfold processLocalhostRequest_client. by repeat case_match.
    + exists []. unfold processLocalhostRequest_parent. by repeat case_match.
  - exists []. simpl. destruct (jobs w) as [|j js]; [done|].
    unfold run_job. by repeat case_match.
Qed.

Lemma step_localhost_history (w : World) (e : Event) :
  ∃ ops, localhostRequestStore (step w e) = foldl apply_op (localhostRequestStore w) ops.
Proof.
  destruct e as [event|source data|tid|].
  - exists []. simpl. unfold fetch_listener. by repeat case_match.
  - simpl. unfold message_listener.
    destruct data as [path status data mime|origin location|channel];
      [exists []; by repeat case_match| |by exists []].
    destruct (getWebviewIdForClient source) as [webviewId|]; [|by exists []].
    exists [OpResolve webviewId origin location]. simpl.
    destruct (RequestStore.resolve (localhostRequestStore w) webviewId origin location)
      as [[ok s] js].
    by destruct ok.
  - simpl. destruct (tasks w !! tid) as [t|]; [|by exists []].
    destruct t as [event|event webviewId path|event p|event|event webviewId|event p| | |];
      try (by exists []).
    + exists []. unfold processResourceRequest_client. by repeat case_match.
    + exists []. unfold processResourceRequest_parent. by repeat case_match.
    + exists []. unfold processLocalhostRequest_client. by repeat case_match.
    + unfold processLocalhostRequest_parent.
      destruct (getOuterIframeClient (clients w) webviewId) as [[parent|]|];
        try (by exists []).
      destruct (RequestStore.get (localhostRequestStore w) webviewId
                  (origin (request_url event))) as [existing|] eqn:Hg.
      * exists [OpThen existing tid]. simpl.
        by destruct (RequestStore.then_ (localhostRequestStore w) existing tid).
      * exists [OpCreate webviewId (origin (request_url event));
                OpThen (length (RequestStore.heap (localhostRequestStore w))) tid].
        simpl. unfold RequestStore.create. rewrite Hg. simpl.
        by destruct (RequestStore.then_ _ _ tid).
  - exists []. simpl. destruct (jobs w) as [|j js]; [done|].
    unfold run_job. by repeat case_match.
Qed.

(** Whatever events the worker has handled since its installation, each of
    its stores is the result of a history of store operations. *)
Lemma worker_stores_have_history (self_origin : string) (cs : list Client)
    (es : list Event) :
  (∃ ops, resourceRequestStore (run (init self_origin cs) es) = store_after ops)
  ∧ (∃ ops, localhostRequestStore (run (init self_origin cs) es) = store_after ops).
Proof.
  assert (Hres : ∀ es w, ∃ ops,
             resourceRequestStore (run w es) = foldl apply_op (resourceRequestStore w) ops).
  { clear es. induction es as [|e es IH]; intros w; [by exists []|].
    destruct (step_resource_history w e) as [ops1 H1].
    destruct (IH (step w e)) as [ops2 H2].
    exists (ops1 ++ ops2). rewrite foldl_app, <- H1. exact H2. }
  assert (Hloc : ∀ es w, ∃ ops,
             localhostRequestStore (run w es) = foldl apply_op (localhostRequestStore w) ops).
  { clear es Hres. induction es as [|e es IH]; intros w; [by exists []|].
    destruct (step_localhost_history w e) as [ops1 H1].
    destruct (IH (step w e)) as [ops2 H2].
    exists (ops1 ++ ops2). rewrite foldl_app, <- H1. exact H2. }
  split; [apply (Hres es (init self_origin cs))|apply (Hloc es (init self_origin cs))].
Qed.

(** Hence the stores of the worker are well formed at all times. *)
Lemma worker_stores_wf (self_origin : string) (cs : list Client) (es : list Event) :
  store_wf (resourceRequestStore (run (init self_origin cs) es))
  ∧ store_wf (localhostRequestStore (run (init self_origin cs) es)).
Proof.
  destruct (worker_stores_have_history self_origin cs es) as [[o1 ->] [o2 ->]].
  split; apply store_after_wf.
Qed.

(** ** Requests without a connected peer *)

Lemma resource_request_without_client (w : World) (tid : nat) (event : FetchEvent) :
  tasks w !! tid = Some (ResourceAwaitClient event) →
  clients_get (clients w) (clientId event) = None →
  tasks (step w (Resume tid)) !! tid = Some (Fulfilled (Respond notFoundResponse)).
Proof.
  intros Ht Hc. simpl. rewrite Ht. unfold processResourceRequest_client.
  rewrite Hc. simpl. apply list_lookup_insert_eq. by eapply lookup_lt_Some.
Qed.

Lemma localhost_request_without_client (w : World) (tid : nat) (event : FetchEvent) :
  tasks w !! tid = Some (LocalhostAwaitClient event) →
  clients_get (clients w) (clientId event) = None →
  tasks (step w (Resume tid)) !! tid = Some (Fulfilled Undefined).
Proof.
  intros Ht Hc. simpl. rewrite Ht. unfold processLocalhostRequest_client.
  rewrite Hc. simpl. apply list_lookup_insert_eq. by eapply lookup_lt_Some.
Qed.

(** C9, what the handlers do for a request whose client is not connected:
    the resource handler answers with the 404 response; the localhost
    handler returns [undefined], which [event.respondWith] turns into a
    network error, where the no-redirect path of the same handler fetches
    the request from the network. *)
Theorem localhost_request_without_peer (w : World) (tid : nat) (event : FetchEvent) :
  clients_get (clients w) (clientId event) = None →
  (tasks w !! tid = Some (ResourceAwaitClient event) →
   tasks (step w (Resume tid)) !! tid = Some (Fulfilled (Respond notFoundResponse)))
  ∧ (tasks w !! tid = Some (LocalhostAwaitClient event) →
     tasks (step w (Resume tid)) !! tid = Some (Fulfilled Undefined))
  ∧ respondWith Undefined = NetworkError
  ∧ resolveRedirect event None = Return (NetworkFetch event).
Proof.
  intros Hc. split; [|split; [|by split]].
  - intros Ht. by apply (resource_request_without_client w tid event).
  - intros Ht. by apply (localhost_request_without_client w tid event).
Qed.

Lemma localhost_request_without_peer_witness :
  let w := run (init "https://webview.test" [controller])
             [Fetch page_request; Fetch image_request] in
  clients_get (clients w) (clientId page_request) = None
  ∧ tasks w !! 0 = Some (LocalhostAwaitClient page_request)
  ∧ tasks w !! 1 = Some (ResourceAwaitClient image_request)
  ∧ tasks (step w (Resume 0)) !! 0 = Some (Fulfilled Undefined)
  ∧ respondWith Undefined = NetworkError
  ∧ tasks (step w (Resume 1)) !! 1 = Some (Fulfilled (Respond notFoundResponse)).
Proof.
  intros w.
  assert (Hc : clients_get (clients w) (clientId page_request) = None) by reflexivity.
  assert (H0 : tasks w !! 0 = Some (LocalhostAwaitClient page_request)) by reflexivity.
  assert (H1 : tasks w !! 1 = Some (ResourceAwaitClient image_request)) by reflexivity.
  destruct (localhost_request_without_peer w 0 page_request Hc) as (_ & HL & HE & _).
  destruct (localhost_request_without_peer w 1 image_request Hc) as (HR & _ & _ & _).
  exact (conj Hc (conj H0 (conj H1 (conj (HL H0) (conj HE (HR H1)))))).
Defined.

(** ** Patterns built from a text without pattern syntax *)

Lemma chars_app (a b : string) : chars (a +:+ b) = chars a ++ chars b.
Proof. induction a as [|c a IH]; simpl; [done|]. unfold chars in *. simpl. by rewrite IH. Qed.


Lemma str_chars (s : string) : str (chars s) = s.
Proof. apply string_of_list_ascii_of_string. Qed.

Lemma quantified_none (a : regex) (s : list ascii) :
  unquantified s → quantified a s = Some (a, s).
Proof.
  destruct s as [|c s]; [done|]. unfold quantified. simpl.
  by destruct (syntax_class c).
Qed.

Lemma unquantified_plain (l s : list ascii) :
  forallb is_plain l = true → unquantified s → unquantified (l ++ s).
Proof.
  destruct l as [|c l]; [done|]. simpl. intros [Hc _]%andb_prop _.
  unfold is_plain in Hc. by destruct (syntax_class c).
Qed.

Lemma parse_literal (lit : list ascii) :
  forallb is_plain lit = true →
  ∀ fuel s n alts cur,
    unquantified s →
    parseDisjunction (length lit + fuel) (lit ++ s) n alts cur
    = parseDisjunction fuel s n alts (fun r => cur (literal lit r)).
Proof.
  induction lit as [|c lit IH]; intros Hplain fuel s n alts cur Hs; [done|].
  simpl in Hplain. apply andb_prop in Hplain as [Hc Hlit].
  simpl. unfold is_plain in Hc.
  destruct (syntax_class c) eqn:Hclass; try discriminate.
  rewrite quantified_none by (by apply unquantified_plain). simpl.
  by rewrite IH.
Qed.

Lemma matcher_literal (lit : list ascii) :
  ∀ r k st tail,
    rest st = lit ++ tail →
    matcher false (literal lit r) k st
    = matcher false r k (mkMState (pre st) (rev lit ++ taken st) tail (caps st)).
Proof.
  induction lit as [|c lit IH]; intros r k st tail Hrest.
  - simpl in *. destruct st; simpl in *. by subst.
  - simpl. unfold single. rewrite Hrest. simpl. rewrite Ascii.eqb_refl.
    rewrite (IH r k _ tail) by done. simpl. by rewrite <- app_assoc.
Qed.



Lemma search_from_here (re : RegExp) (pre0 s : list ascii) (st : MState) :
  matcher (ignoreCase re) (pattern re) Some (mkMState pre0 [] s []) = Some st →
  search_from re pre0 s
  = Some (mkMatchResult (rev pre0) (rev (taken st)) (rest st) (caps st)).
Proof. intros H. destruct s; simpl; by rewrite H. Qed.


(** The two pattern literals of the worker are what their texts parse to. *)
Lemma webviewIdPattern_text :
  compile "\bid=([a-z0-9-]+)" true = Some webviewIdPattern.
Proof. reflexivity. Qed.

Lemma localhostPattern_text :
  compile "^localhost:(\d+)$" false = Some localhostPattern.
Proof. reflexivity. Qed.

(** ** Locating the controller *)

Lemma compile_outerPattern (webviewId : string) :
  forallb is_plain (chars webviewId) = true →
  compile ("\bid=" +:+ webviewId) false = Some (outerPattern webviewId).
Proof.
  intros Hplain. unfold compile.
  change (chars ("\bid=" +:+ webviewId))
    with ("\"%char :: "b"%char :: chars ("id=" +:+ webviewId)).
  change (length ("\"%char :: "b"%char :: chars ("id=" +:+ webviewId)))
    with (S (S (length (chars ("id=" +:+ webviewId))))).
  change (parseDisjunction (S (S (S (length (chars ("id=" +:+ webviewId))))))
            ("\"%char :: "b"%char :: chars ("id=" +:+ webviewId)) 0
            (fun r => r) (fun r => r))
    with (parseDisjunction (S (S (length (chars ("id=" +:+ webviewId)))))
            (chars ("id=" +:+ webviewId)) 0 (fun r => r) (fun r => Seq WordBoundary r)).
  replace (S (S (length (chars ("id=" +:+ webviewId)))))
    with (length (chars ("id=" +:+ webviewId)) + 2) by lia.
  rewrite <- (app_nil_r (chars ("id=" +:+ webviewId))) at 2.
  rewrite parse_literal; [done| |done].
  rewrite chars_app. by rewrite forallb_app, Hplain.
Qed.

Lemma exec_outerPattern (webviewId suffix : string) :
  exec (outerPattern webviewId) ("?id=" +:+ webviewId +:+ suffix)
  = Some (mkMatchResult ["?"%char] (chars ("id=" +:+ webviewId)) (chars suffix) []).
Proof.
  unfold exec.
  change (chars ("?id=" +:+ webviewId +:+ suffix))
    with ("?"%char :: chars (("id=" +:+ webviewId) +:+ suffix)).
  rewrite chars_app.
  cbn [search_from outerPattern pattern ignoreCase matcher word_before word_after
       prev_char pre taken rest head is_word xorb].
  change (is_word "?"%char) with false. cbn [xorb].
  erewrite search_from_here.
  2:{ cbn [outerPattern pattern ignoreCase matcher].
      change (chars ("id=" +:+ webviewId))
        with ("i"%char :: chars ("d=" +:+ webviewId)).
      cbn [app word_before word_after prev_char pre taken rest head].
      change (is_word "?"%char) with false. change (is_word "i"%char) with true.
      cbn [xorb].
      rewrite (matcher_literal ("i"%char :: chars ("d=" +:+ webviewId)) _ _ _
                 (chars suffix)) by done.
      simpl. reflexivity. }
  simpl. by rewrite app_nil_r, !rev_app_distr, rev_involutive.
Qed.

(** C2, how the lookup goes wrong: for a session identifier without pattern
    syntax (any run of letters, digits and hyphens) and any continuation of
    it, a root-path peer whose URL carries [?id=] followed by the identifier
    and the continuation is the controller found for that session, whatever
    peers come after it. With the controllers of sessions [s12] and [s1]
    connected in that order, session [s1] gets the controller of [s12]. *)
Theorem outer_client_of_longer_id (webviewId suffix : string) (peer : Client)
    (others : list Client) :
  forallb is_plain (chars webviewId) = true →
  pathname (client_url peer) = "/" →
  search (client_url peer) = "?id=" +:+ webviewId +:+ suffix →
  getOuterIframeClient (peer :: others) webviewId = Return (Some peer)
  ∧ getWebviewIdForClient other_controller = Return "s12"
  ∧ getOuterIframeClient [other_controller; controller] "s1"
    = Return (Some other_controller).
Proof.
  intros Hplain Hpath Hsearch.
  split; [|split; vm_compute; reflexivity].
  unfold getOuterIframeClient. cbn [find_outer]. rewrite Hpath.
  change (String.eqb "/" "/") with true. cbv iota.
  rewrite compile_outerPattern by done.
  unfold matches. by rewrite Hsearch, exec_outerPattern.
Qed.

Lemma outer_client_of_longer_id_witness :
  forallb is_plain (chars "s1") = true
  ∧ pathname (client_url other_controller) = "/"
  ∧ search (client_url other_controller) = "?id=" +:+ "s1" +:+ "2"
  ∧ getWebviewIdForClient other_controller = Return "s12"
  ∧ getOuterIframeClient [other_controller; controller] "s1"
    = Return (Some other_controller)
  ∧ getOuterIframeClient [other_controller] "s1" = Return (Some other_controller).
Proof.
  assert (H1 : forallb is_plain (chars "s1") = true) by reflexivity.
  assert (H2 : pathname (client_url other_controller) = "/") by reflexivity.
  assert (H3 : search (client_url other_controller) = "?id=" +:+ "s1" +:+ "2")
    by reflexivity.
  destruct (outer_client_of_longer_id "s1" "2" other_controller [controller] H1 H2 H3)
    as (H4 & H5 & _).
  destruct (outer_client_of_longer_id "s1" "2" other_controller [] H1 H2 H3)
    as (H6 & _ & _).
  exact (conj H1 (conj H2 (conj H3 (conj H5 (conj H4 H6))))).
Defined.

(** ** The redirect of a request to a local server *)


(** ** Concurrent requests for one key *)

Lemma step_length_tasks (w : World) (e : Event) :
  length (tasks (step w e))
  = length (tasks w) + (if is_fetch e then 1 else 0).
Proof.
  destruct e as [event|source data|tid|]; simpl.
  - unfold fetch_listener.
    repeat case_match; simpl; rewrite length_app; simpl; lia.
  - unfold message_listener. repeat case_match; simpl; lia.
  - unfold processResourceRequest_client, processResourceRequest_parent,
      processLocalhostRequest_client, processLocalhostRequest_parent.
    repeat case_match; simpl; rewrite ?length_insert; lia.
  - destruct (jobs w) as [|j js]; [lia|].
    unfold run_job. repeat case_match; simpl; rewrite ?length_insert; lia.
Qed.

Lemma run_length_tasks (es : list Event) (w : World) :
  length (tasks (run w es)) = length (tasks w) + length (List.filter is_fetch es).
Proof.
  revert w. induction es as [|e es IH]; intros w; simpl; [lia|].
  unfold run in *. rewrite IH, step_length_tasks.
  destruct (is_fetch e); simpl; lia.
Qed.

Section Dedup.
Variables (w0 : World) (webviewId path : string) (parent : Client).
Hypothesis Hget0 : RequestStore.get (resourceRequestStore w0) webviewId path = None.
Hypothesis Hparent : getOuterIframeClient (clients w0) webviewId = Return (Some parent).

Local Abbreviation p0 := (length (RequestStore.heap (resourceRequestStore w0))).
Local Abbreviation inv := (dedup_inv w0 webviewId path parent).
Local Abbreviation ok := (task_ok w0 webviewId path p0).

Lemma requests_key_inv (event : FetchEvent) :
  requests_key w0 webviewId path event = true →
  origin (request_url event) = self_origin w0
  ∧ startsWith (pathname (request_url event)) (resourceRoot +:+ "/") = true
  ∧ (∃ client, clients_get (clients w0) (clientId event) = Some client
               ∧ getWebviewIdForClient client = Return webviewId)
  ∧ replace_string (pathname (request_url event)) resourceRoot "" = path.
Proof.
  unfold requests_key. intros H.
  apply andb_prop in H as [H Hp]. apply andb_prop in H as [H Hc].
  apply andb_prop in H as [Ho Hs].
  apply String.eqb_eq in Ho, Hp. repeat split; try done.
  destruct (clients_get (clients w0) (clientId event)) as [client|]; [|done].
  exists client. split; [done|].
  destruct (getWebviewIdForClient client) as [id|]; [|done].
  by apply String.eqb_eq in Hc as ->.
Qed.

Lemma store_created_get rs :
  RequestStore.get (store_created w0 webviewId path rs) webviewId path = Some p0.
Proof. unfold RequestStore.get, store_created. simpl. apply lookup_insert_eq. Qed.

Lemma store_created_heap rs :
  RequestStore.heap (store_created w0 webviewId path rs) !! p0
  = Some (RequestStore.mkPromise None rs).
Proof.
  unfold store_created. simpl. rewrite lookup_app_r by done.
  by rewrite Nat.sub_diag.
Qed.

Lemma store_created_then rs tid :
  RequestStore.then_ (store_created w0 webviewId path rs) p0 tid
  = (store_created w0 webviewId path (rs ++ [tid]), []).
Proof.
  unfold RequestStore.then_, RequestStore.Promise_then.
  rewrite store_created_heap. unfold store_created. simpl.
  rewrite insert_app_r_alt by done. by rewrite Nat.sub_diag.
Qed.

Lemma dedup_inv_init : tasks w0 = [] → jobs w0 = [] → inv w0.
Proof.
  intros Ht Hj. unfold dedup_inv. rewrite Ht.
  repeat split; try done. left. by repeat split.
Qed.

Lemma dedup_inv_step (w : World) (e : Event) :
  inv w → concurrent_request w0 webviewId path e = true → inv (step w e).
Proof.
  intros (Hso & Hcl & Hj & Hok & Hcase) He.
  destruct e as [event|source data|tid|]; simpl in He; [|done| |].
  - (* a request arrives *)
    destruct (requests_key_inv event He) as (Ho & Hs & _ & _).
    rewrite step_fetch_resource by (by rewrite ?Hso).
    unfold dedup_inv. simpl. repeat split; try done.
    { apply Forall_app. split; [done|]. by apply Forall_singleton. }
    destruct Hcase as [(Hst & Hpo & Hno)|(rs & Hrs & Hst & Hpo & Hiff)].
    + left. repeat split; try done. apply Forall_app. split; [done|].
      by apply Forall_singleton.
    + right. exists rs. repeat split; try done.
      * intros Hin. apply Hiff in Hin as [ev Hev]. exists ev.
        by apply lookup_app_l_Some.
      * intros [ev Hev]. apply Hiff.
        apply lookup_app_Some in Hev as [Hev|[_ Hev]]; [by exists ev|].
        destruct (tid - length (tasks w)) as [|n]; simpl in Hev; [done|].
        by destruct n.
  - (* a handler is resumed *)
    destruct (tasks w !! tid) as [t|] eqn:Ht.
    2:{ simpl. rewrite Ht. unfold dedup_inv. by repeat split. }
    assert (Hlt : tid < length (tasks w)) by (by eapply lookup_lt_Some).
    pose proof (proj1 (Forall_lookup _ _) Hok tid t Ht) as Hokt.
    destruct t as [event|event id pth|event p| | | | | |]; simpl in Hokt; try done.
    + (* the inner client is known *)
      destruct (requests_key_inv event Hokt) as (_ & _ & (client & Hc & Hid) & Hp).
      rewrite (step_resume_client w tid event client webviewId Ht)
        by (by rewrite ?Hcl).
      rewrite Hp. unfold dedup_inv. simpl. repeat split; try done.
      { by apply Forall_insert. }
      destruct Hcase as [(Hst & Hpo & Hno)|(rs & Hrs & Hst & Hpo & Hiff)].
      * left. repeat split; try done. by apply Forall_insert.
      * right. exists rs. repeat split; try done.
        -- intros Hin. apply Hiff in Hin as [ev Hev]. exists ev.
           rewrite list_lookup_insert_ne; [done|]. intros <-. congruence.
        -- intros [ev Hev]. apply Hiff. exists ev.
           apply list_lookup_insert_Some in Hev as [(_ & Hev & _)|[_ Hev]]; done.
    + (* the controller is known: the store is reached *)
      destruct Hokt as [-> ->].
      destruct Hcase as [(Hst & Hpo & Hno)|(rs & Hrs & Hst & Hpo & Hiff)].
      * rewrite (step_resume_create w tid event webviewId path parent Ht)
          by (by rewrite ?Hcl, ?Hst).
        unfold dedup_inv. simpl. rewrite Hj. repeat split; try done.
        { by apply Forall_insert; [|simpl; rewrite Hst]. }
        right. exists [tid]. rewrite Hst, Hpo. repeat split; try done.
        -- intros ->%list_elem_of_singleton. exists event.
           by apply list_lookup_insert_eq.
        -- intros [ev Hev]. apply list_elem_of_singleton.
           apply list_lookup_insert_Some in Hev as [(? & _ & _)|[_ Hev]]; [done|].
           pose proof (proj1 (Forall_lookup _ _) Hno _ _ Hev). done.
      * rewrite (step_resume_join w tid event webviewId path parent p0 Ht)
          by (by rewrite ?Hcl, ?Hst, ?store_created_get).
        rewrite Hst, store_created_then.
        unfold dedup_inv. simpl. rewrite Hj. repeat split; try done.
        { by apply Forall_insert. }
        right. exists (rs ++ [tid]). repeat split; try done.
        -- by destruct rs.
        -- intros [Hin| ->%list_elem_of_singleton]%elem_of_app.
           ++ apply Hiff in Hin as [ev Hev]. exists ev.
              rewrite list_lookup_insert_ne; [done|]. intros <-. congruence.
           ++ exists event. by apply list_lookup_insert_eq.
        -- intros [ev Hev]. apply elem_of_app.
           apply list_lookup_insert_Some in Hev as [(? & _ & _)|[_ Hev]].
           ++ right. by apply list_elem_of_singleton.
           ++ left. apply Hiff. by exists ev.
    + (* already waiting on the entry *)
      simpl. rewrite Ht. unfold dedup_inv. by repeat split.
  - (* no reaction is waiting *)
    simpl. rewrite Hj. unfold dedup_inv. by repeat split.
Qed.

Lemma dedup_inv_run (es : list Event) (w : World) :
  inv w → forallb (concurrent_request w0 webviewId path) es = true → inv (run w es).
Proof.
  revert w. induction es as [|e es IH]; intros w Hw Hes; [done|].
  simpl in Hes. apply andb_prop in Hes as [He Hes].
  apply (IH (step w e)); [by apply dedup_inv_step|done].
Qed.

End Dedup.

Lemma deliver_not_awaiting (v : option Resource) (t : Task) :
  awaits_entry t = false → deliver v t = t.
Proof. by destruct t. Qed.

Lemma drain_no_jobs (w : World) : jobs w = [] → drain w = w.
Proof. intros Hj. unfold drain. by rewrite Hj. Qed.

(** C1: requests for one key that arrive and are resumed in any order,
    starting when the store has no entry for the key. Every handler is at one
    of its program points for that key, and those that reached the store wait
    on the same entry; the store only gained that entry; one [load-resource]
    message was posted to the controller as soon as one handler reached the
    store, and none before; and when the controller's [did-load-resource]
    message for the key arrives, every waiting request is answered with the
    same materialised value, the other tasks being left as they are. *)
Theorem concurrent_requests_share_one_entry (w0 : World) (webviewId path : string)
    (parent source : Client) (es : list Event)
    (status : Z) (data : bytes) (mime : string) :
  tasks w0 = [] →
  jobs w0 = [] →
  RequestStore.get (resourceRequestStore w0) webviewId path = None →
  getOuterIframeClient (clients w0) webviewId = Return (Some parent) →
  getWebviewIdForClient source = Return webviewId →
  forallb (concurrent_request w0 webviewId path) es = true →
  let store0 := resourceRequestStore w0 in
  let p0 := length (RequestStore.heap store0) in
  let w := run w0 es in
  let reached := existsb awaits_entry (tasks w) in
  let response := if (status =? 200)%Z then Some (mkResource data mime) else None in
  let w' := drain (step w (MessageFrom source (DidLoadResource path status data mime))) in
  length (tasks w) = length (List.filter is_fetch es)
  ∧ Forall (at_key webviewId path p0) (tasks w)
  ∧ RequestStore.map (resourceRequestStore w)
    = (if reached then <[RequestStore._key webviewId path := p0]> (RequestStore.map store0)
       else RequestStore.map store0)
  ∧ posted w = posted w0 ++ (if reached then [(parent, LoadResource path)] else [])
  ∧ tasks w' = deliver response <$> tasks w.
Proof.
  intros Ht0 Hj0 Hget0 Hparent Hid Hes store0 p0 w reached response w'.
  assert (Hinv : dedup_inv w0 webviewId path parent w).
  { apply dedup_inv_run; [done..| |done]. by apply dedup_inv_init. }
  destruct Hinv as (Hso & Hcl & Hj & Hok & Hcase).
  split.
  { subst w. rewrite run_length_tasks, Ht0. simpl. lia. }
  split.
  { eapply Forall_impl; [exact Hok|]. intros t Ht. unfold at_key.
    destruct t; simpl in Ht; try done.
    - eexists. by left.
    - destruct Ht as [-> ->]. eexists. right. by left.
    - subst. eexists. right. by right. }
  destruct Hcase as [(Hst & Hpo & Hno)|(rs & Hrs & Hst & Hpo & Hiff)].
  - (* no handler has reached the store *)
    assert (Hreached : reached = false).
    { subst reached. apply not_true_is_false. intros Hex.
      apply existsb_exists in Hex as (t & Hin & Ht).
      apply list_elem_of_In in Hin.
      pose proof (proj1 (Forall_forall _ _) Hno t Hin). congruence. }
    rewrite Hreached, Hst, Hpo, app_nil_r. split; [done|]. split; [done|].
    subst w'.
    change (step w (MessageFrom source (DidLoadResource path status data mime)))
      with (message_listener w source (DidLoadResource path status data mime)).
    rewrite (orphan_resource_message w source webviewId path status data mime Hid)
      by (by rewrite Hst).
    rewrite drain_no_jobs by done. simpl.
    apply list_eq. intros i. rewrite list_lookup_fmap.
    destruct (tasks w !! i) as [t|] eqn:Hi; [|done]. simpl.
    rewrite deliver_not_awaiting; [done|].
    by apply (proj1 (Forall_lookup _ _) Hno i t).
  - (* the entry exists and [rs] wait on it *)
    assert (Hreached : reached = true).
    { subst reached. apply existsb_exists.
      destruct rs as [|r rs]; [done|].
      destruct (proj1 (Hiff r) ltac:(apply list_elem_of_here)) as [ev Hev].
      exists (ResourceAwaitEntry ev p0). split; [|done].
      apply list_elem_of_In. by eapply list_elem_of_lookup_2. }
    rewrite Hreached, Hst, Hpo. split; [done|]. split; [done|].
    destruct (step_message_pending w source webviewId path status data mime p0 rs
                Hid) as [_ Hstep].
    { rewrite Hst. by apply store_created_get. }
    { rewrite Hst. by apply store_created_heap. }
    fold response in Hstep.
    set (w1 := step w (MessageFrom source (DidLoadResource path status data mime))) in *.
    assert (Hj1 : jobs w1 = (fun tid => ResourceJob tid response) <$> rs).
    { rewrite Hstep. simpl. by rewrite Hj. }
    destruct (drain_resource_jobs rs response w1 Hj1) as (_ & _ & Hd).
    apply list_eq. intros i. fold w'. rewrite Hd, list_lookup_fmap.
    assert (Htw : tasks w1 = tasks w) by (by rewrite Hstep).
    rewrite Htw.
    destruct (decide (i ∈ rs)) as [Hin|Hnin]; [done|].
    destruct (tasks w !! i) as [t|] eqn:Hi; [|done]. simpl.
    rewrite deliver_not_awaiting; [done|].
    pose proof (proj1 (Forall_lookup _ _) Hok i t Hi) as Hokt.
    destruct t; try done. simpl in Hokt. subst.
    exfalso. apply Hnin, Hiff. by eexists.
Qed.

Lemma concurrent_requests_share_one_entry_witness :
  let es := [Fetch image_request; Fetch image_request; Resume 0; Fetch image_request;
             Resume 1; Resume 1; Resume 0; Resume 2; Microtask; Resume 2] in
  let w := run worker es in
  let w' := drain (step w (MessageFrom controller
                             (DidLoadResource "/img.png" 200 png "image/png"))) in
  let answer := Fulfilled (Respond
                  (mkResponse (DataBody png) 200 [("Content-Type", "image/png")])) in
  forallb (concurrent_request worker "s1" "/img.png") es = true
  ∧ length (tasks w) = 3
  ∧ Forall (at_key "s1" "/img.png" 0) (tasks w)
  ∧ existsb awaits_entry (tasks w) = true
  ∧ posted w = [(controller, LoadResource "/img.png")]
  ∧ tasks w' = [answer; answer; answer].
Proof.
  intros es w w' answer.
  assert (Hes : forallb (concurrent_request worker "s1" "/img.png") es = true)
    by (vm_compute; reflexivity).
  destruct (concurrent_requests_share_one_entry worker "s1" "/img.png"
              controller controller es 200 png "image/png")
    as (H1 & H2 & _ & H4 & H5); try (vm_compute; reflexivity).
  split; [exact Hes|].
  split; [etrans; [exact H1|reflexivity]|].
  split; [exact H2|].
  split; [vm_compute; reflexivity|].
  split; [etrans; [exact H4|vm_compute; reflexivity]|].
  etrans; [exact H5|vm_compute; reflexivity].
Defined.

(** ** Concurrent requests to one local origin *)

Lemma deliver_redirect_idemp v t :
  deliver_redirect v (deliver_redirect v t) = deliver_redirect v t.
Proof. destruct t; simpl; try done. by destruct (resolveRedirect event v). Qed.

Lemma deliver_redirect_not_awaiting (v : option string) (t : Task) :
  awaits_localhost_entry t = false → deliver_redirect v t = t.
Proof. by destruct t. Qed.

Lemma run_job_localhost (w : World) (r : nat) (v : option string) :
  let w' := run_job w (LocalhostJob r v) in
  same_but_tasks w w' ∧ jobs w' = jobs w
  ∧ ∀ tid, tasks w' !! tid
           = if decide (tid = r) then deliver_redirect v <$> tasks w !! tid
             else tasks w !! tid.
Proof.
  simpl. destruct (tasks w !! r) as [t|] eqn:Ht.
  - assert (Hlt : r < length (tasks w)) by (by eapply lookup_lt_Some).
    assert (Hset : ∀ t', let w' := set_task w r t' in
              same_but_tasks w w' ∧ jobs w' = jobs w
              ∧ ∀ tid, tasks w' !! tid
                       = if decide (tid = r) then Some t' else tasks w !! tid).
    { intros t'. simpl. split; [by repeat split; simpl; rewrite ?length_insert|].
      split; [done|]. intros tid. case_decide; subst.
      - by apply list_lookup_insert_eq.
      - by apply list_lookup_insert_ne. }
    destruct t as [| | | | |event p| | |];
      try (split; [by repeat split|]; split; [done|];
           intros tid; case_decide; subst; by rewrite ?Ht).
    destruct (Hset (deliver_redirect v (LocalhostAwaitEntry event p)))
      as (H1 & H2 & H3).
    simpl in H1, H2, H3.
    destruct (resolveRedirect event v) as [o|] eqn:Hr;
      (split; [done|]; split; [done|]);
      intros tid; rewrite H3; case_decide; subst; rewrite ?Ht; simpl;
      by rewrite ?Hr.
  - split; [by repeat split|]. split; [done|].
    intros tid; case_decide; subst; by rewrite ?Ht.
Qed.

Lemma drain_localhost_jobs (rs : list nat) (v : option string) (w : World) :
  jobs w = (fun tid => LocalhostJob tid v) <$> rs →
  same_but_tasks w (drain w) ∧ jobs (drain w) = []
  ∧ ∀ tid, tasks (drain w) !! tid
           = if decide (tid ∈ rs) then deliver_redirect v <$> tasks w !! tid
             else tasks w !! tid.
Proof.
  revert w. induction rs as [|r rs IH]; intros w Hj.
  - unfold drain. rewrite Hj. simpl. split; [by repeat split|]. split; [done|].
    intros tid. destruct (decide (tid ∈ [])) as [Hin|]; [|done].
    by apply elem_of_nil in Hin.
  - unfold drain. rewrite Hj. simpl. rewrite Hj. simpl.
    set (wa := set_jobs w ((fun tid => LocalhostJob tid v) <$> rs)).
    destruct (run_job_localhost wa r v) as (Hsame & Hjobs & Htasks).
    set (w1 := run_job wa (LocalhostJob r v)) in *.
    assert (Hj1 : jobs w1 = (fun tid => LocalhostJob tid v) <$> rs) by done.
    destruct (IH w1 Hj1) as (Hsame' & Hjobs' & Htasks').
    unfold drain in Hsame', Hjobs', Htasks'. rewrite Hj1, length_fmap in *.
    split; [|split; [done|]].
    + apply (same_but_tasks_trans _ w1); [|done].
      apply (same_but_tasks_trans _ wa); [by repeat split|done].
    + intros tid. rewrite Htasks', Htasks. simpl.
      destruct (decide (tid = r)) as [->|Hne].
      * rewrite (decide_True (P := r ∈ r :: rs)) by apply list_elem_of_here.
        case_decide; [|done]. destruct (tasks w !! r); simpl; [|done].
        by rewrite deliver_redirect_idemp.
      * destruct (decide (tid ∈ rs)) as [Hin|Hnin].
        -- by rewrite (decide_True (P := tid ∈ r :: rs))
             by (by apply list_elem_of_further).
        -- rewrite (decide_False (P := tid ∈ r :: rs)); [done|].
           by intros [->|?]%elem_of_cons.
Qed.

Lemma step_fetch_localhost (w : World) (event : FetchEvent) :
  String.eqb (origin (request_url event)) (self_origin w) = false →
  matches (host (request_url event)) localhostPattern = true →
  step w (Fetch event) = spawn w (LocalhostAwaitClient event).
Proof.
  intros Ho Hm. simpl. unfold fetch_listener. by rewrite Ho, Hm.
Qed.

Lemma step_resume_localhost_client (w : World) (tid : nat) (event : FetchEvent)
    (client : Client) (webviewId : string) :
  tasks w !! tid = Some (LocalhostAwaitClient event) →
  clients_get (clients w) (clientId event) = Some client →
  getWebviewIdForClient client = Return webviewId →
  step w (Resume tid) = set_task w tid (LocalhostAwaitParent event webviewId).
Proof.
  intros Ht Hc Hid. simpl. rewrite Ht. unfold processLocalhostRequest_client.
  by rewrite Hc, Hid.
Qed.

Lemma step_resume_localhost_join (w : World) (tid : nat) (event : FetchEvent)
    (webviewId : string) (parent : Client) (p : nat) :
  tasks w !! tid = Some (LocalhostAwaitParent event webviewId) →
  getOuterIframeClient (clients w) webviewId = Return (Some parent) →
  RequestStore.get (localhostRequestStore w) webviewId (origin (request_url event))
    = Some p →
  step w (Resume tid)
  = set_task
      (set_localhost w (RequestStore.then_ (localhostRequestStore w) p tid).1
                       (RequestStore.then_ (localhostRequestStore w) p tid).2)
      tid (LocalhostAwaitEntry event p).
Proof.
  intros Ht Hp Hg. simpl. rewrite Ht. unfold processLocalhostRequest_parent.
  rewrite Hp, Hg. by destruct (RequestStore.then_ (localhostRequestStore w) p tid).
Qed.

Lemma step_resume_localhost_create (w : World) (tid : nat) (event : FetchEvent)
    (webviewId : string) (parent : Client) :
  tasks w !! tid = Some (LocalhostAwaitParent event webviewId) →
  getOuterIframeClient (clients w) webviewId = Return (Some parent) →
  RequestStore.get (localhostRequestStore w) webviewId (origin (request_url event))
    = None →
  let p := length (RequestStore.heap (localhostRequestStore w)) in
  step w (Resume tid)
  = set_task
      (set_localhost (postMessage w parent (LoadLocalhost (origin (request_url event))))
         (RequestStore.mk
            (<[RequestStore._key webviewId (origin (request_url event)) := p]>
               (RequestStore.map (localhostRequestStore w)))
            (RequestStore.heap (localhostRequestStore w)
               ++ [RequestStore.mkPromise None [tid]]))
         [])
      tid (LocalhostAwaitEntry event p).
Proof.
  intros Ht Hp Hg. simpl. rewrite Ht. unfold processLocalhostRequest_parent.
  rewrite Hp, Hg. unfold RequestStore.create. simpl. rewrite Hg.
  unfold RequestStore.then_, RequestStore.Promise_then. simpl.
  rewrite lookup_app_r by done. rewrite Nat.sub_diag. simpl.
  rewrite insert_app_r_alt by done. by rewrite Nat.sub_diag.
Qed.

Lemma step_localhost_message_pending (w : World) (source : Client)
    (webviewId origin0 : string) (location : option string)
    (p : nat) (observers : list nat) :
  getWebviewIdForClient source = Return webviewId →
  RequestStore.get (localhostRequestStore w) webviewId origin0 = Some p →
  RequestStore.heap (localhostRequestStore w) !! p
    = Some (RequestStore.mkPromise None observers) →
  step w (MessageFrom source (DidLoadLocalhost origin0 location))
  = mkWorld (self_origin w) (clients w) (resourceRequestStore w)
      (RequestStore.mk (RequestStore.map (localhostRequestStore w))
         (<[p := RequestStore.mkPromise (Some location) []]>
            (RequestStore.heap (localhostRequestStore w))))
      (tasks w)
      (jobs w ++ ((fun tid => LocalhostJob tid location) <$> observers))
      (posted w) (console w).
Proof.
  intros Hid Hg Hp.
  simpl. unfold message_listener. rewrite Hid.
  unfold RequestStore.resolve. rewrite Hg.
  unfold RequestStore.Promise_resolve. rewrite Hp.
  unfold set_localhost. simpl. by rewrite <- list_fmap_compose.
Qed.

Section LocalhostDedup.
Variables (w0 : World) (webviewId origin0 : string) (parent : Client).
Hypothesis Hget0 :
  RequestStore.get (localhostRequestStore w0) webviewId origin0 = None.
Hypothesis Hparent : getOuterIframeClient (clients w0) webviewId = Return (Some parent).

Local Abbreviation p0 := (length (RequestStore.heap (localhostRequestStore w0))).
Local Abbreviation inv := (localhost_dedup_inv w0 webviewId origin0 parent).

Lemma requests_origin_inv (event : FetchEvent) :
  requests_origin w0 webviewId origin0 event = true →
  String.eqb (origin (request_url event)) (self_origin w0) = false
  ∧ matches (host (request_url event)) localhostPattern = true
  ∧ (∃ client, clients_get (clients w0) (clientId event) = Some client
               ∧ getWebviewIdForClient client = Return webviewId)
  ∧ origin (request_url event) = origin0.
Proof.
  unfold requests_origin. intros H.
  apply andb_prop in H as [H Hp]. apply andb_prop in H as [H Hc].
  apply andb_prop in H as [Ho Hs].
  apply String.eqb_eq in Hp. apply negb_true_iff in Ho. repeat split; try done.
  destruct (clients_get (clients w0) (clientId event)) as [client|]; [|done].
  exists client. split; [done|].
  destruct (getWebviewIdForClient client) as [id|]; [|done].
  by apply String.eqb_eq in Hc as ->.
Qed.

Lemma localhost_store_created_get rs :
  RequestStore.get (localhost_store_created w0 webviewId origin0 rs) webviewId origin0
  = Some p0.
Proof.
  unfold RequestStore.get, localhost_store_created. simpl. apply lookup_insert_eq.
Qed.

Lemma localhost_store_created_heap rs :
  RequestStore.heap (localhost_store_created w0 webviewId origin0 rs) !! p0
  = Some (RequestStore.mkPromise None rs).
Proof.
  unfold localhost_store_created. simpl. rewrite lookup_app_r by done.
  by rewrite Nat.sub_diag.
Qed.

Lemma localhost_store_created_then rs tid :
  RequestStore.then_ (localhost_store_created w0 webviewId origin0 rs) p0 tid
  = (localhost_store_created w0 webviewId origin0 (rs ++ [tid]), []).
Proof.
  unfold RequestStore.then_, RequestStore.Promise_then.
  rewrite localhost_store_created_heap. unfold localhost_store_created. simpl.
  rewrite insert_app_r_alt by done. by rewrite Nat.sub_diag.
Qed.

Lemma localhost_dedup_inv_init : tasks w0 = [] → jobs w0 = [] → inv w0.
Proof.
  intros Ht Hj. unfold localhost_dedup_inv. rewrite Ht.
  repeat split; try done. left. by repeat split.
Qed.

Lemma localhost_dedup_inv_step (w : World) (e : Event) :
  inv w → concurrent_localhost_request w0 webviewId origin0 e = true → inv (step w e).
Proof.
  intros (Hso & Hcl & Hj & Hok & Hcase) He.
  destruct e as [event|source data|tid|]; simpl in He; [|done| |].
  - (* a request arrives *)
    destruct (requests_origin_inv event He) as (Ho & Hs & _ & _).
    rewrite step_fetch_localhost by (by rewrite ?Hso).
    unfold localhost_dedup_inv. simpl. repeat split; try done.
    { apply Forall_app. split; [done|]. by apply Forall_singleton. }
    destruct Hcase as [(Hst & Hpo & Hno)|(rs & Hrs & Hst & Hpo & Hiff)].
    + left. repeat split; try done. apply Forall_app. split; [done|].
      by apply Forall_singleton.
    + right. exists rs. repeat split; try done.
      * intros Hin. apply Hiff in Hin as [ev Hev]. exists ev.
        by apply lookup_app_l_Some.
      * intros [ev Hev]. apply Hiff.
        apply lookup_app_Some in Hev as [Hev|[_ Hev]]; [by exists ev|].
        destruct (tid - length (tasks w)) as [|n]; simpl in Hev; [done|].
        by destruct n.
  - (* a handler is resumed *)
    destruct (tasks w !! tid) as [t|] eqn:Ht.
    2:{ simpl. rewrite Ht. unfold localhost_dedup_inv. by repeat split. }
    assert (Hlt : tid < length (tasks w)) by (by eapply lookup_lt_Some).
    pose proof (proj1 (Forall_lookup _ _) Hok tid t Ht) as Hokt.
    destruct t as [| | |event|event id|event p| | |]; simpl in Hokt; try done.
    + (* the inner client is known *)
      destruct (requests_origin_inv event Hokt) as (_ & _ & (client & Hc & Hid) & Hp).
      rewrite (step_resume_localhost_client w tid event client webviewId Ht)
        by (by rewrite ?Hcl).
      unfold localhost_dedup_inv. simpl. repeat split; try done.
      { by apply Forall_insert. }
      destruct Hcase as [(Hst & Hpo & Hno)|(rs & Hrs & Hst & Hpo & Hiff)].
      * left. repeat split; try done. by apply Forall_insert.
      * right. exists rs. repeat split; try done.
        -- intros Hin. apply Hiff in Hin as [ev Hev]. exists ev.
           rewrite list_lookup_insert_ne; [done|]. intros <-. congruence.
        -- intros [ev Hev]. apply Hiff. exists ev.
           apply list_lookup_insert_Some in Hev as [(_ & Hev & _)|[_ Hev]]; done.
    + (* the controller is known: the store is reached *)
      destruct Hokt as [-> Horigin].
      destruct Hcase as [(Hst & Hpo & Hno)|(rs & Hrs & Hst & Hpo & Hiff)].
      * rewrite (step_resume_localhost_create w tid event webviewId parent Ht)
          by (by rewrite ?Hcl, ?Hst, ?Horigin).
        rewrite Horigin.
        unfold localhost_dedup_inv. simpl. rewrite Hj. repeat split; try done.
        { by apply Forall_insert; [|simpl; rewrite Hst]. }
        right. exists [tid]. rewrite Hst, Hpo. repeat split; try done.
        -- intros ->%list_elem_of_singleton. exists event.
           by apply list_lookup_insert_eq.
        -- intros [ev Hev]. apply list_elem_of_singleton.
           apply list_lookup_insert_Some in Hev as [(? & _ & _)|[_ Hev]]; [done|].
           pose proof (proj1 (Forall_lookup _ _) Hno _ _ Hev). done.
      * rewrite (step_resume_localhost_join w tid event webviewId parent p0 Ht)
          by (by rewrite ?Hcl, ?Hst, ?Horigin, ?localhost_store_created_get).
        rewrite Hst, localhost_store_created_then.
        unfold localhost_dedup_inv. simpl. rewrite Hj. repeat split; try done.
        { by apply Forall_insert. }
        right. exists (rs ++ [tid]). repeat split; try done.
        -- by destruct rs.
        -- intros [Hin| ->%list_elem_of_singleton]%elem_of_app.
           ++ apply Hiff in Hin as [ev Hev]. exists ev.
              rewrite list_lookup_insert_ne; [done|]. intros <-. congruence.
           ++ exists event. by apply list_lookup_insert_eq.
        -- intros [ev Hev]. apply elem_of_app.
           apply list_lookup_insert_Some in Hev as [(? & _ & _)|[_ Hev]].
           ++ right. by apply list_elem_of_singleton.
           ++ left. apply Hiff. by exists ev.
    + (* already waiting on the entry *)
      simpl. rewrite Ht. unfold localhost_dedup_inv. by repeat split.
  - (* no reaction is waiting *)
    simpl. rewrite Hj. unfold localhost_dedup_inv. by repeat split.
Qed.

Lemma localhost_dedup_inv_run (es : list Event) (w : World) :
  inv w →
  forallb (concurrent_localhost_request w0 webviewId origin0) es = true →
  inv (run w es).
Proof.
  revert w. induction es as [|e es IH]; intros w Hw Hes; [done|].
  simpl in Hes. apply andb_prop in Hes as [He Hes].
  apply (IH (step w e)); [by apply localhost_dedup_inv_step|done].
Qed.

End LocalhostDedup.

(** X1: requests to one local origin share one entry. For any schedule of
    requests of one session to one origin and of resumptions of their
    handlers, started with no entry for the origin, the store gets one entry
    and the controller one [load-localhost] message as soon as a handler
    reaches the store, and the controller's answer gives every waiting
    handler the same redirect decision. *)
Theorem concurrent_localhost_requests_share_one_entry (w0 : World)
    (webviewId origin0 : string) (parent source : Client) (es : list Event)
    (location : option string) :
  tasks w0 = [] →
  jobs w0 = [] →
  RequestStore.get (localhostRequestStore w0) webviewId origin0 = None →
  getOuterIframeClient (clients w0) webviewId = Return (Some parent) →
  getWebviewIdForClient source = Return webviewId →
  forallb (concurrent_localhost_request w0 webviewId origin0) es = true →
  let store0 := localhostRequestStore w0 in
  let p0 := length (RequestStore.heap store0) in
  let w := run w0 es in
  let reached := existsb awaits_localhost_entry (tasks w) in
  let w' := drain (step w (MessageFrom source (DidLoadLocalhost origin0 location))) in
  length (tasks w) = length (List.filter is_fetch es)
  ∧ Forall (at_origin webviewId origin0 p0) (tasks w)
  ∧ RequestStore.map (localhostRequestStore w)
    = (if reached
       then <[RequestStore._key webviewId origin0 := p0]> (RequestStore.map store0)
       else RequestStore.map store0)
  ∧ posted w = posted w0 ++ (if reached then [(parent, LoadLocalhost origin0)] else [])
  ∧ tasks w' = deliver_redirect location <$> tasks w.
Proof.
  intros Ht0 Hj0 Hget0 Hparent Hid Hes store0 p0 w reached w'.
  assert (Hinv : localhost_dedup_inv w0 webviewId origin0 parent w).
  { apply localhost_dedup_inv_run; [done..| |done]. by apply localhost_dedup_inv_init. }
  destruct Hinv as (Hso & Hcl & Hj & Hok & Hcase).
  split.
  { subst w. rewrite run_length_tasks, Ht0. simpl. lia. }
  split.
  { eapply Forall_impl; [exact Hok|]. intros t Ht. unfold at_origin.
    destruct t; simpl in Ht; try done.
    - destruct (requests_origin_inv w0 webviewId origin0 event Ht) as (_ & _ & _ & Ho).
      exists event. split; [done|]. by left.
    - destruct Ht as [-> Ho]. exists event. split; [done|]. right. by left.
    - destruct Ht as [-> Ho]. exists event. split; [done|]. right. by right. }
  destruct Hcase as [(Hst & Hpo & Hno)|(rs & Hrs & Hst & Hpo & Hiff)].
  - assert (Hreached : reached = false).
    { subst reached. apply not_true_is_false. intros Hex.
      apply existsb_exists in Hex as (t & Hin & Ht).
      apply list_elem_of_In in Hin.
      pose proof (proj1 (Forall_forall _ _) Hno t Hin). congruence. }
    rewrite Hreached, Hst, Hpo, app_nil_r. split; [done|]. split; [done|].
    subst w'.
    change (step w (MessageFrom source (DidLoadLocalhost origin0 location)))
      with (message_listener w source (DidLoadLocalhost origin0 location)).
    rewrite (orphan_localhost_message w source webviewId origin0 location Hid)
      by (by rewrite Hst).
    rewrite drain_no_jobs by done. simpl.
    apply list_eq. intros i. rewrite list_lookup_fmap.
    destruct (tasks w !! i) as [t|] eqn:Hi; [|done]. simpl.
    rewrite deliver_redirect_not_awaiting; [done|].
    by apply (proj1 (Forall_lookup _ _) Hno i t).
  - assert (Hreached : reached = true).
    { subst reached. apply existsb_exists.
      destruct rs as [|r rs]; [done|].
      destruct (proj1 (Hiff r) ltac:(apply list_elem_of_here)) as [ev Hev].
      exists (LocalhostAwaitEntry ev p0). split; [|done].
      apply list_elem_of_In. by eapply list_elem_of_lookup_2. }
    rewrite Hreached, Hst, Hpo. split; [done|]. split; [done|].
    pose proof (step_localhost_message_pending w source webviewId origin0 location
                  p0 rs Hid) as Hstep.
    rewrite Hst in Hstep.
    specialize (Hstep (localhost_store_created_get _ _ _ _)
                      (localhost_store_created_heap _ _ _ _)).
    set (w1 := step w (MessageFrom source (DidLoadLocalhost origin0 location))) in *.
    assert (Hj1 : jobs w1 = (fun tid => LocalhostJob tid location) <$> rs).
    { rewrite Hstep. simpl. by rewrite Hj. }
    destruct (drain_localhost_jobs rs location w1 Hj1) as (_ & _ & Hd).
    apply list_eq. intros i. fold w'. rewrite Hd, list_lookup_fmap.
    assert (Htw : tasks w1 = tasks w) by (by rewrite Hstep).
    rewrite Htw.
    destruct (decide (i ∈ rs)) as [Hin|Hnin]; [done|].
    destruct (tasks w !! i) as [t|] eqn:Hi; [|done]. simpl.
    rewrite deliver_redirect_not_awaiting; [done|].
    pose proof (proj1 (Forall_lookup _ _) Hok i t Hi) as Hokt.
    destruct t; try done. simpl in Hokt. destruct Hokt as [-> _].
    exfalso. apply Hnin, Hiff. by eexists.
Qed.

Lemma concurrent_localhost_requests_example :
  let es := [Fetch page_request; Fetch page_request; Resume 0; Resume 1;
             Resume 1; Resume 0] in
  let w := run worker es in
  let w' := drain (step w (MessageFrom controller
              (DidLoadLocalhost "http://localhost:8080" (Some "http://localhost:9090")))) in
  let answer := Fulfilled (Respond
                  (mkResponse NoBody 302
                     [("Location", "http://localhost:9090/app/page?x=1")])) in
  posted w = [(controller, LoadLocalhost "http://localhost:8080")]
  ∧ tasks w' = [answer; answer].
Proof.
  intros es w w' answer.
  destruct (concurrent_localhost_requests_share_one_entry worker "s1"
              "http://localhost:8080" controller controller es
              (Some "http://localhost:9090"))
    as (_ & _ & _ & H4 & H5); try (vm_compute; reflexivity).
  split; [etrans; [exact H4|vm_compute; reflexivity]|].
  etrans; [exact H5|vm_compute; reflexivity].
Defined.

(** ** The redirect of a request to a local server *)




(** ** What the matcher consumed *)

Lemma single_inv (p : ascii → bool) (k : Cont) (st res : MState) :
  single p k st = Some res →
  ∃ c r, rest st = c :: r ∧ p c = true
         ∧ k (mkMState (pre st) (c :: taken st) r (caps st)) = Some res.
Proof.
  unfold single. destruct (rest st) as [|c r]; [done|].
  destruct (p c) eqn:Hp; [|done]. intros H. by exists c, r.
Qed.

Lemma advanced_refl (st : MState) : advanced st [] st.
Proof. by repeat split. Qed.

Lemma advanced_step (st : MState) (c : ascii) (r : list ascii) (l : list ascii)
    (st' : MState) :
  rest st = c :: r →
  advanced (mkMState (pre st) (c :: taken st) r (caps st)) l st' →
  advanced st (c :: l) st'.
Proof.
  intros Hr (Hp & Hc & Ht & Hrest). simpl in *. repeat split; try done.
  - rewrite Ht. simpl. by rewrite <- app_assoc.
  - rewrite Hr, Hrest. done.
Qed.

Lemma advanced_trans (st1 st2 st3 : MState) (l1 l2 : list ascii) :
  advanced st1 l1 st2 → advanced st2 l2 st3 → advanced st1 (l1 ++ l2) st3.
Proof.
  intros (Hp1 & Hc1 & Ht1 & Hr1) (Hp2 & Hc2 & Ht2 & Hr2).
  repeat split; try congruence.
  - rewrite Ht2, Ht1, rev_app_distr. by rewrite app_assoc.
  - rewrite Hr1, Hr2. by rewrite app_assoc.
Qed.

(** A successful greedy repetition of a one-character matcher consumed a
    run of characters it accepts, and then the continuation succeeded. *)
Lemma repeat_single_inv (mr : Cont → Cont) (p : ascii → bool) (k : Cont) :
  (∀ k' st', mr k' st' = single p k' st') →
  ∀ fuel st res,
    repeatMatcher mr k fuel st = Some res →
    ∃ l st', advanced st l st' ∧ forallb p l = true ∧ k st' = Some res.
Proof.
  intros Hmr. induction fuel as [|fuel IH]; intros st res H; simpl in H.
  - exists [], st. by split; [apply advanced_refl|].
  - rewrite Hmr in H.
    destruct (single p _ st) as [res'|] eqn:Hs.
    + injection H as <-.
      apply single_inv in Hs as (c & r & Hr & Hp & Hk).
      destruct (progressed st _); [|done].
      apply IH in Hk as (l & st' & Hadv & Hall & Hk).
      exists (c :: l), st'. split; [by eapply advanced_step|].
      split; [|done]. simpl. by rewrite Hp, Hall.
    + exists [], st. by split; [apply advanced_refl|].
Qed.

(** A greedy repetition takes the whole run when the continuation accepts
    the state after it. *)
Lemma repeat_single_greedy (mr : Cont → Cont) (p : ascii → bool) (k : Cont)
    (l : list ascii) :
  (∀ k' st', mr k' st' = single p k' st') →
  ∀ st st' fuel res,
    advanced st l st' →
    forallb p l = true →
    match rest st' with [] => true | c :: _ => negb (p c) end = true →
    length (rest st) ≤ fuel →
    k st' = Some res →
    repeatMatcher mr k fuel st = Some res.
Proof.
  intros Hmr. induction l as [|c l IH]; intros st st' fuel res Hadv Hall Hend Hfuel Hk.
  - destruct Hadv as (Hp & Hc & Ht & Hr). simpl in Ht, Hr.
    assert (st' = st) as ->.
    { destruct st, st'; simpl in *; congruence. }
    destruct fuel as [|fuel]; simpl; [done|].
    rewrite Hmr. unfold single.
    destruct (rest st) as [|c r]; [done|].
    simpl in Hend. apply negb_true_iff in Hend. by rewrite Hend.
  - destruct Hadv as (Hp & Hc & Ht & Hr). simpl in Ht, Hr, Hall.
    apply andb_prop in Hall as [Hpc Hall].
    destruct fuel as [|fuel]; [rewrite Hr in Hfuel; simpl in Hfuel; lia|].
    simpl. rewrite Hmr. unfold single at 1. rewrite Hr, Hpc.
    unfold progressed at 1. simpl. rewrite Hr. simpl.
    replace (length (l ++ rest st') <? S (length (l ++ rest st')))%nat with true
      by (symmetry; apply Nat.ltb_lt; lia).
    rewrite (IH _ st' fuel res); try done.
    + repeat split; simpl; try done. by rewrite Ht, <- app_assoc.
    + simpl. rewrite Hr in Hfuel. simpl in Hfuel. lia.
Qed.

(** A successful match of a literal consumed its characters, up to case
    under the [i] flag, and then the rest of the pattern succeeded. *)
Lemma matcher_literal_inv (ci : bool) (lit : list ascii) :
  ∀ r k st res,
    matcher ci (literal lit r) k st = Some res →
    ∃ l st1, advanced st l st1
             ∧ Forall2 (fun a b => char_eq ci a b = true) lit l
             ∧ matcher ci r k st1 = Some res.
Proof.
  induction lit as [|c lit IH]; intros r k st res H.
  - exists [], st. split; [apply advanced_refl|]. by split.
  - simpl in H. apply single_inv in H as (b & rs & Hr & Hp & Hk).
    apply IH in Hk as (l & st1 & Hadv & Hall & Hm).
    exists (b :: l), st1. split; [by eapply advanced_step|].
    split; [by constructor|done].
Qed.

(** A literal matches the text ahead when that text starts with it, up to
    case under the [i] flag. *)
Lemma matcher_literal_ci (ci : bool) (lit : list ascii) :
  ∀ r k st tail,
    rest st = lit ++ tail →
    matcher ci (literal lit r) k st
    = matcher ci r k (mkMState (pre st) (rev lit ++ taken st) tail (caps st)).
Proof.
  induction lit as [|c lit IH]; intros r k st tail Hrest.
  - simpl in *. destruct st; simpl in *. by subst.
  - simpl. unfold single. rewrite Hrest. simpl.
    assert (char_eq ci c c = true) as ->.
    { unfold char_eq. destruct ci; apply Ascii.eqb_refl. }
    rewrite (IH r k _ tail) by done. simpl. by rewrite <- app_assoc.
Qed.

(** A result of [search_from] is the result of one attempt at some
    position of the text. *)
Lemma search_from_inv (re : RegExp) :
  ∀ s pre0 res,
    search_from re pre0 s = Some res →
    ∃ pre1 s1 st,
      rev pre1 ++ s1 = rev pre0 ++ s
      ∧ matcher (ignoreCase re) (pattern re) Some (mkMState pre1 [] s1 []) = Some st
      ∧ res = mkMatchResult (rev pre1) (rev (taken st)) (rest st) (caps st).
Proof.
  induction s as [|c s IH]; intros pre0 res H; simpl in H.
  - destruct (matcher _ _ Some _) as [st|] eqn:Hm; [|done].
    injection H as <-. by exists pre0, [], st.
  - destruct (matcher _ _ Some _) as [st|] eqn:Hm.
    + injection H as <-. by exists pre0, (c :: s), st.
    + apply IH in H as (pre1 & s1 & st & Heq & Hm1 & Hres).
      exists pre1, s1, st. split; [|done]. rewrite Heq. simpl.
      by rewrite <- app_assoc.
Qed.

Lemma consumed_between_advanced (st st' : MState) (l : list ascii) :
  advanced st l st' → consumed_between st st' = l.
Proof.
  intros (_ & _ & Ht & _). unfold consumed_between. rewrite Ht.
  rewrite length_app, length_rev.
  replace (length l + length (taken st) - length (taken st)) with (length (rev l))
    by (rewrite length_rev; lia).
  by rewrite take_app_length, rev_involutive.
Qed.

Lemma chars_str (l : list ascii) : chars (str l) = l.
Proof. apply list_ascii_of_string_of_list_ascii. Qed.

Lemma id_class_spec (c : ascii) :
  xorb false (class_member true [("a", "z"); ("0", "9"); ("-", "-")]%char c)
  = is_id_char c.
Proof. destruct c as [[] [] [] [] [] [] [] []]; reflexivity. Qed.

Lemma id_char_plain (c : ascii) : is_id_char c = true → is_plain c = true.
Proof. destruct c as [[] [] [] [] [] [] [] []]; vm_compute; done. Qed.

Lemma id_char_not_at (c : ascii) :
  is_id_char c = true → Ascii.eqb c "@"%char = false.
Proof. destruct c as [[] [] [] [] [] [] [] []]; vm_compute; done. Qed.

Lemma forallb_pointwise {A : Type} (f g : A → bool) (l : list A) :
  (∀ x, f x = g x) → forallb f l = forallb g l.
Proof. intros H. induction l as [|x l IH]; simpl; [done|]. by rewrite H, IH. Qed.

Lemma search_from_skip (re : RegExp) (pre0 : list ascii) (c : ascii) (s : list ascii) :
  matcher (ignoreCase re) (pattern re) Some (mkMState pre0 [] (c :: s) []) = None →
  search_from re pre0 (c :: s) = search_from re (c :: pre0) s.
Proof. intros H. simpl. by rewrite H. Qed.

(** ** The session identifier of a client *)

Lemma webviewId_group_inv (pre1 s1 : list ascii) (st : MState) :
  matcher true (pattern webviewIdPattern) Some (mkMState pre1 [] s1 []) = Some st →
  ∃ l, l ≠ [] ∧ forallb is_id_char l = true ∧ caps st = [(1, l)].
Proof.
  cbn [webviewIdPattern pattern matcher]. intros H.
  destruct (xorb _ _); [|done].
  apply matcher_literal_inv in H as (l0 & st1 & Hadv0 & _ & H).
  cbn [matcher] in H.
  apply single_inv in H as (c & r & Hr & Hc & H).
  eapply (repeat_single_inv _ _ _ (fun k' st' => eq_refl)) in H
    as (l & st' & Hadv & Hall & Hk).
  injection Hk as <-.
  exists (c :: l). split; [done|]. split.
  - simpl. rewrite <- id_class_spec, Hc. simpl.
    etrans; [|exact Hall]. apply forallb_pointwise. intros x.
    by rewrite id_class_spec.
  - unfold capture. simpl.
    rewrite (consumed_between_advanced st1 st' (c :: l))
      by (by eapply advanced_step).
    destruct Hadv as (_ & -> & _ & _). simpl.
    by destruct Hadv0 as (_ & -> & _ & _).
Qed.

Lemma exec_webviewId_inv (s : string) (res : MatchResult) :
  exec webviewIdPattern s = Some res →
  ∃ l, l ≠ [] ∧ forallb is_id_char l = true ∧ group_text 1 res = l.
Proof.
  intros H. apply search_from_inv in H as (pre1 & s1 & st & _ & Hm & ->).
  apply webviewId_group_inv in Hm as (l & Hne & Hall & Hcaps).
  exists l. split; [done|]. split; [done|].
  unfold group_text. simpl. by rewrite Hcaps.
Qed.

(** X2: an identifier returned by [getWebviewIdForClient] is a non-empty
    run of letters, digits and hyphens. *)
Theorem webviewId_shape (client : Client) (webviewId : string) :
  getWebviewIdForClient client = Return webviewId →
  webviewId ≠ "" ∧ forallb is_id_char (chars webviewId) = true.
Proof.
  unfold getWebviewIdForClient.
  destruct (exec webviewIdPattern _) as [res|] eqn:He; [|done].
  intros [= <-]. apply exec_webviewId_inv in He as (l & Hne & Hall & ->).
  split.
  - intros Hs. apply Hne. by rewrite <- (chars_str l), Hs.
  - by rewrite chars_str.
Qed.

Lemma webviewId_shape_witness :
  getWebviewIdForClient inner_page = Return "s1"
  ∧ "s1" ≠ "" ∧ forallb is_id_char (chars "s1") = true.
Proof.
  assert (H : getWebviewIdForClient inner_page = Return "s1") by reflexivity.
  exact (conj H (webviewId_shape inner_page "s1" H)).
Defined.

Lemma exec_webviewId_query (webviewId tail : list ascii) :
  webviewId ≠ [] →
  forallb is_id_char webviewId = true →
  match tail with [] => true | c :: _ => negb (is_id_char c) end = true →
  search_from webviewIdPattern []
    ("?"%char :: "i"%char :: "d"%char :: "="%char :: webviewId ++ tail)
  = Some (mkMatchResult ["?"%char]
            ("i"%char :: "d"%char :: "="%char :: webviewId) tail [(1, webviewId)]).
Proof.
  intros Hne Hall Htail.
  destruct webviewId as [|c l]; [done|]. simpl in Hall.
  apply andb_prop in Hall as [Hc Hl].
  rewrite search_from_skip by reflexivity.
  erewrite search_from_here.
  2:{ cbn [webviewIdPattern pattern ignoreCase matcher word_before word_after
           prev_char pre taken rest head].
      change (is_word "?"%char) with false. change (is_word "i"%char) with true.
      cbn [xorb].
      rewrite (matcher_literal_ci true (chars "id=") _ _ _ ((c :: l) ++ tail)) by done.
      cbn [matcher]. unfold single at 1. cbn [rest app]. cbv beta.
      rewrite id_class_spec, Hc.
      set (st1 := mkMState ["?"%char] (rev (chars "id=") ++ []) ((c :: l) ++ tail) []).
      set (st2 := mkMState _ (c :: _) (l ++ tail) _).
      apply (repeat_single_greedy _
               (fun x => xorb false
                  (class_member true [("a", "z"); ("0", "9"); ("-", "-")]%char x))
               _ l (fun k' st' => eq_refl) st2
               (mkMState (pre st2) (rev l ++ taken st2) tail (caps st2))).
      - by repeat split.
      - etrans; [|exact Hl]. apply forallb_pointwise. intros x.
        by rewrite id_class_spec.
      - cbn [rest]. destruct tail as [|t tail]; [done|]. by rewrite id_class_spec.
      - done.
      - reflexivity. }
  cbn [capture taken rest caps pre]. f_equal. f_equal.
  - simpl. rewrite rev_app_distr, rev_involutive. by simpl.
  - f_equal. f_equal.
    apply (consumed_between_advanced
             (mkMState ["?"%char] (rev (chars "id=") ++ []) ((c :: l) ++ tail) [])
             _ (c :: l)).
    repeat split; simpl. by rewrite <- app_assoc.
Qed.

(** X3: for a client whose URL has the query [?id=] followed by an
    identifier and then nothing or a character that is not an identifier
    character, [getWebviewIdForClient] returns that identifier. *)
Theorem webviewId_of_query (client : Client) (webviewId tail : string) :
  webviewId ≠ "" →
  forallb is_id_char (chars webviewId) = true →
  match chars tail with [] => true | c :: _ => negb (is_id_char c) end = true →
  search (client_url client) = "?id=" +:+ webviewId +:+ tail →
  getWebviewIdForClient client = Return webviewId.
Proof.
  intros Hne Hall Htail Hs. unfold getWebviewIdForClient, exec. rewrite Hs.
  change (chars ("?id=" +:+ webviewId +:+ tail))
    with ("?"%char :: "i"%char :: "d"%char :: "="%char :: chars (webviewId +:+ tail)).
  rewrite chars_app, exec_webviewId_query; try done.
  - unfold group_text. simpl. by rewrite str_chars.
  - intros Hc. apply Hne. by rewrite <- (str_chars webviewId), Hc.
Qed.

Lemma webviewId_of_query_witness :
  "a1b2-c3" ≠ ""
  ∧ forallb is_id_char (chars "a1b2-c3") = true
  ∧ getWebviewIdForClient
      (mkClient "page-2"
         (mkURL "https://webview.test/index.html?id=a1b2-c3&swVersion=2"
                "https://webview.test" "webview.test" "/index.html"
                "?id=a1b2-c3&swVersion=2" ""))
    = Return "a1b2-c3".
Proof.
  assert (H1 : "a1b2-c3" ≠ "") by done.
  assert (H2 : forallb is_id_char (chars "a1b2-c3") = true) by reflexivity.
  split; [exact H1|]. split; [exact H2|].
  apply (webviewId_of_query _ "a1b2-c3" "&swVersion=2" H1 H2); reflexivity.
Defined.

(** ** Keys of sessions *)

Lemma app_at_inj (a b p q : list ascii) :
  forallb (fun c => negb (Ascii.eqb c "@"%char)) a = true →
  forallb (fun c => negb (Ascii.eqb c "@"%char)) b = true →
  a ++ "@"%char :: p = b ++ "@"%char :: q →
  a = b ∧ p = q.
Proof.
  revert b. induction a as [|x a IH]; intros [|y b] Ha Hb H; simpl in *.
  - by injection H as ->.
  - injection H as <- _. by rewrite Ascii.eqb_refl in Hb.
  - injection H as -> _. by rewrite Ascii.eqb_refl in Ha.
  - apply andb_prop in Ha as [_ Ha]. apply andb_prop in Hb as [_ Hb].
    injection H as -> H. destruct (IH b Ha Hb H) as [-> ->]. done.
Qed.

Lemma chars_inj (a b : string) : chars a = chars b → a = b.
Proof. intros H. by rewrite <- (str_chars a), <- (str_chars b), H. Qed.

Lemma key_inj_no_at (s1 s2 p1 p2 : string) :
  forallb (fun c => negb (Ascii.eqb c "@"%char)) (chars s1) = true →
  forallb (fun c => negb (Ascii.eqb c "@"%char)) (chars s2) = true →
  RequestStore._key s1 p1 = RequestStore._key s2 p2 →
  s1 = s2 ∧ p1 = p2.
Proof.
  intros H1 H2 Hk. unfold RequestStore._key in Hk.
  apply (f_equal chars) in Hk. rewrite !chars_app in Hk.
  change (chars "@@@") with ("@"%char :: chars "@@") in Hk. simpl app in Hk.
  destruct (app_at_inj _ _ _ _ H1 H2 Hk) as [Hs Hp].
  split; [by apply chars_inj|].
  apply chars_inj. by simplify_eq.
Qed.

Lemma forallb_impl {A : Type} (f g : A → bool) (l : list A) :
  (∀ x, f x = true → g x = true) → forallb f l = true → forallb g l = true.
Proof.
  intros H. induction l as [|x l IH]; simpl; [done|].
  intros [Hx Hl]%andb_prop. by rewrite (H x Hx), IH.
Qed.

Lemma webviewId_id_chars (client : Client) (webviewId : string) :
  getWebviewIdForClient client = Return webviewId →
  forallb is_id_char (chars webviewId) = true.
Proof.
  unfold getWebviewIdForClient.
  destruct (exec webviewIdPattern _) as [res|] eqn:He; [|done].
  intros [= <-]. apply exec_webviewId_inv in He as (l & _ & Hall & ->).
  by rewrite chars_str.
Qed.

(** X4: the keys of two sessions whose identifiers were read from client
    URLs are equal only for the same session and the same path: such
    requests never share an entry by accident of the [@@@] separator. *)
Theorem session_keys_do_not_collide (client1 client2 : Client)
    (webviewId1 webviewId2 path1 path2 : string) :
  getWebviewIdForClient client1 = Return webviewId1 →
  getWebviewIdForClient client2 = Return webviewId2 →
  RequestStore._key webviewId1 path1 = RequestStore._key webviewId2 path2 →
  webviewId1 = webviewId2 ∧ path1 = path2.
Proof.
  intros H1%webviewId_id_chars H2%webviewId_id_chars.
  apply key_inj_no_at.
  - eapply forallb_impl; [|exact H1]. intros c Hc.
    by rewrite (id_char_not_at c Hc).
  - eapply forallb_impl; [|exact H2]. intros c Hc.
    by rewrite (id_char_not_at c Hc).
Qed.

Lemma session_keys_do_not_collide_witness :
  getWebviewIdForClient inner_page = Return "s1"
  ∧ getWebviewIdForClient controller = Return "s1"
  ∧ RequestStore._key "s1" "/img.png" = RequestStore._key "s1" "/img.png"
  ∧ "s1" = "s1" ∧ "/img.png" = "/img.png".
Proof.
  assert (H1 : getWebviewIdForClient inner_page = Return "s1") by reflexivity.
  assert (H2 : getWebviewIdForClient controller = Return "s1") by reflexivity.
  assert (H3 : RequestStore._key "s1" "/img.png" = RequestStore._key "s1" "/img.png")
    by reflexivity.
  exact (conj H1 (conj H2 (conj H3
           (session_keys_do_not_collide inner_page controller
              "s1" "s1" "/img.png" "/img.png" H1 H2 H3)))).
Defined.

(** ** The controller of a session *)

Lemma find_outer_find (webviewId : string) (allClients : list Client) :
  forallb is_plain (chars webviewId) = true →
  find_outer webviewId allClients
  = Return (List.find (is_outer_client webviewId) allClients).
Proof.
  intros Hplain. induction allClients as [|c cs IH]; [done|].
  cbn [find_outer List.find]. unfold is_outer_client at 1.
  destruct (String.eqb _ "/"); [|exact IH].
  rewrite compile_outerPattern by done. cbn [andb].
  destruct (matches _ _); [done|exact IH].
Qed.

Lemma search_from_found (re : RegExp) (a : list ascii) :
  ∀ pre0 s st,
    matcher (ignoreCase re) (pattern re) Some (mkMState (rev a ++ pre0) [] s []) = Some st →
    search_from re pre0 (a ++ s) ≠ None.
Proof.
  induction a as [|c a IH]; intros pre0 s st Hm; simpl in *.
  - by rewrite (search_from_here re pre0 s st Hm).
  - destruct (matcher _ _ Some (mkMState pre0 [] (c :: a ++ s) [])); [done|].
    apply (IH (c :: pre0) s st). by rewrite <- app_assoc in Hm.
Qed.

Lemma webviewId_plain (client : Client) (webviewId : string) :
  getWebviewIdForClient client = Return webviewId →
  forallb is_plain (chars webviewId) = true.
Proof.
  intros H%webviewId_id_chars. eapply forallb_impl; [|exact H].
  apply id_char_plain.
Qed.

(** X5: for a session identifier read from a client URL,
    [getOuterIframeClient] does not throw and returns the first connected
    client whose path is the root and whose query matches the pattern built
    from the identifier; a client it returns is one of the connected
    clients and its path is the root. *)
Theorem outer_client_is_first_match (client : Client) (webviewId : string)
    (allClients : list Client) :
  getWebviewIdForClient client = Return webviewId →
  getOuterIframeClient allClients webviewId
  = Return (List.find (is_outer_client webviewId) allClients)
  ∧ ∀ found, getOuterIframeClient allClients webviewId = Return (Some found) →
             In found allClients
             ∧ pathname (client_url found) = "/"
             ∧ matches (search (client_url found)) (outerPattern webviewId) = true.
Proof.
  intros Hid%webviewId_plain.
  assert (Hfind : getOuterIframeClient allClients webviewId
                  = Return (List.find (is_outer_client webviewId) allClients))
    by (by apply find_outer_find).
  split; [exact Hfind|].
  intros found Hf. rewrite Hfind in Hf. injection Hf as Hf.
  apply find_some in Hf as [Hin Hq]. split; [done|].
  unfold is_outer_client in Hq. apply andb_prop in Hq as [Hp Hm].
  by apply String.eqb_eq in Hp.
Qed.

Lemma outer_client_is_first_match_witness :
  getWebviewIdForClient inner_page = Return "s1"
  ∧ getOuterIframeClient [inner_page; controller] "s1" = Return (Some controller)
  ∧ In controller [inner_page; controller]
  ∧ pathname (client_url controller) = "/".
Proof.
  assert (H : getWebviewIdForClient inner_page = Return "s1") by reflexivity.
  destruct (outer_client_is_first_match inner_page "s1" [inner_page; controller] H)
    as [H1 H2].
  assert (H3 : getOuterIframeClient [inner_page; controller] "s1"
               = Return (Some controller)) by (etrans; [exact H1|reflexivity]).
  destruct (H2 controller H3) as (H4 & H5 & _).
  exact (conj H (conj H3 (conj H4 H5))).
Defined.

Lemma last_rev_head {A : Type} (l : list A) : last (rev l) = head l.
Proof. destruct l as [|x l]; [done|]. simpl. apply last_snoc. Qed.

Lemma Forall2_char_eq (l1 l2 : list ascii) :
  Forall2 (fun a b => char_eq false a b = true) l1 l2 → l1 = l2.
Proof.
  induction 1 as [|a b l1 l2 Hab _ IH]; [done|].
  apply Ascii.eqb_eq in Hab. by subst.
Qed.

(** X6: for a session identifier without pattern syntax, the pattern of
    the lookup compiles, and the query of a client matches it exactly when
    it contains the text [id=] followed by the identifier, at its start or
    after a character that is not a word character; what follows the
    identifier is not looked at. *)
Theorem outer_pattern_matches (webviewId : string) :
  forallb is_plain (chars webviewId) = true →
  ∃ re, compile ("\bid=" +:+ webviewId) false = Some re
        ∧ ∀ query,
            matches query re = true
            ↔ ∃ a b, query = a +:+ ("id=" +:+ webviewId) +:+ b
                     ∧ match last (chars a) with
                       | Some c => is_word c = false
                       | None => True
                       end.
Proof.
  intros Hplain. exists (outerPattern webviewId).
  split; [by apply compile_outerPattern|].
  intros query. unfold matches, exec. split.
  - destruct (search_from _ _ _) as [res|] eqn:Hs; [|done]. intros _.
    apply search_from_inv in Hs as (pre1 & s1 & st & Heq & Hm & _).
    cbn [outerPattern pattern ignoreCase matcher] in Hm.
    destruct (xorb _ _) eqn:Hb; [|done].
    apply matcher_literal_inv in Hm as (l & st1 & Hadv & Hl & _).
    apply Forall2_char_eq in Hl. subst l.
    destruct Hadv as (_ & _ & _ & Hr). simpl in Hr, Heq.
    exists (str (rev pre1)), (str (rest st1)). split.
    + apply chars_inj. rewrite !chars_app, !chars_str.
      by rewrite <- Heq, Hr, <- chars_app.
    + rewrite chars_str, last_rev_head.
      unfold word_before, word_after, prev_char in Hb. simpl in Hb.
      rewrite Hr in Hb.
      change (chars ("id=" +:+ webviewId)) with ("i"%char :: chars ("d=" +:+ webviewId))
        in Hb.
      simpl in Hb. destruct (head pre1) as [c|]; [|done].
      simpl. by destruct (is_word c).
  - intros (a & b & -> & Hlast).
    destruct (search_from _ _ _) as [res|] eqn:Hs; [done|]. exfalso.
    rewrite (chars_app a), (chars_app ("id=" +:+ webviewId) b) in Hs. revert Hs.
    eapply (search_from_found _ (chars a) [] _
              (mkMState (rev (chars a) ++ [])
                 (rev (chars ("id=" +:+ webviewId)) ++ []) (chars b) [])).
    cbn [outerPattern pattern ignoreCase matcher].
    assert (xorb
              (word_before (mkMState (rev (chars a) ++ []) []
                              (chars ("id=" +:+ webviewId) ++ chars b) []))
              (word_after (mkMState (rev (chars a) ++ []) []
                             (chars ("id=" +:+ webviewId) ++ chars b) []))
            = true) as ->.
    { unfold word_before, word_after, prev_char. simpl.
      rewrite app_nil_r, <- last_rev_head, rev_involutive.
      destruct (last (chars a)) as [c|]; [by rewrite Hlast|done]. }
    rewrite (matcher_literal (chars ("id=" +:+ webviewId)) _ _ _ (chars b)) by done.
    reflexivity.
Qed.

Lemma outer_pattern_matches_witness :
  forallb is_plain (chars "s1") = true
  ∧ ∃ re, compile ("\bid=" +:+ "s1") false = Some re
          ∧ matches "?id=s12" re = true
          ∧ matches "?x=1&id=s1" re = true.
Proof.
  assert (H : forallb is_plain (chars "s1") = true) by reflexivity.
  split; [exact H|].
  destruct (outer_pattern_matches "s1" H) as (re & Hc & Hiff).
  exists re. split; [exact Hc|]. split.
  - apply Hiff. exists "?", "2". by split.
  - apply Hiff. exists "?x=1&", "". by split.
Defined.

(** ** The requests the [fetch] listener hands to a handler *)

Lemma localhost_match_inv (pre1 s1 : list ascii) (st : MState) :
  matcher false (pattern localhostPattern) Some (mkMState pre1 [] s1 []) = Some st →
  pre1 = []
  ∧ ∃ port, port ≠ [] ∧ forallb is_digit port = true
            ∧ s1 = chars "localhost:" ++ port.
Proof.
  cbn [localhostPattern pattern matcher pre taken]. intros H.
  destruct pre1 as [|x pre1]; [|done]. split; [done|].
  apply matcher_literal_inv in H as (l & st1 & Hadv & Hl & H).
  apply Forall2_char_eq in Hl. subst l.
  cbn [matcher] in H.
  apply single_inv in H as (c & r & Hr & Hc & H).
  eapply (repeat_single_inv _ _ _ (fun k' st' => eq_refl)) in H
    as (l & st' & Hadv' & Hall & Hk).
  cbn [capture rest] in Hk.
  destruct (rest st') as [|y ys] eqn:Hend; [|done].
  exists (c :: l). split; [done|]. split; [by simpl; rewrite Hc, Hall|].
  destruct Hadv as (_ & _ & _ & Hs). destruct Hadv' as (_ & _ & _ & Hs').
  simpl in Hs, Hs'. rewrite Hs, Hr, Hs', Hend. by rewrite app_nil_r.
Qed.

(** The hosts that match [/^localhost:(\d+)$/] are [localhost:] followed by
    a non-empty run of digits. *)
Lemma localhost_hosts (h : string) :
  matches h localhostPattern = true
  ↔ ∃ port, port ≠ "" ∧ forallb is_digit (chars port) = true
            ∧ h = "localhost:" +:+ port.
Proof.
  unfold matches, exec. split.
  - destruct (search_from _ _ _) as [res|] eqn:Hs; [|done]. intros _.
    apply search_from_inv in Hs as (pre1 & s1 & st & Heq & Hm & _).
    apply localhost_match_inv in Hm as (-> & port & Hne & Hall & ->).
    simpl in Heq. exists (str port). split; [|split].
    + intros Hp. apply Hne. by rewrite <- (chars_str port), Hp.
    + by rewrite chars_str.
    + apply chars_inj. by rewrite chars_app, chars_str.
  - intros (port & Hne & Hall & ->). rewrite chars_app.
    destruct (chars port) as [|c l] eqn:Hp.
    { exfalso. apply Hne. apply chars_inj. by rewrite Hp. }
    simpl in Hall. apply andb_prop in Hall as [Hc Hl].
    erewrite search_from_here; [done|].
    cbn [localhostPattern pattern ignoreCase matcher pre taken].
    rewrite (matcher_literal (chars "localhost:") _ _ _ (c :: l)) by done.
    cbn [matcher]. unfold single at 1. cbn [rest]. rewrite Hc.
    set (st2 := mkMState _ (c :: _) l _).
    apply (repeat_single_greedy _ is_digit _ l (fun k' st' => eq_refl) st2
             (mkMState (pre st2) (rev l ++ taken st2) [] (caps st2))).
    + repeat split. simpl. by rewrite app_nil_r.
    + done.
    + done.
    + done.
    + reflexivity.
Qed.

Lemma spawn_inj (w : World) (t1 t2 : Task) : spawn w t1 = spawn w t2 → t1 = t2.
Proof.
  intros H. apply (f_equal tasks) in H. simpl in H.
  apply app_inv_head in H. by injection H.
Qed.

(** X7: the [fetch] listener starts the localhost handler exactly for the
    requests to another origin whose host is [localhost:] followed by a
    non-empty run of digits. *)
Theorem localhost_requests (w : World) (event : FetchEvent) :
  step w (Fetch event) = spawn w (LocalhostAwaitClient event)
  ↔ origin (request_url event) ≠ self_origin w
    ∧ ∃ port, port ≠ "" ∧ forallb is_digit (chars port) = true
              ∧ host (request_url event) = "localhost:" +:+ port.
Proof.
  simpl. unfold fetch_listener. rewrite <- localhost_hosts.
  destruct (String.eqb_spec (origin (request_url event)) (self_origin w)) as [He|Hne].
  - simpl. split.
    + destruct (startsWith _ _); intros H%spawn_inj; discriminate.
    + by intros [Hne _].
  - simpl. destruct (matches _ _); split; try done.
    + intros H%spawn_inj. discriminate.
    + by intros [_ ?].
Qed.





(** ** Creating and looking up entries *)

(** X9: in a store reached by any history of operations, [create] followed
    by [get] finds the promise [create] returned, and a second [create]
    returns it again without changing the store; the other keys and the
    promises already there are untouched; and when the key had no entry the
    promise is new: pending, without observers, and the entry of no other
    key. *)
Theorem create_then_get (T : Type) (ops : list (StoreOp T)) (webviewId path : string) :
  let s := store_after ops in
  let p := (RequestStore.create s webviewId path).1 in
  let s' := (RequestStore.create s webviewId path).2 in
  RequestStore.get s' webviewId path = Some p
  ∧ RequestStore.create s' webviewId path = (p, s')
  ∧ (∀ k, k ≠ RequestStore._key webviewId path →
          RequestStore.map s' !! k = RequestStore.map s !! k)
  ∧ (∀ q pr, RequestStore.heap s !! q = Some pr → RequestStore.heap s' !! q = Some pr)
  ∧ (RequestStore.get s webviewId path = None →
     RequestStore.heap s' !! p = Some (RequestStore.mkPromise None [])
     ∧ ∀ k, RequestStore.map s !! k ≠ Some p).
Proof.
  intros s p s'. destruct (store_after_wf ops) as [Hlt _]. fold s in Hlt.
  subst p s'. unfold RequestStore.create.
  destruct (RequestStore.get s webviewId path) as [e|] eqn:Hg; simpl.
  - split; [done|]. split; [by rewrite Hg|]. by repeat split.
  - assert (Hnew : RequestStore.get
             (RequestStore.mk
                (<[RequestStore._key webviewId path := length (RequestStore.heap s)]>
                   (RequestStore.map s))
                (RequestStore.heap s ++ [RequestStore.mkPromise None []]))
             webviewId path = Some (length (RequestStore.heap s))).
    { unfold RequestStore.get. simpl. apply lookup_insert_eq. }
    split; [exact Hnew|]. split; [by rewrite Hnew|]. split; [|split].
    + intros k Hk. by apply lookup_insert_ne.
    + intros q pr Hq. by apply lookup_app_l_Some.
    + intros _. split.
      * rewrite lookup_app_r by done. by rewrite Nat.sub_diag.
      * intros k Hk. apply Hlt in Hk. lia.
Qed.

(** ** What an event does to the stores and to the messages posted *)

Lemma then_map {T : Type} (s : RequestStore.t T) (p tid : nat) :
  RequestStore.map (RequestStore.then_ s p tid).1 = RequestStore.map s.
Proof.
  unfold RequestStore.then_.
  by destruct (RequestStore.Promise_then (RequestStore.heap s) p tid).
Qed.

Lemma step_clients (w : World) (e : Event) :
  clients (step w e) = clients w ∧ self_origin (step w e) = self_origin w.
Proof.
  destruct e as [event|source data|tid|]; simpl.
  - unfold fetch_listener. by repeat case_match.
  - unfold message_listener. by repeat case_match.
  - unfold processResourceRequest_client, processResourceRequest_parent,
      processLocalhostRequest_client, processLocalhostRequest_parent.
    by repeat case_match.
  - destruct (jobs w) as [|j js]; [done|]. unfold run_job. by repeat case_match.
Qed.

Lemma run_clients (es : list Event) (w : World) :
  clients (run w es) = clients w ∧ self_origin (run w es) = self_origin w.
Proof.
  revert w. induction es as [|e es IH]; intros w; [done|].
  simpl. destruct (IH (step w e)) as [-> ->]. apply step_clients.
Qed.

(** An event either posts nothing and leaves the keys of both stores as
    they are, or it creates the entry of a key that had none, in one store,
    and posts one message to the controller found for the session. *)
Lemma step_posted_maps (w : World) (e : Event) :
  let w' := step w e in
  let res := resourceRequestStore w in
  let loc := localhostRequestStore w in
  (posted w' = posted w
   ∧ RequestStore.map (resourceRequestStore w') = RequestStore.map res
   ∧ RequestStore.map (localhostRequestStore w') = RequestStore.map loc)
  ∨ (∃ parent webviewId path,
       getOuterIframeClient (clients w) webviewId = Return (Some parent)
       ∧ posted w' = posted w ++ [(parent, LoadResource path)]
       ∧ RequestStore.map res !! RequestStore._key webviewId path = None
       ∧ RequestStore.map (resourceRequestStore w')
         = <[RequestStore._key webviewId path := length (RequestStore.heap res)]>
             (RequestStore.map res)
       ∧ RequestStore.map (localhostRequestStore w') = RequestStore.map loc)
  ∨ (∃ parent webviewId origin0,
       getOuterIframeClient (clients w) webviewId = Return (Some parent)
       ∧ posted w' = posted w ++ [(parent, LoadLocalhost origin0)]
       ∧ RequestStore.map loc !! RequestStore._key webviewId origin0 = None
       ∧ RequestStore.map (localhostRequestStore w')
         = <[RequestStore._key webviewId origin0 := length (RequestStore.heap loc)]>
             (RequestStore.map loc)
       ∧ RequestStore.map (resourceRequestStore w') = RequestStore.map res).
Proof.
  destruct e as [event|source data|tid|]; simpl.
  - left. unfold fetch_listener. by repeat case_match.
  - left. unfold message_listener.
    destruct data as [path status data mime|origin0 location|channel]; [| |done].
    + destruct (getWebviewIdForClient source) as [webviewId|]; [|done].
      pose proof (resolve_map (resourceRequestStore w) webviewId path
                    (if (status =? 200)%Z then Some (mkResource data mime) else None))
        as Hm.
      destruct (RequestStore.resolve _ _ _ _) as [[ok s] js]. by destruct ok.
    + destruct (getWebviewIdForClient source) as [webviewId|]; [|done].
      pose proof (resolve_map (localhostRequestStore w) webviewId origin0 location)
        as Hm.
      destruct (RequestStore.resolve _ _ _ _) as [[ok s] js]. by destruct ok.
  - destruct (tasks w !! tid) as [t|]; [|by left].
    destruct t as [event|event webviewId path|event p|event|event webviewId|event p| | |];
      try (by left).
    + left. unfold processResourceRequest_client. by repeat case_match.
    + unfold processResourceRequest_parent.
      destruct (getOuterIframeClient (clients w) webviewId) as [[parent|]|] eqn:Hp;
        try (by left).
      destruct (RequestStore.get (resourceRequestStore w) webviewId path)
        as [existing|] eqn:Hg.
      * left. pose proof (then_map (resourceRequestStore w) existing tid) as Hm.
        by destruct (RequestStore.then_ (resourceRequestStore w) existing tid).
      * right. left. exists parent, webviewId, path.
        unfold RequestStore.create. simpl. rewrite Hg.
        pose proof (then_map
          (RequestStore.mk
             (<[RequestStore._key webviewId path
                := length (RequestStore.heap (resourceRequestStore w))]>
                (RequestStore.map (resourceRequestStore w)))
             (RequestStore.heap (resourceRequestStore w)
                ++ [RequestStore.mkPromise None []]))
          (length (RequestStore.heap (resourceRequestStore w))) tid) as Hm.
        destruct (RequestStore.then_ _ _ tid) as [s2 js]. by repeat split.
    + left. unfold processLocalhostRequest_client. by repeat case_match.
    + unfold processLocalhostRequest_parent.
      destruct (getOuterIframeClient (clients w) webviewId) as [[parent|]|] eqn:Hp;
        try (by left).
      destruct (RequestStore.get (localhostRequestStore w) webviewId
                  (origin (request_url event))) as [existing|] eqn:Hg.
      * left. pose proof (then_map (localhostRequestStore w) existing tid) as Hm.
        by destruct (RequestStore.then_ (localhostRequestStore w) existing tid).
      * right. right. exists parent, webviewId, (origin (request_url event)).
        unfold RequestStore.create. simpl. rewrite Hg.
        pose proof (then_map
          (RequestStore.mk
             (<[RequestStore._key webviewId (origin (request_url event))
                := length (RequestStore.heap (localhostRequestStore w))]>
                (RequestStore.map (localhostRequestStore w)))
             (RequestStore.heap (localhostRequestStore w)
                ++ [RequestStore.mkPromise None []]))
          (length (RequestStore.heap (localhostRequestStore w))) tid) as Hm.
        destruct (RequestStore.then_ _ _ tid) as [s2 js]. by repeat split.
  - left. destruct (jobs w) as [|j js]; [done|]. unfold run_job. by repeat case_match.
Qed.

(** ** The controller lookup *)


Lemma find_outer_no_root (webviewId : string) (cs : list Client) :
  (∀ c, c ∈ cs → pathname (client_url c) ≠ "/") →
  find_outer webviewId cs = Return None.
Proof.
  induction cs as [|c0 cs IH]; intros H; simpl; [done|].
  destruct (String.eqb (pathname (client_url c0)) "/") eqn:Hp.
  - apply String.eqb_eq in Hp. exfalso. apply (H c0); [apply list_elem_of_here|done].
  - apply IH. intros c Hc. apply H. by apply list_elem_of_further.
Qed.

(** ** A local origin without a redirect *)

(** X10: when the controller answers [did-load-localhost] for an origin
    without a location, or with an empty one, every handler waiting on the
    entry of the origin lets the request go to the network: its promise is
    fulfilled with [fetch(event.request)], and nothing is posted. *)
Theorem localhost_without_redirect (w : World) (source : Client)
    (webviewId origin0 : string) (location : option string) (p : nat)
    (observers : list nat) (tid : nat) (event : FetchEvent) :
  getWebviewIdForClient source = Return webviewId →
  RequestStore.get (localhostRequestStore w) webviewId origin0 = Some p →
  RequestStore.heap (localhostRequestStore w) !! p
    = Some (RequestStore.mkPromise None observers) →
  jobs w = [] →
  tid ∈ observers →
  tasks w !! tid = Some (LocalhostAwaitEntry event p) →
  location = None ∨ location = Some "" →
  let w' := drain (step w (MessageFrom source (DidLoadLocalhost origin0 location))) in
  tasks w' !! tid = Some (Fulfilled (NetworkFetch event))
  ∧ respondWith (NetworkFetch event) = ServedFromNetwork event
  ∧ posted w' = posted w
  ∧ RequestStore.heap (localhostRequestStore w') !! p
    = Some (RequestStore.mkPromise (Some location) []).
Proof.
  intros Hid Hget Hp Hj Hin Ht Hloc w'.
  pose proof (step_localhost_message_pending w source webviewId origin0 location
                p observers Hid Hget Hp) as Hstep.
  set (w1 := step w (MessageFrom source (DidLoadLocalhost origin0 location))) in *.
  assert (Hj1 : jobs w1 = (fun tid => LocalhostJob tid location) <$> observers).
  { rewrite Hstep. simpl. by rewrite Hj. }
  destruct (drain_localhost_jobs observers location w1 Hj1)
    as ((_ & _ & _ & Hlo & Hpo & _) & _ & Hd).
  fold w' in Hd, Hlo, Hpo.
  split.
  { rewrite Hd. destruct (decide (tid ∈ observers)) as [_|Hn]; [|done].
    assert (Htw : tasks w1 = tasks w) by (by rewrite Hstep).
    rewrite Htw, Ht. simpl. by destruct Hloc as [->| ->]. }
  split; [done|]. split.
  { rewrite Hpo, Hstep. done. }
  rewrite Hlo, Hstep. simpl. apply list_lookup_insert_eq.
  by eapply lookup_lt_Some.
Qed.

Lemma localhost_without_redirect_witness :
  let w := run worker [Fetch page_request; Resume 0; Resume 0] in
  let w' := drain (step w (MessageFrom controller
              (DidLoadLocalhost "http://localhost:8080" None))) in
  tasks w' !! 0 = Some (Fulfilled (NetworkFetch page_request))
  ∧ posted w' = [(controller, LoadLocalhost "http://localhost:8080")].
Proof.
  intros w w'.
  destruct (localhost_without_redirect w controller "s1" "http://localhost:8080"
              None 0 [0] 0 page_request) as (H1 & _ & H3 & _);
    try (vm_compute; reflexivity).
  - apply list_elem_of_here.
  - by left.
  - split; [exact H1|]. etrans; [exact H3|vm_compute; reflexivity].
Defined.

(** ** What stays in the stores *)

Lemma step_map_lookup (w : World) (e : Event) (k : string) (p : nat) :
  (RequestStore.map (resourceRequestStore w) !! k = Some p →
   RequestStore.map (resourceRequestStore (step w e)) !! k = Some p)
  ∧ (RequestStore.map (localhostRequestStore w) !! k = Some p →
     RequestStore.map (localhostRequestStore (step w e)) !! k = Some p).
Proof.
  destruct (step_posted_maps w e)
    as [(_ & -> & ->)
       |[(parent & id & path & _ & _ & Hnone & -> & ->)
        |(parent & id & o & _ & _ & Hnone & -> & ->)]]; [done| |].
  - split; [|done]. intros Hk.
    rewrite lookup_insert_ne; [done|]. intros <-. congruence.
  - split; [done|]. intros Hk.
    rewrite lookup_insert_ne; [done|]. intros <-. congruence.
Qed.

Lemma apply_op_settled {T : Type} (s : RequestStore.t T) (op : StoreOp T)
    (p : nat) (x : T) (rs : list nat) :
  RequestStore.heap s !! p = Some (RequestStore.mkPromise (Some x) rs) →
  RequestStore.heap (apply_op s op) !! p = Some (RequestStore.mkPromise (Some x) rs).
Proof.
  intros Hp. destruct op as [webviewId path|webviewId path result|promise tid]; simpl.
  - unfold RequestStore.create.
    destruct (RequestStore.get s webviewId path); simpl; [done|].
    by apply lookup_app_l_Some.
  - unfold RequestStore.resolve.
    destruct (RequestStore.get s webviewId path) as [entry|]; [|done].
    unfold RequestStore.Promise_resolve.
    destruct (RequestStore.heap s !! entry) as [[[y|] rs']|] eqn:He; simpl; try done.
    rewrite list_lookup_insert_ne; [done|]. intros ->. congruence.
  - unfold RequestStore.then_, RequestStore.Promise_then.
    destruct (RequestStore.heap s !! promise) as [[[y|] rs']|] eqn:He; simpl; try done.
    rewrite list_lookup_insert_ne; [done|]. intros ->. congruence.
Qed.

Lemma history_settled {T : Type} (ops : list (StoreOp T)) (s : RequestStore.t T)
    (p : nat) (x : T) (rs : list nat) :
  RequestStore.heap s !! p = Some (RequestStore.mkPromise (Some x) rs) →
  RequestStore.heap (foldl apply_op s ops) !! p
    = Some (RequestStore.mkPromise (Some x) rs).
Proof.
  revert s. induction ops as [|op ops IH]; intros s Hp; [done|].
  simpl. apply IH. by apply apply_op_settled.
Qed.

(** X11: an answer is permanent. Once the entry of a key holds a fulfilled
    promise, no later fetch, message, resumption or reaction removes the
    entry, gives the key another promise or changes the value: a second
    answer of the controller for the key is ignored. This holds of both
    stores. *)
Theorem answers_are_permanent (w : World) (es : list Event) :
  let w' := run w es in
  (∀ webviewId path p x rs,
     RequestStore.get (resourceRequestStore w) webviewId path = Some p →
     RequestStore.heap (resourceRequestStore w) !! p
       = Some (RequestStore.mkPromise (Some x) rs) →
     RequestStore.get (resourceRequestStore w') webviewId path = Some p
     ∧ RequestStore.heap (resourceRequestStore w') !! p
       = Some (RequestStore.mkPromise (Some x) rs))
  ∧ (∀ webviewId origin0 p x rs,
     RequestStore.get (localhostRequestStore w) webviewId origin0 = Some p →
     RequestStore.heap (localhostRequestStore w) !! p
       = Some (RequestStore.mkPromise (Some x) rs) →
     RequestStore.get (localhostRequestStore w') webviewId origin0 = Some p
     ∧ RequestStore.heap (localhostRequestStore w') !! p
       = Some (RequestStore.mkPromise (Some x) rs)).
Proof.
  revert w. induction es as [|e es IH]; intros w; [done|].
  simpl. destruct (IH (step w e)) as [IHr IHl]. split.
  - intros webviewId path p x rs Hg Hp. apply IHr.
    + by apply (step_map_lookup w e).
    + destruct (step_resource_history w e) as [ops ->]. by apply history_settled.
  - intros webviewId origin0 p x rs Hg Hp. apply IHl.
    + by apply (step_map_lookup w e).
    + destruct (step_localhost_history w e) as [ops ->]. by apply history_settled.
Qed.

Lemma answers_are_permanent_witness :
  let w := drain (step (run worker [Fetch image_request; Resume 0; Resume 0])
             (MessageFrom controller (DidLoadResource "/img.png" 200 png "image/png"))) in
  let w' := run w [MessageFrom controller (DidLoadResource "/img.png" 404 [] "");
                   Fetch image_request; Resume 1; Resume 1; Microtask] in
  RequestStore.heap (resourceRequestStore w') !! 0
    = Some (RequestStore.mkPromise (Some (Some (mkResource png "image/png"))) []).
Proof.
  intros w w'.
  destruct (answers_are_permanent w
              [MessageFrom controller (DidLoadResource "/img.png" 404 [] "");
               Fetch image_request; Resume 1; Resume 1; Microtask]) as [Hr _].
  destruct (Hr "s1" "/img.png" 0 (Some (mkResource png "image/png")) [])
    as [_ H]; [vm_compute; reflexivity..|exact H].
Defined.

(** ** What is posted *)

Lemma run_posted_count (es : list Event) (w : World) :
  length (posted w)
    = size (RequestStore.map (resourceRequestStore w))
      + size (RequestStore.map (localhostRequestStore w)) →
  length (posted (run w es))
    = size (RequestStore.map (resourceRequestStore (run w es)))
      + size (RequestStore.map (localhostRequestStore (run w es))).
Proof.
  revert w. induction es as [|e es IH]; intros w Hw; [done|].
  simpl. apply IH.
  destruct (step_posted_maps w e)
    as [(-> & -> & ->)
       |[(parent & id & path & _ & -> & Hnone & -> & ->)
        |(parent & id & o & _ & -> & Hnone & -> & ->)]]; [done| |].
  - rewrite length_app, map_size_insert_None by done. simpl. lia.
  - rewrite length_app, map_size_insert_None by done. simpl. lia.
Qed.

(** X12: the worker posts one message per entry. After any schedule of
    events on a new worker, the number of messages posted to controllers
    equals the number of entries of the two stores: a key is asked for
    once, however many requests, answers and resumptions there were. *)
Theorem one_message_per_entry (self_origin : string) (cs : list Client)
    (es : list Event) :
  let w := run (init self_origin cs) es in
  length (posted w)
    = size (RequestStore.map (resourceRequestStore w))
      + size (RequestStore.map (localhostRequestStore w)).
Proof.
  intros w. subst w. by apply run_posted_count.
Qed.





(** X14: without a controller nothing is asked for. If no connected client
    has the root path, then after any schedule of events on a new worker no
    message has been posted and both stores are empty, and a handler that
    resumes from the controller lookup, of either flow, answers with the
    404 response. *)
Theorem no_controller_connected (self_origin : string) (cs : list Client)
    (es : list Event) :
  (∀ c, c ∈ cs → pathname (client_url c) ≠ "/") →
  let w := run (init self_origin cs) es in
  posted w = []
  ∧ RequestStore.map (resourceRequestStore w) = ∅
  ∧ RequestStore.map (localhostRequestStore w) = ∅
  ∧ ∀ tid event webviewId path,
      tasks w !! tid = Some (ResourceAwaitParent event webviewId path)
      ∨ tasks w !! tid = Some (LocalhostAwaitParent event webviewId) →
      tasks (step w (Resume tid)) !! tid = Some (Fulfilled (Respond notFoundResponse))
      ∧ posted (step w (Resume tid)) = [].
Proof.
  intros Hroot w.
  assert (Hinv : clients w = cs ∧ posted w = []
                 ∧ RequestStore.map (resourceRequestStore w) = ∅
                 ∧ RequestStore.map (localhostRequestStore w) = ∅).
  { subst w. split; [apply (run_clients es (init self_origin cs))|].
    assert (Hgen : ∀ w0, clients w0 = cs → posted w0 = []
              ∧ RequestStore.map (resourceRequestStore w0) = ∅
              ∧ RequestStore.map (localhostRequestStore w0) = ∅ →
              posted (run w0 es) = []
              ∧ RequestStore.map (resourceRequestStore (run w0 es)) = ∅
              ∧ RequestStore.map (localhostRequestStore (run w0 es)) = ∅).
    { induction es as [|e es IH]; intros w0 Hcl H0; [done|].
      simpl. apply IH; [by rewrite (proj1 (step_clients w0 e))|].
      destruct H0 as (Hpo & Hr & Hl).
      destruct (step_posted_maps w0 e)
        as [(-> & -> & ->)
           |[(parent & id & path & Hparent & _)
            |(parent & id & o & Hparent & _)]]; [done| |].
      - unfold getOuterIframeClient in Hparent.
        rewrite Hcl, find_outer_no_root in Hparent by done. done.
      - unfold getOuterIframeClient in Hparent.
        rewrite Hcl, find_outer_no_root in Hparent by done. done. }
    by apply Hgen. }
  destruct Hinv as (Hcl & Hpo & Hr & Hl).
  split; [done|]. split; [done|]. split; [done|].
  intros tid event webviewId path [Ht|Ht].
  - change (step w (Resume tid)) with
      (match tasks w !! tid with
       | Some (ResourceAwaitClient event) => processResourceRequest_client w tid event
       | Some (ResourceAwaitParent event webviewId resourcePath) =>
         processResourceRequest_parent w tid event webviewId resourcePath
       | Some (LocalhostAwaitClient event) => processLocalhostRequest_client w tid event
       | Some (LocalhostAwaitParent event webviewId) =>
         processLocalhostRequest_parent w tid event webviewId
       | _ => w
       end).
    rewrite Ht. unfold processResourceRequest_parent, getOuterIframeClient.
    rewrite Hcl, find_outer_no_root by done. simpl.
    split; [|done]. apply list_lookup_insert_eq. by eapply lookup_lt_Some.
  - change (step w (Resume tid)) with
      (match tasks w !! tid with
       | Some (ResourceAwaitClient event) => processResourceRequest_client w tid event
       | Some (ResourceAwaitParent event webviewId resourcePath) =>
         processResourceRequest_parent w tid event webviewId resourcePath
       | Some (LocalhostAwaitClient event) => processLocalhostRequest_client w tid event
       | Some (LocalhostAwaitParent event webviewId) =>
         processLocalhostRequest_parent w tid event webviewId
       | _ => w
       end).
    rewrite Ht. unfold processLocalhostRequest_parent, getOuterIframeClient.
    rewrite Hcl, find_outer_no_root by done. simpl.
    split; [|done]. apply list_lookup_insert_eq. by eapply lookup_lt_Some.
Qed.

Lemma no_controller_connected_witness :
  let w := run (init "https://webview.test" [inner_page])
             [Fetch image_request; Resume 0] in
  posted w = []
  ∧ tasks (step w (Resume 0)) !! 0 = Some (Fulfilled (Respond notFoundResponse)).
Proof.
  intros w.
  destruct (no_controller_connected "https://webview.test" [inner_page]
              [Fetch image_request; Resume 0]) as (H1 & _ & _ & H4).
  - intros c Hc. apply list_elem_of_singleton in Hc as ->. vm_compute. discriminate.
  - split; [exact H1|].
    apply (H4 0 image_request "s1" "/img.png"). left. vm_compute. reflexivity.
Defined.

(** ** What an event does to the tasks *)

(** An event starts one handler call, or leaves the calls as they are, or
    moves one call that has not finished. *)
Lemma step_tasks (w : World) (e : Event) :
  (∃ t, tasks (step w e) = tasks w ++ [t])
  ∨ tasks (step w e) = tasks w
  ∨ (∃ tid t t', tasks w !! tid = Some t ∧ finished t = false
                 ∧ tasks (step w e) = <[tid := t']> (tasks w)).
Proof.
  destruct e as [event|source data|tid|]; simpl.
  - left. unfold fetch_listener. repeat case_match; by eexists.
  - right. left. unfold message_listener. by repeat case_match.
  - destruct (tasks w !! tid) as [t|] eqn:Ht; [|by right; left].
    destruct t as [event|event webviewId path|event p|event|event webviewId|event p| | |];
      try (by right; left); right; right; exists tid.
    + unfold processResourceRequest_client.
      repeat case_match; eexists _, _; (split; [exact Ht|]); by split.
    + unfold processResourceRequest_parent.
      repeat case_match; eexists _, _; (split; [exact Ht|]); by split.
    + unfold processLocalhostRequest_client.
      repeat case_match; eexists _, _; (split; [exact Ht|]); by split.
    + unfold processLocalhostRequest_parent.
      repeat case_match; eexists _, _; (split; [exact Ht|]); by split.
  - destruct (jobs w) as [|j js]; [by right; left|].
    destruct j as [tid entry|tid redirectOrigin]; simpl.
    + destruct (tasks w !! tid) as [t|] eqn:Ht; [|by right; left].
      destruct t; try (by right; left).
      right; right. exists tid. destruct (resolveResourceEntry entry).
      * by eexists _, _.
      * by eexists _, _.
    + destruct (tasks w !! tid) as [t|] eqn:Ht; [|by right; left].
      destruct t; try (by right; left).
      right; right. exists tid. destruct (resolveRedirect event redirectOrigin).
      * by eexists _, _.
      * by eexists _, _.
Qed.

(** X15: a request is answered once. When a handler call has finished, with
    a value for [respondWith], with a rejection, or because the listener did
    not take the request, no later fetch, message, resumption or reaction
    changes its outcome. *)
Theorem outcome_is_final (w : World) (es : list Event) (tid : nat) (t : Task) :
  tasks w !! tid = Some t →
  finished t = true →
  tasks (run w es) !! tid = Some t.
Proof.
  revert w. induction es as [|e es IH]; intros w Ht Hf; [done|].
  simpl. apply IH; [|done].
  destruct (step_tasks w e) as [[t0 ->]|[->|(i & ti & t' & Hi & Hfi & ->)]]; [|done|].
  - by apply lookup_app_l_Some.
  - rewrite list_lookup_insert_ne; [done|]. intros ->. congruence.
Qed.

Lemma outcome_is_final_witness :
  let w := drain (step (run worker [Fetch image_request; Resume 0; Resume 0])
             (MessageFrom controller (DidLoadResource "/img.png" 200 png "image/png"))) in
  let answer := Fulfilled (Respond
                  (mkResponse (DataBody png) 200 [("Content-Type", "image/png")])) in
  tasks (run w [MessageFrom controller (DidLoadResource "/img.png" 404 [] "");
                Resume 0; Microtask; Fetch image_request]) !! 0 = Some answer.
Proof.
  intros w answer.
  apply (outcome_is_final w); vm_compute; reflexivity.
Defined.

(** ** Waiting for the controller *)

Lemma then_pending {T : Type} (s : RequestStore.t T) (p tid : nat) :
  all_pending s →
  (RequestStore.then_ s p tid).2 = [] ∧ all_pending (RequestStore.then_ s p tid).1.
Proof.
  intros Hs. unfold RequestStore.then_, RequestStore.Promise_then.
  destruct (RequestStore.heap s !! p) as [[[y|] rs]|] eqn:Hp; simpl.
  - by specialize (Hs p _ Hp).
  - split; [done|]. intros q pr Hq. simpl in Hq.
    apply list_lookup_insert_Some in Hq as [(-> & <- & _)|[_ Hq]]; [done|].
    by apply (Hs q).
  - done.
Qed.

Lemma create_pending {T : Type} (s : RequestStore.t T) (webviewId path : string) :
  all_pending s → all_pending (RequestStore.create s webviewId path).2.
Proof.
  intros Hs. unfold RequestStore.create.
  destruct (RequestStore.get s webviewId path); simpl; [done|].
  intros q pr Hq. simpl in Hq.
  apply lookup_app_Some in Hq as [Hq|[_ Hq]]; [by apply (Hs q)|].
  apply list_lookup_singleton_Some in Hq as [_ <-]. done.
Qed.

(** While no promise is fulfilled and no reaction waits, an event other
    than a message keeps it so. *)
Lemma step_pending (w : World) (e : Event) :
  is_message e = false →
  jobs w = [] →
  all_pending (resourceRequestStore w) →
  all_pending (localhostRequestStore w) →
  jobs (step w e) = []
  ∧ all_pending (resourceRequestStore (step w e))
  ∧ all_pending (localhostRequestStore (step w e)).
Proof.
  intros He Hj Hr Hl.
  destruct e as [event|source data|tid|]; [|done| |]; simpl.
  - unfold fetch_listener. by repeat case_match.
  - destruct (tasks w !! tid) as [t|]; [|done].
    destruct t as [event|event webviewId path|event p|event|event webviewId|event p| | |];
      try done.
    + unfold processResourceRequest_client. by repeat case_match.
    + unfold processResourceRequest_parent.
      destruct (getOuterIframeClient (clients w) webviewId) as [[parent|]|]; try done.
      destruct (RequestStore.get (resourceRequestStore w) webviewId path)
        as [existing|] eqn:Hg.
      * destruct (then_pending (resourceRequestStore w) existing tid Hr) as [Hjs Hs].
        destruct (RequestStore.then_ (resourceRequestStore w) existing tid) as [s js].
        simpl in *. subst js. by rewrite Hj.
      * pose proof (create_pending (resourceRequestStore w) webviewId path Hr) as Hc.
        simpl.
        destruct (RequestStore.create (resourceRequestStore w) webviewId path)
          as [promise s1].
        destruct (then_pending s1 promise tid Hc) as [Hjs Hs].
        destruct (RequestStore.then_ s1 promise tid) as [s2 js].
        simpl in *. subst js. by rewrite Hj.
    + unfold processLocalhostRequest_client. by repeat case_match.
    + unfold processLocalhostRequest_parent.
      destruct (getOuterIframeClient (clients w) webviewId) as [[parent|]|]; try done.
      destruct (RequestStore.get (localhostRequestStore w) webviewId
                  (origin (request_url event))) as [existing|] eqn:Hg.
      * destruct (then_pending (localhostRequestStore w) existing tid Hl) as [Hjs Hs].
        destruct (RequestStore.then_ (localhostRequestStore w) existing tid) as [s js].
        simpl in *. subst js. by rewrite Hj.
      * pose proof (create_pending (localhostRequestStore w) webviewId
                      (origin (request_url event)) Hl) as Hc.
        simpl.
        destruct (RequestStore.create (localhostRequestStore w) webviewId
                    (origin (request_url event))) as [promise s1].
        destruct (then_pending s1 promise tid Hc) as [Hjs Hs].
        destruct (RequestStore.then_ s1 promise tid) as [s2 js].
        simpl in *. subst js. by rewrite Hj.
  - by rewrite Hj.
Qed.

Lemma run_pending (es : list Event) (w : World) :
  forallb (fun e => negb (is_message e)) es = true →
  jobs w = [] →
  all_pending (resourceRequestStore w) →
  all_pending (localhostRequestStore w) →
  jobs (run w es) = []
  ∧ all_pending (resourceRequestStore (run w es))
  ∧ all_pending (localhostRequestStore (run w es)).
Proof.
  revert w. induction es as [|e es IH]; intros w Hes Hj Hr Hl; [done|].
  simpl in Hes. apply andb_prop in Hes as [He Hes].
  apply negb_true_iff in He.
  destruct (step_pending w e He Hj Hr Hl) as (Hj' & Hr' & Hl').
  simpl. by apply IH.
Qed.

(** A handler waiting on an entry is moved by a reaction only. *)
Lemma step_waiting (w : World) (e : Event) (tid : nat) (t : Task) :
  is_message e = false →
  jobs w = [] →
  tasks w !! tid = Some t →
  awaits_entry t || awaits_localhost_entry t = true →
  tasks (step w e) !! tid = Some t.
Proof.
  intros He Hj Ht Ha.
  destruct e as [event|source data|i|]; [|done| |]; simpl.
  - unfold fetch_listener. repeat case_match; by apply lookup_app_l_Some.
  - destruct (decide (i = tid)) as [->|Hne].
    + rewrite Ht. by destruct t.
    + destruct (tasks w !! i) as [ti|] eqn:Hi; [|done].
      destruct ti as [event|event webviewId path|event p|event|event webviewId|event p| | |];
        try done.
      * unfold processResourceRequest_client.
        repeat case_match; simpl; by rewrite list_lookup_insert_ne.
      * unfold processResourceRequest_parent.
        repeat case_match; simpl; by rewrite list_lookup_insert_ne.
      * unfold processLocalhostRequest_client.
        repeat case_match; simpl; by rewrite list_lookup_insert_ne.
      * unfold processLocalhostRequest_parent.
        repeat case_match; simpl; by rewrite list_lookup_insert_ne.
  - by rewrite Hj.
Qed.

(** X16: no answer before the controller's. On a new worker, as long as no
    message arrives, a handler that waits on the promise of an entry, of
    either store, keeps waiting, whatever requests arrive and whichever
    handlers are resumed; and no reaction is ever scheduled. *)
Theorem no_answer_without_message (self_origin : string) (cs : list Client)
    (es1 es2 : list Event) (tid : nat) (t : Task) :
  forallb (fun e => negb (is_message e)) (es1 ++ es2) = true →
  let w := run (init self_origin cs) es1 in
  tasks w !! tid = Some t →
  awaits_entry t || awaits_localhost_entry t = true →
  tasks (run w es2) !! tid = Some t ∧ jobs (run w es2) = [].
Proof.
  intros Hes w Ht Ha.
  rewrite forallb_app in Hes. apply andb_prop in Hes as [Hes1 Hes2].
  assert (Hw : jobs w = [] ∧ all_pending (resourceRequestStore w)
               ∧ all_pending (localhostRequestStore w)).
  { subst w. apply run_pending; [done|done| |]; by intros p pr Hp. }
  clearbody w. clear Hes1. revert w Ht Hw.
  induction es2 as [|e es IH]; intros w Ht (Hj & Hr & Hl); [done|].
  simpl in Hes2. apply andb_prop in Hes2 as [He Hes2].
  apply negb_true_iff in He.
  simpl. apply IH; [done| |].
  - by apply step_waiting.
  - by apply step_pending.
Qed.

Lemma no_answer_without_message_witness :
  let w := run worker [Fetch image_request; Resume 0; Resume 0] in
  tasks (run w [Fetch image_request; Resume 1; Resume 1; Microtask; Resume 0]) !! 0
    = Some (ResourceAwaitEntry image_request 0).
Proof.
  intros w.
  apply (no_answer_without_message "https://webview.test" [inner_page; controller]
           [Fetch image_request; Resume 0; Resume 0]
           [Fetch image_request; Resume 1; Resume 1; Microtask; Resume 0]
           0 (ResourceAwaitEntry image_request 0));
    vm_compute; reflexivity.
Defined.
